(** * HyperQ warehouse demo: planner, detection models and motion controller

    A shallow embedding of the simulation core of the demo
    ([AStarPathfinder], [AIModel] / [BaselineModel] / [QINAModel], [Robot])
    and the properties of its specification.

    Conventions.
    - Grid coordinates are JavaScript numbers holding integers
      (the callers apply [Math.floor]); they are modelled as [Z].
    - The closed list is a [Set] of strings built as [x,y,z]; this
      encoding is injective on integer triples, so the set is modelled as a
      [gset] of triples.
    - A JavaScript call either returns a value or throws; [completion]
      records which.  Loops that the embedding runs on fuel return [None]
      when the fuel is exhausted, and the fuel is proved sufficient.
    - The other JavaScript numbers (times, probabilities, positions,
      angles) are modelled as real numbers: the properties below are about
      the arithmetic the code writes down, not about rounding.
    - [Math.random()] and [performance.now()] are inputs: a stream of
      draws and the two clock readings of a call.
    - Meshes, markers and materials belong to the renderer and are left
      out. *)

From stdpp Require Import base list gmap sets strings.
From Stdlib Require Import ZArith Lia ZifyBool Reals Lra.

#[local] Set Warnings "-register-all,-clear-no-such-hyp".

(** ** Completions of JavaScript calls *)

Inductive completion (A : Type) : Type :=
| Normal (v : A)
| Throw (name : string).
Arguments Normal {A} v.
Arguments Throw {A} name.

(** ** The A* planner ([AStarPathfinder]) *)

Module Planner.
Local Open Scope Z_scope.

(** [{x, y, z}] *)
Record coord := Coord { cx : Z; cy : Z; cz : Z }.

#[global] Instance coord_eq_dec : EqDecision coord.
Proof. solve_decision. Defined.

(** The nested array [grid[x][y][z]]; a cell holding [1] is an obstacle. *)
Abbreviation grid := (list (list (list Z))).

(** Open-list entries [{x, y, z, g, h, f, parent}].  A node becomes a
    parent only after it has left the open list, and only open-list entries
    are ever mutated, so holding the parent by value is faithful. *)
Inductive node : Type :=
| Node (nx ny nz : Z) (ng nh nf : Z) (nparent : option node).

Definition nx (n : node) := let 'Node x _ _ _ _ _ _ := n in x.
Definition ny (n : node) := let 'Node _ y _ _ _ _ _ := n in y.
Definition nz (n : node) := let 'Node _ _ z _ _ _ _ := n in z.
Definition ng (n : node) := let 'Node _ _ _ g _ _ _ := n in g.
Definition nh (n : node) := let 'Node _ _ _ _ h _ _ := n in h.
Definition nf (n : node) := let 'Node _ _ _ _ _ f _ := n in f.
Definition nparent (n : node) := let 'Node _ _ _ _ _ _ p := n in p.

Definition pos (n : node) : coord := Coord (nx n) (ny n) (nz n).

(** The key of the closed list, [`${x},${y},${z}`]. *)
Definition key (c : coord) : Z * Z * Z := (cx c, cy c, cz c).

(** [heuristic(a, b)]: Manhattan distance on the three axes. *)
Definition heuristic (a b : coord) : Z :=
  Z.abs (cx a - cx b) + Z.abs (cy a - cy b) + Z.abs (cz a - cz b).

(** [this.gridSize = grid.length] *)
Definition gridSize (gr : grid) : Z := Z.of_nat (length gr).

(** The four moves of [getNeighbors], in source order. *)
Definition directions : list (Z * Z * Z) :=
  [(1, 0, 0); (-1, 0, 0); (0, 0, 1); (0, 0, -1)].

Definition inBounds (gr : grid) (c : coord) : bool :=
  (0 <=? cx c) && (cx c <? gridSize gr) &&
  (0 <=? cy c) && (cy c <? gridSize gr) &&
  (0 <=? cz c) && (cz c <? gridSize gr).

(** [this.grid[x][y][z] !== 1] for an index that passed the bounds check.
    Indexing a missing plane or row reads a property of [undefined] and
    throws a [TypeError]; a missing innermost cell is [undefined], which is
    different from [1]. *)
Definition notObstacle (gr : grid) (c : coord) : completion bool :=
  match gr !! Z.to_nat (cx c) with
  | None => Throw "TypeError"
  | Some plane =>
      match plane !! Z.to_nat (cy c) with
      | None => Throw "TypeError"
      | Some row =>
          match row !! Z.to_nat (cz c) with
          | Some v => Normal (negb (v =? 1))
          | None => Normal true
          end
      end
  end.

(** The loop of [getNeighbors] over the remaining directions. *)
Fixpoint getNeighbors_from (gr : grid) (x y z : Z) (dirs : list (Z * Z * Z))
    (neighbors : list coord) : completion (list coord) :=
  match dirs with
  | [] => Normal neighbors
  | (dx, dy, dz) :: dirs' =>
      let c := Coord (x + dx) (y + dy) (z + dz) in
      if inBounds gr c then
        match notObstacle gr c with
        | Throw e => Throw e
        | Normal true => getNeighbors_from gr x y z dirs' (neighbors ++ [c])
        | Normal false => getNeighbors_from gr x y z dirs' neighbors
        end
      else getNeighbors_from gr x y z dirs' neighbors
  end.

Definition getNeighbors (gr : grid) (x y z : Z) : completion (list coord) :=
  getNeighbors_from gr x y z directions [].

(** [reconstructPath]: walk the parent links, prepending each node that
    has a parent. *)
Fixpoint reconstructPath_from (current : node) (path : list coord) : list coord :=
  match current with
  | Node x y z _ _ _ (Some p) => reconstructPath_from p (Coord x y z :: path)
  | Node _ _ _ _ _ _ None => path
  end.

Definition reconstructPath (n : node) : list coord := reconstructPath_from n [].

(** [openList.sort((a, b) => a.f - b.f)]: the sort is stable, so it is the
    insertion sort that keeps equal keys in their order. *)
Fixpoint insert_by_f (n : node) (l : list node) : list node :=
  match l with
  | [] => [n]
  | m :: l' => if nf n <=? nf m then n :: m :: l' else m :: insert_by_f n l'
  end.

Fixpoint sort_by_f (l : list node) : list node :=
  match l with
  | [] => []
  | n :: l' => insert_by_f n (sort_by_f l')
  end.

Definition samePos (c : coord) (n : node) : bool :=
  (nx n =? cx c) && (ny n =? cy c) && (nz n =? cz c).

(** [openList.find(node => node.x === neighbor.x && ...)] *)
Definition findOpen (c : coord) (openList : list node) : option node :=
  List.find (samePos c) openList.

(** The in-place update of the open-list entry returned by [find]
    (the first entry at that position). *)
Fixpoint improve (c : coord) (gScore : Z) (current : node) (openList : list node)
    : list node :=
  match openList with
  | [] => []
  | m :: l =>
      if samePos c m
      then Node (nx m) (ny m) (nz m) gScore (nh m) (gScore + nh m) (Some current) :: l
      else m :: improve c gScore current l
  end.

(** The body of [for (const neighbor of neighbors)]. *)
Definition visit (goal : coord) (current : node) (closedList : gset (Z * Z * Z))
    (openList : list node) (neighbor : coord) : list node :=
  if decide (key neighbor ∈ closedList) then openList
  else
    let gScore := ng current + 1 in
    match findOpen neighbor openList with
    | None =>
        openList ++ [Node (cx neighbor) (cy neighbor) (cz neighbor) gScore
                          (heuristic neighbor goal)
                          (gScore + heuristic neighbor goal) (Some current)]
    | Some openNode =>
        if gScore <? ng openNode then improve neighbor gScore current openList
        else openList
    end.

(** The [while (openList.length > 0)] loop, on fuel.  Sorting keeps the
    length, so the guard is tested on the sorted list; [shift] takes its
    head. *)
Fixpoint search (gr : grid) (goal : coord) (fuel : nat)
    (openList : list node) (closedList : gset (Z * Z * Z))
    : option (completion (list coord)) :=
  match fuel with
  | O => None
  | S fuel' =>
      match sort_by_f openList with
      | [] => Some (Normal [])
      | current :: rest =>
          if decide (pos current = goal) then Some (Normal (reconstructPath current))
          else
            let closedList' := {[key (pos current)]} ∪ closedList in
            match getNeighbors gr (nx current) (ny current) (nz current) with
            | Throw e => Some (Throw e)
            | Normal neighbors =>
                search gr goal fuel'
                  (foldl (visit goal current closedList') rest neighbors)
                  closedList'
            end
      end
  end.

(** Every iteration closes a position that was not closed before, and a
    position is the start or a cell of the grid: [gridSize³ + 2] rounds
    are enough (see [findPath_terminates]). *)
Definition enough (gr : grid) : nat :=
  S (S (length gr * length gr * length gr)).

Definition findPath (gr : grid) (start goal : coord) : option (completion (list coord)) :=
  if decide (start = goal) then Some (Normal [])
  else
    search gr goal (enough gr)
      [Node (cx start) (cy start) (cz start) 0
            (heuristic start goal) (heuristic start goal) None]
      ∅.

(** [createEmptyGrid] of the warehouse and a grid with one obstacle,
    as [addBox] writes it. *)
Definition createEmptyGrid (n : nat) : grid :=
  replicate n (replicate n (replicate n 0)).

Definition setCell (gr : grid) (x y z : nat) (v : Z) : grid :=
  match gr !! x with
  | None => gr
  | Some plane =>
      match plane !! y with
      | None => gr
      | Some row => <[x := <[y := <[z := v]> row]> plane]> gr
      end
  end.


(** Well-formed grids are cubes, as [createEmptyGrid] builds them. *)
Definition wellFormed (gr : grid) : bool :=
  forallb (fun plane =>
    (length plane =? length gr)%nat &&
    forallb (fun row : list Z => (length row =? length gr)%nat) plane) gr.

Definition obstacleFree (gr : grid) : bool :=
  forallb (forallb (forallb (fun v => negb (v =? 1)))) gr.

(** The value stored in a cell, when there is one. *)
Definition cell (gr : grid) (c : coord) : option Z :=
  plane ← gr !! Z.to_nat (cx c);
  row ← plane !! Z.to_nat (cy c);
  row !! Z.to_nat (cz c).

End Planner.

(** ** The detection models ([AIModel], [BaselineModel], [QINAModel]) *)

Module Models.
Local Open Scope R_scope.

(** The draws that the successive calls of [Math.random()] return. *)
Definition rng := nat → R.

Definition Math_random (s : rng) : R * rng := (s O, λ n, s (S n)).

Record vec3 := Vec3 { x : R; y : R; z : R }.

(** A box of the warehouse, as far as the models read it. *)
Record box := Box { position : vec3; rotation : R; scale : R }.

Record detection := Detection { dposition : vec3; confidence : R }.

(** The synthetic field; the scoring never reads it. *)
Definition visualData := list (list (list R)).

Record AIModel := {
  name : string;
  detections : list detection;
  processTime : R;
  missRate : R;
  totalDetections : Z;
  missedDetections : Z;
  threshold : R
}.

(** [constructor(name)], followed by the [threshold] of the subclass. *)
Definition AIModel_new (name : string) (threshold : R) : AIModel :=
  {| name := name; detections := []; processTime := 0; missRate := 0;
     totalDetections := 0; missedDetections := 0; threshold := threshold |}.

Definition BaselineModel_new : AIModel := AIModel_new "Baseline" 0.5.
Definition QINAModel_new : AIModel := AIModel_new "QINA" 0.3.

(** [calculateMissRate(detected, total)] *)
Definition calculateMissRate (detected total : Z) (m : AIModel) : AIModel :=
  let totalDetections' := (totalDetections m + total)%Z in
  let missedDetections' := (missedDetections m + (total - detected))%Z in
  {| name := name m; detections := detections m; processTime := processTime m;
     missRate := if (0 <? totalDetections')%Z
                 then IZR missedDetections' / IZR totalDetections' * 100
                 else 0;
     totalDetections := totalDetections';
     missedDetections := missedDetections';
     threshold := threshold m |}.

(** [reset()] *)
Definition reset (m : AIModel) : AIModel :=
  {| name := name m; detections := []; processTime := 0; missRate := 0;
     totalDetections := 0; missedDetections := 0; threshold := threshold m |}.

(** The state of the loop over the boxes: [this.detections], [detected]
    and the draws still to come. *)
Definition scoring := (list detection * Z * rng)%type.

(** The body of the loop of [BaselineModel._runDetection].  The second
    draw is taken only when the first test fails ([||] short-circuits). *)
Definition Baseline_score (th : R) (st : scoring) (b : box) : scoring :=
  let '(dets, detected, s) := st in
  let probability := 1.0 in
  let rotationFactor := Rabs (sin (rotation b * PI / 90)) * 0.5 in
  let probability := probability - rotationFactor in
  let scaleFactor := Rabs (scale b - 1.0) * 0.5 in
  let probability := probability - scaleFactor in
  let (u, s) := Math_random s in
  let noiseFactor := u * 0.2 in
  let probability := probability - noiseFactor in
  if Rlt_dec probability th then (dets, detected, s)
  else
    let (v, s) := Math_random s in
    if Rlt_dec v 0.1 then (dets, detected, s)
    else (dets ++ [Detection (Vec3 (x (position b)) (y (position b)) (z (position b)))
                             probability],
          (detected + 1)%Z, s).

(** The body of the loop of [QINAModel._runDetection]. *)
Definition QINA_score (th : R) (st : scoring) (b : box) : scoring :=
  let '(dets, detected, s) := st in
  let probability := 1.0 in
  let rotationFactor := Rabs (sin (rotation b * PI / 90)) * 0.2 in
  let probability := probability - rotationFactor in
  let scaleFactor := Rabs (scale b - 1.0) * 0.2 in
  let probability := probability - scaleFactor in
  let (u, s) := Math_random s in
  let noiseFactor := u * 0.1 in
  let probability := probability - noiseFactor in
  if Rlt_dec probability th then (dets, detected, s)
  else
    let (v, s) := Math_random s in
    if Rlt_dec v 0.02 then (dets, detected, s)
    else (dets ++ [Detection (Vec3 (x (position b)) (y (position b)) (z (position b)))
                             probability],
          (detected + 1)%Z, s).

Definition setDetections (dets : list detection) (m : AIModel) : AIModel :=
  {| name := name m; detections := dets; processTime := processTime m;
     missRate := missRate m; totalDetections := totalDetections m;
     missedDetections := missedDetections m; threshold := threshold m |}.

Definition setProcessTime (t : R) (m : AIModel) : AIModel :=
  {| name := name m; detections := detections m; processTime := t;
     missRate := missRate m; totalDetections := totalDetections m;
     missedDetections := missedDetections m; threshold := threshold m |}.

(** [BaselineModel._runDetection(visualData, boxes)] *)
Definition Baseline_runDetection (vd : visualData) (boxes : list box)
    (m : AIModel) (s : rng) : AIModel * rng :=
  let '(dets, detected, s') := foldl (Baseline_score (threshold m)) ([], 0%Z, s) boxes in
  (calculateMissRate detected (Z.of_nat (length boxes)) (setDetections dets m), s').

(** [_applyTensorNetwork(visualData)] *)
Definition applyTensorNetwork (vd : visualData) : visualData := vd.

(** [QINAModel._runDetection(visualData, boxes)]: the last statement
    scales the [processTime] that the model holds at that moment. *)
Definition QINA_runDetection (vd : visualData) (boxes : list box)
    (m : AIModel) (s : rng) : AIModel * rng :=
  let processedData := applyTensorNetwork vd in
  let '(dets, detected, s') := foldl (QINA_score (threshold m)) ([], 0%Z, s) boxes in
  let m' := calculateMissRate detected (Z.of_nat (length boxes)) (setDetections dets m) in
  (setProcessTime (processTime m' * 0.85) m', s').

(** The two subclasses; [runDetection] is the dispatch of
    [this._runDetection]. *)
Inductive variant := Baseline | QINA.

Definition runDetection (k : variant) :=
  match k with
  | Baseline => Baseline_runDetection
  | QINA => QINA_runDetection
  end.

Definition new (k : variant) : AIModel :=
  match k with
  | Baseline => BaselineModel_new
  | QINA => QINAModel_new
  end.

(** What [detect] returns. *)
Record result := { r_detections : list detection; r_processTime : R; r_missRate : R }.

(** [detect(visualData, boxes)]; [startTime] and [endTime] are the two
    readings of [performance.now()]. *)
Definition detect (k : variant) (startTime endTime : R) (vd : visualData)
    (boxes : list box) (m : AIModel) (s : rng) : result * AIModel * rng :=
  let (m1, s') := runDetection k vd boxes m s in
  let m2 := setProcessTime ((endTime - startTime) / 1000) m1 in
  ({| r_detections := detections m2; r_processTime := processTime m2;
      r_missRate := missRate m2 |}, m2, s').

End Models.

(** ** The motion controller ([Robot]) *)

Module Robot.
Import Models.
Local Open Scope R_scope.

Record Robot := {
  position : vec3;
  targetPosition : option vec3;
  path : list vec3;
  moving : bool;
  speed : R;
  rotationSpeed : R;
  currentRotation : R;
  targetRotation : R
}.

(** [constructor(x = 1, y = 0, z = 1)] *)
Definition new (x y z : R) : Robot :=
  {| position := Vec3 x y z; targetPosition := None; path := []; moving := false;
     speed := 1.0; rotationSpeed := 5.0; currentRotation := 0; targetRotation := 0 |}.

(** [Math.atan2(y, x)], on real numbers (no signed zeros). *)
Definition atan2 (y x : R) : R :=
  if Rlt_dec 0 x then atan (y / x)
  else if Rlt_dec x 0 then
    if Rle_dec 0 y then atan (y / x) + PI else atan (y / x) - PI
  else if Rlt_dec 0 y then PI / 2
  else if Rlt_dec y 0 then - (PI / 2)
  else 0.

(** [Math.sign(x)] *)
Definition sign (x : R) : R :=
  if Rlt_dec 0 x then 1 else if Rlt_dec x 0 then -1 else 0.

(** [Math.floor(x)] *)
Definition floor (x : R) : Z := Int_part x.

(** [while (d > Math.PI) d -= 2 * Math.PI], on fuel. *)
Fixpoint wrapDown (fuel : nat) (d : R) : R :=
  match fuel with
  | O => d
  | S fuel' => if Rlt_dec PI d then wrapDown fuel' (d - 2 * PI) else d
  end.

(** [while (d < -Math.PI) d += 2 * Math.PI], on fuel. *)
Fixpoint wrapUp (fuel : nat) (d : R) : R :=
  match fuel with
  | O => d
  | S fuel' => if Rlt_dec d (- PI) then wrapUp fuel' (d + 2 * PI) else d
  end.

(** The two normalisation loops of [update].  After [up (d / 2π)] rounds
    the first loop has brought [d] to [π] or below, and likewise for the
    second (see [wrapDown_done] and [wrapUp_done]). *)
Definition normalize (rotDiff : R) : R :=
  let d := wrapDown (Z.to_nat (up (rotDiff / (2 * PI)))) rotDiff in
  wrapUp (Z.to_nat (up (- d / (2 * PI)))) d.

(** [update(deltaTime)] *)
Definition update (deltaTime : R) (r : Robot) : Robot :=
  if moving r then
    match path r with
    | [] => r
    | nextPoint :: rest =>
        let dx := x nextPoint - x (position r) in
        let dz := z nextPoint - z (position r) in
        let distance := sqrt (dx * dx + dz * dz) in
        let targetRotation' := atan2 dz dx in
        let rotDiff := targetRotation' - currentRotation r in
        let normalizedRotDiff := normalize rotDiff in
        let rotStep := rotationSpeed r * deltaTime in
        let currentRotation' :=
          if Rlt_dec rotStep (Rabs normalizedRotDiff)
          then currentRotation r + sign normalizedRotDiff * rotStep
          else targetRotation' in
        if Rlt_dec (Rabs normalizedRotDiff) 0.1 then
          let step := speed r * deltaTime in
          if Rle_dec distance step then
            {| position := Vec3 (x nextPoint) (y nextPoint) (z nextPoint);
               targetPosition := targetPosition r;
               path := rest;
               moving := match rest with [] => false | _ :: _ => moving r end;
               speed := speed r; rotationSpeed := rotationSpeed r;
               currentRotation := currentRotation';
               targetRotation := targetRotation' |}
          else
            let moveRatio := step / distance in
            {| position := Vec3 (x (position r) + dx * moveRatio)
                                (y (position r))
                                (z (position r) + dz * moveRatio);
               targetPosition := targetPosition r;
               path := path r; moving := moving r;
               speed := speed r; rotationSpeed := rotationSpeed r;
               currentRotation := currentRotation';
               targetRotation := targetRotation' |}
        else
          {| position := position r; targetPosition := targetPosition r;
             path := path r; moving := moving r;
             speed := speed r; rotationSpeed := rotationSpeed r;
             currentRotation := currentRotation';
             targetRotation := targetRotation' |}
    end
  else r.

(** [reset(x = 1, y = 0, z = 1)] *)
Definition reset (x y z : R) (r : Robot) : Robot :=
  {| position := Vec3 x y z; targetPosition := None; path := []; moving := false;
     speed := speed r; rotationSpeed := rotationSpeed r;
     currentRotation := 0; targetRotation := 0 |}.

Definition waypoint (c : Planner.coord) : vec3 :=
  Vec3 (IZR (Planner.cx c)) (IZR (Planner.cy c)) (IZR (Planner.cz c)).

Definition cellOf (p : vec3) : Planner.coord :=
  Planner.Coord (floor (x p)) (floor (y p)) (floor (z p)).

(** [calculatePath(grid)] *)
Definition calculatePath (gr : Planner.grid) (r : Robot)
    : option (completion (list vec3)) :=
  match targetPosition r with
  | None => Some (Normal [])
  | Some target =>
      match Planner.findPath gr (cellOf (position r)) (cellOf target) with
      | Some (Normal p) => Some (Normal (waypoint <$> p))
      | Some (Throw e) => Some (Throw e)
      | None => None
      end
  end.

(** [setTarget(x, y, z, grid)] *)
Definition setTarget (tx ty tz : R) (gr : Planner.grid) (r : Robot)
    : option (completion Robot) :=
  let r1 := {| position := position r; targetPosition := Some (Vec3 tx ty tz);
               path := path r; moving := moving r;
               speed := speed r; rotationSpeed := rotationSpeed r;
               currentRotation := currentRotation r;
               targetRotation := targetRotation r |} in
  match calculatePath gr r1 with
  | Some (Normal p) =>
      Some (Normal {| position := position r1; targetPosition := targetPosition r1;
                      path := p; moving := bool_decide (0 < length p)%nat;
                      speed := speed r1; rotationSpeed := rotationSpeed r1;
                      currentRotation := currentRotation r1;
                      targetRotation := targetRotation r1 |})
  | Some (Throw e) => Some (Throw e)
  | None => None
  end.

(** [n] calls of [update] with the same [deltaTime]. *)
Fixpoint ticks (n : nat) (deltaTime : R) (r : Robot) : Robot :=
  match n with
  | O => r
  | S n' => ticks n' deltaTime (update deltaTime r)
  end.

End Robot.

(** ** The warehouse ([WarehouseEnvironment]) *)

Module Warehouse.
Import Models.
Local Open Scope R_scope.

(** A box of the warehouse is a [Models.box]: its [initialScale] is never
    read, and its mesh belongs to the renderer. *)
Record WarehouseEnvironment := {
  gridSize : nat;
  boxes : list box;
  grid : Planner.grid;
  lastBoxUpdateTime : R;
  updateInterval : R
}.

(** [constructor(gridSize = 10)] *)
Definition new (gridSize : nat) : WarehouseEnvironment :=
  {| gridSize := gridSize; boxes := []; grid := Planner.createEmptyGrid gridSize;
     lastBoxUpdateTime := 0; updateInterval := 3000 |}.

(** [x >= 0 && x < this.gridSize && y >= 0 && ...] *)
Definition inside (gridSize : nat) (c : Planner.coord) : bool :=
  (0 <=? Planner.cx c)%Z && (Planner.cx c <? Z.of_nat gridSize)%Z &&
  (0 <=? Planner.cy c)%Z && (Planner.cy c <? Z.of_nat gridSize)%Z &&
  (0 <=? Planner.cz c)%Z && (Planner.cz c <? Z.of_nat gridSize)%Z.

(** The JavaScript remainder [a % b]: the quotient is cut towards zero. *)
Definition trunc (q : R) : Z :=
  if Rle_dec 0 q then Robot.floor q else (- Robot.floor (- q))%Z.

Definition jsRem (a b : R) : R := a - b * IZR (trunc (a / b)).

(** The state of the loop of [updateBoxes]: the boxes already changed,
    the grid being rebuilt, and the draws still to come. *)
Definition rebuilding := (list box * Planner.grid * rng)%type.

(** The body of the loop of [updateBoxes]. *)
Definition updateBox (gridSize : nat) (st : rebuilding) (b : box) : rebuilding :=
  let '(changed, gr, s) := st in
  let rotation' := jsRem (rotation b + 45) 360 in
  let (u, s) := Math_random s in
  let scaleChange := if Rlt_dec 0.5 u then 0.1 else - 0.1 in
  let scale' := Rmin 1.5 (Rmax 0.5 (scale b + scaleChange)) in
  let c := Robot.cellOf (position b) in
  let gr' :=
    if inside gridSize c
    then Planner.setCell gr (Z.to_nat (Planner.cx c)) (Z.to_nat (Planner.cy c))
                         (Z.to_nat (Planner.cz c)) 1
    else gr in
  (changed ++ [Box (position b) rotation' scale'], gr', s).

(** [updateBoxes()] *)
Definition updateBoxes (w : WarehouseEnvironment) (s : rng)
    : WarehouseEnvironment * rng :=
  let '(changed, gr, s') :=
    foldl (updateBox (gridSize w)) ([], Planner.createEmptyGrid (gridSize w), s)
          (boxes w) in
  ({| gridSize := gridSize w; boxes := changed; grid := gr;
      lastBoxUpdateTime := lastBoxUpdateTime w;
      updateInterval := updateInterval w |}, s').

(** [update(deltaTime)], without the animation of the meshes;
    [currentTime] is the reading of [performance.now()]. *)
Definition update (currentTime : R) (w : WarehouseEnvironment) (s : rng)
    : WarehouseEnvironment * rng :=
  if Rlt_dec (updateInterval w) (currentTime - lastBoxUpdateTime w) then
    updateBoxes {| gridSize := gridSize w; boxes := boxes w; grid := grid w;
                   lastBoxUpdateTime := currentTime;
                   updateInterval := updateInterval w |} s
  else (w, s).

(** [array[i]] for a number [i] holding an integer: [undefined] below 0
    and from the length on. *)
Definition at_index {A} (l : list A) (i : Z) : option A :=
  if (i <? 0)%Z then None else l !! Z.to_nat i.

(** [row[z] = 1].  A negative index names a property, not an element;
    an index from the length on extends the array, and the holes it
    leaves (which read as [undefined], different from 1) are written 0. *)
Definition writeRow (row : list Z) (z : Z) : list Z :=
  if (z <? 0)%Z then row
  else if (z <? Z.of_nat (length row))%Z then <[Z.to_nat z := 1%Z]> row
  else row ++ replicate (Z.to_nat z - length row) 0%Z ++ [1%Z].

(** [this.grid[x][y][z] = 1] without a bounds check: reading a property
    of [undefined] throws. *)
Definition writeGrid (gr : Planner.grid) (c : Planner.coord)
    : completion Planner.grid :=
  match at_index gr (Planner.cx c) with
  | None => Throw "TypeError"
  | Some plane =>
      match at_index plane (Planner.cy c) with
      | None => Throw "TypeError"
      | Some row =>
          Normal (<[Z.to_nat (Planner.cx c) :=
                    <[Z.to_nat (Planner.cy c) := writeRow row (Planner.cz c)]> plane]> gr)
      end
  end.

(** [addBox(x, y, z, rotation, scale)]: the box is pushed before the grid
    is written, so it stays in [boxes] when the write throws. *)
Definition addBox (x y z rotation scale : R) (w : WarehouseEnvironment)
    : completion box * WarehouseEnvironment :=
  let b := Box (Vec3 x y z) rotation scale in
  let w1 := {| gridSize := gridSize w; boxes := boxes w ++ [b]; grid := grid w;
               lastBoxUpdateTime := lastBoxUpdateTime w;
               updateInterval := updateInterval w |} in
  match writeGrid (grid w) (Robot.cellOf (Vec3 x y z)) with
  | Throw e => (Throw e, w1)
  | Normal gr =>
      (Normal b, {| gridSize := gridSize w; boxes := boxes w ++ [b]; grid := gr;
                    lastBoxUpdateTime := lastBoxUpdateTime w;
                    updateInterval := updateInterval w |})
  end.

(** [initializeBoxes()]: the arguments of each call are drawn from left
    to right, rotation first. *)
Definition initializeBoxes (w : WarehouseEnvironment) (s : rng)
    : completion unit * WarehouseEnvironment * rng :=
  let (u1, s) := Math_random s in
  let (u2, s) := Math_random s in
  match addBox 8 0 8 (u1 * 360) (0.5 + u2) w with
  | (Throw e, w1) => (Throw e, w1, s)
  | (Normal _, w1) =>
      let (u3, s) := Math_random s in
      let (u4, s) := Math_random s in
      match addBox 5 0 3 (u3 * 360) (0.5 + u4) w1 with
      | (Throw e, w2) => (Throw e, w2, s)
      | (Normal _, w2) => (Normal (), w2, s)
      end
  end.

(** [reset()] *)
Definition reset (w : WarehouseEnvironment) (s : rng)
    : completion unit * WarehouseEnvironment * rng :=
  initializeBoxes {| gridSize := gridSize w; boxes := [];
                     grid := Planner.createEmptyGrid (gridSize w);
                     lastBoxUpdateTime := lastBoxUpdateTime w;
                     updateInterval := updateInterval w |} s.

(** The objects [getBoxPositions()] builds: the fields of a box, flat. *)
Record snapshot := Snapshot { sx : R; sy : R; sz : R; srotation : R; sscale : R }.

(** [getBoxPositions()] *)
Definition getBoxPositions (w : WarehouseEnvironment) : list snapshot :=
  (λ b, Snapshot (x (position b)) (y (position b)) (z (position b))
                 (rotation b) (scale b)) <$> boxes w.

(** [getFirstBoxPosition()]; [None] is [null]. *)
Definition getFirstBoxPosition (w : WarehouseEnvironment) : option Planner.coord :=
  match boxes w with
  | b :: _ => Some (Robot.cellOf (position b))
  | [] => None
  end.

End Warehouse.

(** ** The synthetic field ([VisualDataGenerator]) *)

Module Generator.
Import Models.
Local Open Scope R_scope.

(** What [generate] is handed: box objects, which have a [position], or
    the flat objects of [getBoxPositions], which have none. *)
Inductive entity :=
| BoxObject (b : box)
| Flat (f : Warehouse.snapshot).

(** [n] rounds of a loop that fills an array in index order. *)
Fixpoint fill {A} (n : nat) (item : rng → A * rng) (s : rng) : list A * rng :=
  match n with
  | O => ([], s)
  | S n' =>
      let (a, s1) := item s in
      let (l, s2) := fill n' item s1 in
      (a :: l, s2)
  end.

(** The three nested loops that write [Math.random() * 0.1] into every
    cell, x outermost. *)
Definition noise (gridSize : nat) (s : rng) : visualData * rng :=
  fill gridSize (fill gridSize (fill gridSize
    (λ s, let (u, s') := Math_random s in (u * 0.1, s')))) s.

(** [visualData[x][y][z] = v] for an index inside the cube. *)
Definition write (vd : visualData) (c : Planner.coord) (v : R) : visualData :=
  match vd !! Z.to_nat (Planner.cx c) with
  | None => vd
  | Some plane =>
      match plane !! Z.to_nat (Planner.cy c) with
      | None => vd
      | Some row =>
          <[Z.to_nat (Planner.cx c) :=
            <[Z.to_nat (Planner.cy c) := <[Z.to_nat (Planner.cz c) := v]> row]> plane]> vd
      end
  end.

(** The body of the loop over the boxes: [box.position.x] throws when
    the object has no [position]. *)
Definition paint (gridSize : nat) (vd : visualData) (e : entity)
    : completion visualData :=
  match e with
  | Flat _ => Throw "TypeError"
  | BoxObject b =>
      let c := Robot.cellOf (position b) in
      if Warehouse.inside gridSize c then
        let rotationFactor := 0.7 + 0.3 * Rabs (cos (rotation b * PI / 180)) in
        Normal (write vd c (0.7 + 0.3 * scale b * rotationFactor))
      else Normal vd
  end.

Fixpoint paintAll (gridSize : nat) (vd : visualData) (es : list entity)
    : completion visualData :=
  match es with
  | [] => Normal vd
  | e :: es' =>
      match paint gridSize vd e with
      | Throw name => Throw name
      | Normal vd' => paintAll gridSize vd' es'
      end
  end.

(** [generate(boxes)] *)
Definition generate (gridSize : nat) (es : list entity) (s : rng)
    : completion visualData * rng :=
  let (vd, s') := noise gridSize s in
  (paintAll gridSize vd es, s').

End Generator.

(** ** The application ([main.js]) *)

Module Main.
Import Models.
Local Open Scope R_scope.

Definition GRID_SIZE : nat := 10.

(** The globals of [main.js] that the simulation reads and writes; of
    [visualDataGenerator] only its [gridSize] is kept. *)
Record globals := {
  warehouse : Warehouse.WarehouseEnvironment;
  robot : Robot.Robot;
  baselineModel : AIModel;
  qinaModel : AIModel;
  visualDataGenerator : nat;
  activeModel : variant;
  runSimulation : bool
}.

(** [initializeModels()], with the draws of [warehouse.initialize]. *)
Definition initializeModels (s : rng) : completion globals * rng :=
  match Warehouse.initializeBoxes (Warehouse.new GRID_SIZE) s with
  | (Throw e, _, s') => (Throw e, s')
  | (Normal _, w, s') =>
      (Normal {| warehouse := w; robot := Robot.new 1 0 1;
                 baselineModel := BaselineModel_new; qinaModel := QINAModel_new;
                 visualDataGenerator := GRID_SIZE;
                 activeModel := QINA; runSimulation := true |}, s')
  end.

(** [activeModel = activeModel === "QINA" ? "Baseline" : "QINA"] *)
Definition toggleModel (g : globals) : globals :=
  {| warehouse := warehouse g; robot := robot g;
     baselineModel := baselineModel g; qinaModel := qinaModel g;
     visualDataGenerator := visualDataGenerator g;
     activeModel := match activeModel g with QINA => Baseline | Baseline => QINA end;
     runSimulation := runSimulation g |}.

(** [runSimulation = !runSimulation] *)
Definition togglePause (g : globals) : globals :=
  {| warehouse := warehouse g; robot := robot g;
     baselineModel := baselineModel g; qinaModel := qinaModel g;
     visualDataGenerator := visualDataGenerator g;
     activeModel := activeModel g;
     runSimulation := negb (runSimulation g) |}.

(** [resetSimulation()]: when [warehouse.reset()] throws, the three
    resets after it are not reached. *)
Definition resetSimulation (g : globals) (s : rng) : completion unit * globals * rng :=
  match Warehouse.reset (warehouse g) s with
  | (Throw e, w, s') =>
      (Throw e,
       {| warehouse := w; robot := robot g;
          baselineModel := baselineModel g; qinaModel := qinaModel g;
          visualDataGenerator := visualDataGenerator g;
          activeModel := activeModel g; runSimulation := runSimulation g |}, s')
  | (Normal _, w, s') =>
      (Normal (),
       {| warehouse := w; robot := Robot.reset 1 0 1 (robot g);
          baselineModel := Models.reset (baselineModel g);
          qinaModel := Models.reset (qinaModel g);
          visualDataGenerator := visualDataGenerator g;
          activeModel := activeModel g; runSimulation := runSimulation g |}, s')
  end.

(** [processVisualData()].  [t1] to [t4] are the readings of
    [performance.now()] in the two calls of [detect]; the writes to the
    page and the highlighting of the meshes are left out.  [None] only
    when the search of [setTarget] is cut short. *)
Definition processVisualData (t1 t2 t3 t4 : R) (g : globals) (s : rng)
    : option (completion unit * globals * rng) :=
  if negb (runSimulation g) then Some (Normal (), g, s)
  else
    match Generator.generate (visualDataGenerator g)
            (Generator.Flat <$> Warehouse.getBoxPositions (warehouse g)) s with
    | (Throw e, s1) => Some (Throw e, g, s1)
    | (Normal vd, s1) =>
        let '(baselineResults, bm, s2) :=
          detect Baseline t1 t2 vd (Warehouse.boxes (warehouse g)) (baselineModel g) s1 in
        let '(qinaResults, qm, s3) :=
          detect QINA t3 t4 vd (Warehouse.boxes (warehouse g)) (qinaModel g) s2 in
        let activeResults :=
          match activeModel g with QINA => qinaResults | Baseline => baselineResults end in
        let finish (c : completion unit) (r : Robot.Robot) :=
          (c, {| warehouse := warehouse g; robot := r;
                 baselineModel := bm; qinaModel := qm;
                 visualDataGenerator := visualDataGenerator g;
                 activeModel := activeModel g; runSimulation := runSimulation g |}, s3) in
        match r_detections activeResults with
        | firstDetection :: _ =>
            if Robot.moving (robot g) then Some (finish (Normal ()) (robot g))
            else
              match Robot.setTarget (x (dposition firstDetection))
                      (y (dposition firstDetection)) (z (dposition firstDetection))
                      (Warehouse.grid (warehouse g)) (robot g) with
              | Some (Normal r) => Some (finish (Normal ()) r)
              | Some (Throw e) =>
                  (* [targetPosition] was assigned before the planner threw *)
                  Some (finish (Throw e)
                    {| Robot.position := Robot.position (robot g);
                       Robot.targetPosition :=
                         Some (Vec3 (x (dposition firstDetection))
                                    (y (dposition firstDetection))
                                    (z (dposition firstDetection)));
                       Robot.path := Robot.path (robot g);
                       Robot.moving := Robot.moving (robot g);
                       Robot.speed := Robot.speed (robot g);
                       Robot.rotationSpeed := Robot.rotationSpeed (robot g);
                       Robot.currentRotation := Robot.currentRotation (robot g);
                       Robot.targetRotation := Robot.targetRotation (robot g) |})
              | None => None
              end
        | [] => Some (finish (Normal ()) (robot g))
        end
    end.

(** [Math.floor(time * 10) % 20 === 0] *)
Definition detectionDue (time : R) : bool :=
  (Z.rem (Robot.floor (time * 10)) 20 =? 0)%Z.

(** One call of [animate()], without the rendering.  [now] is the reading
    of [performance.now()] in [warehouse.update], [delta] and [time] are
    the readings of the clock. *)
Definition animate (now delta time t1 t2 t3 t4 : R) (g : globals) (s : rng)
    : option (completion unit * globals * rng) :=
  let (w, s1) := Warehouse.update now (warehouse g) s in
  let g1 := {| warehouse := w; robot := Robot.update delta (robot g);
               baselineModel := baselineModel g; qinaModel := qinaModel g;
               visualDataGenerator := visualDataGenerator g;
               activeModel := activeModel g; runSimulation := runSimulation g |} in
  if detectionDue time then processVisualData t1 t2 t3 t4 g1 s1
  else Some (Normal (), g1, s1).

(** What the browser runs after [init]: frames, clicks and keys. *)
Inductive event :=
| Frame (now delta time t1 t2 t3 t4 : R)
| ToggleModel
| ResetSimulation
| TogglePause.

Definition handle (e : event) (g : globals) (s : rng)
    : option (completion unit * globals * rng) :=
  match e with
  | Frame now delta time t1 t2 t3 t4 => animate now delta time t1 t2 t3 t4 g s
  | ToggleModel => Some (Normal (), toggleModel g, s)
  | ResetSimulation => Some (resetSimulation g s)
  | TogglePause => Some (Normal (), togglePause g, s)
  end.

(** An exception that leaves a handler ends that handler only: the
    globals keep what was written, and the next event is served. *)
Fixpoint run (es : list event) (g : globals) (s : rng) : option (globals * rng) :=
  match es with
  | [] => Some (g, s)
  | e :: es' =>
      match handle e g s with
      | Some (_, g', s') => run es' g' s'
      | None => None
      end
  end.

End Main.
(** * Facts about the planner *)

Module PlannerFacts.
Import Planner.
Local Open Scope Z_scope.

(** *** Sorting the open list *)

Lemma insert_by_f_perm n l : insert_by_f n l ≡ₚ n :: l.
Proof.
  induction l as [|m l IH]; simpl; [done|].
  destruct (nf n <=? nf m); [done|].
  rewrite IH. apply Permutation_swap.
Qed.

Lemma sort_by_f_perm l : sort_by_f l ≡ₚ l.
Proof.
  induction l as [|n l IH]; simpl; [done|].
  by rewrite insert_by_f_perm, IH.
Qed.

Lemma sort_by_f_head_min l c rest :
  sort_by_f l = c :: rest → ∀ m, m ∈ l → nf c <= nf m.
Proof.
  revert c rest. induction l as [|n l IH]; intros c rest Hs m Hm.
  { by apply elem_of_nil in Hm. }
  simpl in Hs. destruct (sort_by_f l) as [|m0 l0] eqn:Hl.
  - simpl in Hs. injection Hs as <- <-.
    pose proof (sort_by_f_perm l) as Hp. rewrite Hl in Hp.
    apply Permutation_nil_l in Hp. subst l.
    apply list_elem_of_singleton in Hm. subst m. lia.
  - simpl in Hs. apply elem_of_cons in Hm.
    destruct (Z.leb_spec (nf n) (nf m0)).
    + injection Hs as <- <-. destruct Hm as [->|Hm]; [lia|].
      specialize (IH m0 l0 eq_refl m Hm). lia.
    + injection Hs as <- <-. destruct Hm as [->|Hm]; [lia|].
      exact (IH m0 l0 eq_refl m Hm).
Qed.

(** *** Path reconstruction *)

Fixpoint reconstructPath_from_app (n : node) :
  ∀ path, reconstructPath_from n path = reconstructPath n ++ path.
Proof.
  destruct n as [x y z g h f [p|]]; intros path; unfold reconstructPath; simpl.
  - rewrite (reconstructPath_from_app p (Coord x y z :: path)).
    rewrite (reconstructPath_from_app p [Coord x y z]).
    by rewrite <- app_assoc.
  - done.
Qed.

Lemma reconstructPath_child x y z g h f p :
  reconstructPath (Node x y z g h f (Some p)) = reconstructPath p ++ [Coord x y z].
Proof. unfold reconstructPath at 1. simpl. apply reconstructPath_from_app. Qed.

(** *** One visit of a neighbour, in three exact forms *)

Lemma samePos_true c m : samePos c m = true ↔ pos m = c.
Proof.
  unfold samePos, pos. destruct c as [x y z]; simpl. split.
  - intros H. f_equal; lia.
  - intros [= -> -> ->]. lia.
Qed.

Lemma samePos_false c m : samePos c m = false ↔ pos m ≠ c.
Proof.
  rewrite <- samePos_true. destruct (samePos c m); split; congruence.
Qed.

Lemma findOpen_None c l : findOpen c l = None → c ∉ (pos <$> l).
Proof.
  unfold findOpen. induction l as [|m l IH]; intros H.
  - apply not_elem_of_nil.
  - simpl in H. destruct (samePos c m) eqn:E; [done|].
    apply samePos_false in E. rewrite fmap_cons, not_elem_of_cons.
    split; [congruence|auto].
Qed.

Lemma findOpen_Some c l m :
  findOpen c l = Some m →
  ∃ l1 l2, l = l1 ++ m :: l2 ∧ pos m = c ∧ (c ∉ pos <$> l1) ∧
    ∀ g cur, improve c g cur l =
      l1 ++ Node (nx m) (ny m) (nz m) g (nh m) (g + nh m) (Some cur) :: l2.
Proof.
  unfold findOpen. revert m. induction l as [|a l IH]; intros m H; [done|].
  simpl in H. destruct (samePos c a) eqn:E.
  - injection H as ->. exists [], l. pose proof E as E'. apply samePos_true in E'.
    split_and!; [done|done|apply not_elem_of_nil|].
    intros g cur. simpl. by rewrite E.
  - destruct (IH m H) as (l1 & l2 & -> & Hp & Hn & Hi).
    exists (a :: l1), l2. pose proof E as E'. apply samePos_false in E'.
    split_and!; [done|done| |].
    + rewrite fmap_cons, not_elem_of_cons. split; [congruence|done].
    + intros g cur. simpl. rewrite E. by rewrite Hi.
Qed.

Definition fresh (goal : coord) (current : node) (m : coord) : node :=
  Node (cx m) (cy m) (cz m) (ng current + 1) (heuristic m goal)
       (ng current + 1 + heuristic m goal) (Some current).

Definition improved (current : node) (old : node) : node :=
  Node (nx old) (ny old) (nz old) (ng current + 1) (nh old)
       (ng current + 1 + nh old) (Some current).

Inductive visited (goal : coord) (current : node) (closed : gset (Z * Z * Z))
    (O : list node) (m : coord) : list node → Prop :=
| visited_closed : key m ∈ closed → visited goal current closed O m O
| visited_kept old :
    key m ∉ closed → old ∈ O → pos old = m → ng old <= ng current + 1 →
    visited goal current closed O m O
| visited_new :
    key m ∉ closed → m ∉ (pos <$> O) →
    visited goal current closed O m (O ++ [fresh goal current m])
| visited_improved l1 old l2 :
    key m ∉ closed → O = l1 ++ old :: l2 → pos old = m →
    ng current + 1 < ng old →
    visited goal current closed O m (l1 ++ improved current old :: l2).

Lemma visit_visited goal current closed O m :
  visited goal current closed O m (visit goal current closed O m).
Proof.
  unfold visit. destruct (decide (key m ∈ closed)) as [Hc|Hc].
  { by apply visited_closed. }
  destruct (findOpen m O) as [old|] eqn:Hf.
  - destruct (findOpen_Some _ _ _ Hf) as (l1 & l2 & HO & Hp & _ & Hi).
    destruct (Z.ltb_spec (ng current + 1) (ng old)).
    + rewrite Hi. by eapply visited_improved.
    + eapply visited_kept; eauto. subst O. set_solver.
  - apply visited_new; [done|]. by apply findOpen_None.
Qed.

Lemma pos_improved current old : pos (improved current old) = pos old.
Proof. by destruct old. Qed.

Lemma pos_fresh goal current m : pos (fresh goal current m) = m.
Proof. by destruct m. Qed.

Lemma visited_pos goal current closed O m O' :
  visited goal current closed O m O' →
  (pos <$> O') = (pos <$> O) ∨
  ((key m ∉ closed) ∧ (m ∉ pos <$> O) ∧ (pos <$> O') = (pos <$> O) ++ [m]).
Proof.
  destruct 1 as [| | |l1 old l2 Hc -> Hp Hg]; auto.
  - right. rewrite fmap_app. simpl. by rewrite pos_fresh.
  - left. rewrite !fmap_app. simpl. by rewrite pos_improved.
Qed.

(** An invariant of the loop over the neighbours is an invariant of every
    visit. *)
Lemma foldl_visit_ind goal current closed (I : list node → list coord → Prop) O ns :
  I O [] →
  (∀ O' done m, I O' done → m ∈ ns →
     I (visit goal current closed O' m) (done ++ [m])) →
  I (foldl (visit goal current closed) O ns) ns.
Proof.
  induction ns as [|m ns IH] using rev_ind; intros H0 Hstep; [done|].
  rewrite foldl_app. simpl. apply Hstep; [|set_solver].
  apply IH; [done|]. intros O' done m' HI Hm'. apply Hstep; [done|set_solver].
Qed.

(** *** The neighbours of a cell *)

Definition shift (x y z : Z) (d : Z * Z * Z) : coord :=
  let '(dx, dy, dz) := d in Coord (x + dx) (y + dy) (z + dz).

Lemma getNeighbors_from_spec gr x y z dirs acc ns :
  getNeighbors_from gr x y z dirs acc = Normal ns →
  ∀ c, c ∈ ns ↔
    c ∈ acc ∨ ∃ d, d ∈ dirs ∧ c = shift x y z d ∧
                   inBounds gr c = true ∧ notObstacle gr c = Normal true.
Proof.
  revert acc. induction dirs as [|[[dx dy] dz] dirs IH]; intros acc H c.
  - simpl in H. injection H as ->. split; [auto|]. intros [?|(d & Hd & _)]; [done|].
    by apply elem_of_nil in Hd.
  - simpl in H. set (c0 := Coord (x + dx) (y + dy) (z + dz)) in *.
    assert (Hskip : ∀ acc', getNeighbors_from gr x y z dirs acc' = Normal ns →
              (c ∈ acc' ↔ c ∈ acc ∨ (c = c0 ∧ inBounds gr c = true ∧
                                       notObstacle gr c = Normal true)) →
              c ∈ ns ↔ c ∈ acc ∨ ∃ d, d ∈ (dx, dy, dz) :: dirs ∧ c = shift x y z d ∧
                   inBounds gr c = true ∧ notObstacle gr c = Normal true).
    { intros acc' H' Hacc. rewrite (IH acc' H' c), Hacc. split.
      - intros [[?|(-> & ? & ?)]|(d & Hd & ?)]; [by left| |].
        + right. exists (dx, dy, dz). split; [by left|done].
        + right. exists d. split; [by right|done].
      - intros [?|(d & Hd & Hc)]; [by left; left|].
        apply elem_of_cons in Hd as [->|Hd].
        + left; right. done.
        + right. by exists d. }
    destruct (inBounds gr c0) eqn:Hb.
    + destruct (notObstacle gr c0) as [[|]|e] eqn:Hn; [| |done].
      * apply (Hskip _ H). rewrite elem_of_app, list_elem_of_singleton.
        split; [intros [?| ->]; auto|]. intros [?|(-> & _)]; auto.
      * apply (Hskip _ H). split; [auto|]. intros [?|(-> & _ & ?)]; [done|congruence].
    + apply (Hskip _ H). split; [auto|]. intros [?|(-> & ? & _)]; [done|congruence].
Qed.

Lemma getNeighbors_from_total gr x y z dirs acc :
  (∀ c, inBounds gr c = true → ∃ b, notObstacle gr c = Normal b) →
  ∃ ns, getNeighbors_from gr x y z dirs acc = Normal ns.
Proof.
  intros Hwf. revert acc. induction dirs as [|[[dx dy] dz] dirs IH]; intros acc.
  - by eexists.
  - simpl. destruct (inBounds gr _) eqn:Hb; [|apply IH].
    destruct (Hwf _ Hb) as [b Hn]. rewrite Hn. destruct b; apply IH.
Qed.

(** A move of [getNeighbors]: one step along x or z, y unchanged. *)
Definition adjacent (a c : coord) : Prop :=
  cy c = cy a ∧ Z.abs (cx c - cx a) + Z.abs (cz c - cz a) = 1.

Lemma adjacent_shift a c :
  adjacent a c ↔ ∃ d, d ∈ directions ∧ c = shift (cx a) (cy a) (cz a) d.
Proof.
  destruct a as [x y z], c as [x' y' z']. unfold adjacent, directions. simpl. split.
  - intros [-> H].
    assert ((x' = x + 1 ∧ z' = z + 0) ∨ (x' = x + -1 ∧ z' = z + 0) ∨
            (x' = x + 0 ∧ z' = z + 1) ∨ (x' = x + 0 ∧ z' = z + -1))
      as [[-> ->]|[[-> ->]|[[-> ->]|[-> ->]]]] by lia.
    + exists (1, 0, 0). split; [set_solver|]. simpl. f_equal; lia.
    + exists (-1, 0, 0). split; [set_solver|]. simpl. f_equal; lia.
    + exists (0, 0, 1). split; [set_solver|]. simpl. f_equal; lia.
    + exists (0, 0, -1). split; [set_solver|]. simpl. f_equal; lia.
  - intros (d & Hd & Hc).
    repeat (apply elem_of_cons in Hd as [->|Hd]); [..|by apply elem_of_nil in Hd];
      simpl in Hc; injection Hc as -> -> ->; lia.
Qed.

Lemma getNeighbors_spec gr n ns :
  getNeighbors gr (nx n) (ny n) (nz n) = Normal ns →
  ∀ c, c ∈ ns ↔
    adjacent (pos n) c ∧ inBounds gr c = true ∧ notObstacle gr c = Normal true.
Proof.
  intros H c. rewrite (getNeighbors_from_spec _ _ _ _ _ _ _ H c), adjacent_shift.
  simpl. split.
  - intros [Hn|(d & ? & ? & ? & ?)]; [by apply elem_of_nil in Hn|]. eauto.
  - intros ((d & ? & ?) & ? & ?). right. eauto.
Qed.

Lemma wellFormed_notObstacle gr c :
  wellFormed gr = true → inBounds gr c = true →
  ∃ v, cell gr c = Some v ∧ notObstacle gr c = Normal (negb (v =? 1)).
Proof.
  unfold wellFormed, inBounds, gridSize, cell, notObstacle. intros Hwf Hb.
  rewrite forallb_forall in Hwf.
  destruct (lookup_lt_is_Some_2 gr (Z.to_nat (cx c))) as [plane Hp]; [lia|].
  rewrite Hp. simpl.
  specialize (Hwf plane). rewrite <- list_elem_of_In in Hwf.
  specialize (Hwf (list_elem_of_lookup_2 _ _ _ Hp)).
  apply andb_true_iff in Hwf as [Hlen Hrows]. rewrite forallb_forall in Hrows.
  destruct (lookup_lt_is_Some_2 plane (Z.to_nat (cy c))) as [row Hr]; [lia|].
  rewrite Hr. simpl.
  specialize (Hrows row). rewrite <- list_elem_of_In in Hrows.
  specialize (Hrows (list_elem_of_lookup_2 _ _ _ Hr)).
  destruct (lookup_lt_is_Some_2 row (Z.to_nat (cz c))) as [v Hv]; [lia|].
  rewrite Hv. by exists v.
Qed.

Lemma wellFormed_getNeighbors gr x y z :
  wellFormed gr = true → ∃ ns, getNeighbors gr x y z = Normal ns.
Proof.
  intros Hwf. apply getNeighbors_from_total. intros c Hb.
  destruct (wellFormed_notObstacle gr c Hwf Hb) as (v & _ & ->). by eexists.
Qed.

(** *** What every search maintains, on any grid *)

Lemma key_inj a b : key a = key b → a = b.
Proof. destruct a, b. unfold key. simpl. by intros [= -> -> ->]. Qed.

(** All the keys a search can ever close: the start and the cells. *)
Definition cube (n : nat) : list (Z * Z * Z) :=
  list_prod (list_prod (seqZ 0 (Z.of_nat n)) (seqZ 0 (Z.of_nat n)))
            (seqZ 0 (Z.of_nat n)).

Definition universe (gr : grid) (start : coord) : gset (Z * Z * Z) :=
  {[key start]} ∪ list_to_set (cube (length gr)).

Lemma size_list_to_set_le (l : list (Z * Z * Z)) :
  (size (list_to_set l : gset (Z * Z * Z)) ≤ length l)%nat.
Proof.
  induction l as [|a l IH].
  - rewrite list_to_set_nil, size_empty. simpl. lia.
  - rewrite list_to_set_cons. simpl length.
    destruct (decide (a ∈ (list_to_set l : gset (Z * Z * Z)))) as [Hin|Hin].
    + rewrite (subseteq_union_1_L {[a]}) by (by apply singleton_subseteq_l). lia.
    + rewrite size_union by set_solver. rewrite size_singleton. lia.
Qed.

Lemma size_universe gr start :
  (size (universe gr start) < enough gr)%nat.
Proof.
  unfold universe, enough.
  pose proof (size_list_to_set_le (cube (length gr))) as Hc.
  unfold cube in Hc. rewrite !length_prod, !length_seqZ in Hc.
  rewrite !Nat2Z.id in Hc.
  assert (size ({[key start]} ∪ (list_to_set (cube (length gr)) : gset (Z * Z * Z)))
          ≤ 1 + size (list_to_set (cube (length gr)) : gset (Z * Z * Z)))%nat.
  { destruct (decide (key start ∈ (list_to_set (cube (length gr)) : gset (Z * Z * Z)))).
    - rewrite (subseteq_union_1_L {[key start]})
        by (by apply singleton_subseteq_l). lia.
    - rewrite size_union by set_solver. rewrite size_singleton. lia. }
  unfold cube in *. lia.
Qed.

Lemma inBounds_universe gr start c :
  inBounds gr c = true → key c ∈ universe gr start.
Proof.
  unfold inBounds, gridSize, universe, cube, key. intros Hb.
  apply elem_of_union_r, elem_of_list_to_set.
  rewrite <- !list_cprod_list_prod, !list_elem_of_cprod. simpl.
  rewrite !elem_of_seqZ. lia.
Qed.

Section Search.
Variables (gr : grid) (start goal : coord).

(** Positions that can enter the open list. *)
Definition cand (c : coord) : Prop :=
  c = start ∨ (inBounds gr c = true ∧ notObstacle gr c = Normal true).

Definition openInv (O : list node) (C : gset (Z * Z * Z)) : Prop :=
  NoDup (pos <$> O) ∧
  Forall (λ p, (key p ∉ C) ∧ cand p) (pos <$> O) ∧
  C ⊆ universe gr start.

Lemma cand_universe c : cand c → key c ∈ universe gr start.
Proof.
  intros [->|[Hb _]]; [unfold universe; set_solver|by apply inBounds_universe].
Qed.

Lemma openInv_step O C c rest ns :
  openInv O C →
  sort_by_f O = c :: rest →
  getNeighbors gr (nx c) (ny c) (nz c) = Normal ns →
  (key (pos c) ∉ C) ∧ cand (pos c) ∧
  openInv (foldl (visit goal c ({[key (pos c)]} ∪ C)) rest ns)
          ({[key (pos c)]} ∪ C).
Proof.
  intros (Hnd & Hall & Hsub) Hsort Hns.
  pose proof (sort_by_f_perm O) as Hperm. rewrite Hsort in Hperm.
  rewrite <- Hperm in Hnd, Hall. rewrite fmap_cons in Hnd, Hall.
  apply NoDup_cons in Hnd as [Hc Hnd]. apply Forall_cons in Hall as [[HcC Hcc] Hall].
  split_and!; [done|done|].
  set (C' := {[key (pos c)]} ∪ C).
  apply (foldl_visit_ind goal c C'
           (λ O' _, openInv O' C')).
  - split_and!; [done| |].
    + rewrite Forall_forall in Hall |- *. intros p Hp. destruct (Hall p Hp) as [? ?].
      split; [|done]. unfold C'. rewrite not_elem_of_union, not_elem_of_singleton.
      split; [|done]. intros Hk. apply key_inj in Hk. by subst p.
    + unfold C'. apply union_subseteq. split; [|done].
      apply singleton_subseteq_l. by apply cand_universe.
  - intros O' done m (Hnd' & Hall' & Hsub') Hm.
    apply (getNeighbors_spec _ _ _ Hns) in Hm as (_ & Hb & Hfree).
    unfold openInv.
    destruct (visited_pos _ _ _ _ _ _ (visit_visited goal c C' O' m))
      as [Heq|(HmC & Hmn & Heq)]; rewrite Heq; split_and!; try done.
    + apply NoDup_app. split_and!; [done| |apply NoDup_singleton].
      intros p Hp Hp'. apply list_elem_of_singleton in Hp'. by subst p.
    + apply Forall_app. split; [done|]. apply Forall_singleton.
      split; [done|]. right. done.
Qed.

(** The loop ends: every round closes a new key of the universe. *)
Lemma search_terminates fuel : ∀ O C,
  openInv O C →
  (size (universe gr start) < fuel + size C)%nat →
  ∃ r, search gr goal fuel O C = Some r.
Proof.
  induction fuel as [|fuel IH]; intros O C Hinv Hsz.
  - destruct Hinv as (_ & _ & Hsub). apply subseteq_size in Hsub. lia.
  - simpl. destruct (sort_by_f O) as [|c rest] eqn:Hsort; [by eexists|].
    destruct (decide (pos c = goal)); [by eexists|].
    destruct (getNeighbors gr (nx c) (ny c) (nz c)) as [ns|e] eqn:Hns;
      [|by eexists].
    destruct (openInv_step _ _ _ _ _ Hinv Hsort Hns) as (HcC & _ & Hinv').
    apply IH; [done|]. rewrite size_union by set_solver.
    rewrite size_singleton. lia.
Qed.

(** A goal that cannot enter the open list is never reached. *)
Lemma search_unreachable fuel : ∀ O C r,
  openInv O C → ¬ cand goal →
  search gr goal fuel O C = Some r →
  r = Normal [] ∨ ∃ e, r = Throw e.
Proof.
  induction fuel as [|fuel IH]; intros O C r Hinv Hgoal Hr; [done|].
  simpl in Hr. destruct (sort_by_f O) as [|c rest] eqn:Hsort.
  { injection Hr as <-. by left. }
  destruct (getNeighbors gr (nx c) (ny c) (nz c)) as [ns|e] eqn:Hns.
  - destruct (openInv_step _ _ _ _ _ Hinv Hsort Hns) as (_ & Hcc & Hinv').
    destruct (decide (pos c = goal)) as [Heq|_]; [by rewrite Heq in Hcc|].
    by eapply IH.
  - destruct (decide (pos c = goal)) as [Heq|_].
    + destruct Hinv as (_ & Hall & _).
      pose proof (sort_by_f_perm O) as Hperm. rewrite Hsort in Hperm.
      rewrite <- Hperm, fmap_cons in Hall. apply Forall_cons in Hall as [[_ Hcc] _].
      by rewrite Heq in Hcc.
    + injection Hr as <-. right. by eexists.
Qed.

Lemma search_wellFormed fuel : ∀ O C e,
  wellFormed gr = true → search gr goal fuel O C ≠ Some (Throw e).
Proof.
  induction fuel as [|fuel IH]; intros O C e Hwf; [done|].
  simpl. destruct (sort_by_f O) as [|c rest]; [done|].
  destruct (decide (pos c = goal)); [done|].
  destruct (wellFormed_getNeighbors gr (nx c) (ny c) (nz c) Hwf) as [ns ->].
  by apply IH.
Qed.

Lemma openInv_init :
  openInv [Node (cx start) (cy start) (cz start) 0
                (heuristic start goal) (heuristic start goal) None] ∅.
Proof.
  split_and!.
  - apply NoDup_singleton.
  - apply Forall_singleton. split; [set_solver|]. left. by destruct start.
  - set_solver.
Qed.
End Search.

(** [findPath] always comes back, whatever the grid and the coordinates. *)
Lemma findPath_terminates gr start goal :
  ∃ r, findPath gr start goal = Some r.
Proof.
  unfold findPath. destruct (decide (start = goal)); [by eexists|].
  apply (search_terminates gr start); [apply openInv_init|].
  rewrite size_empty. pose proof (size_universe gr start). lia.
Qed.

(** *** Optimality on a grid without obstacles *)

Lemma abs_triangle a b c : Z.abs (a - c) <= Z.abs (a - b) + Z.abs (b - c).
Proof. lia. Qed.

Lemma abs_comm a b : Z.abs (a - b) = Z.abs (b - a).
Proof. lia. Qed.

(** Turn the absolute values of the context into atoms for [lia]. *)
Ltac hide_abs :=
  repeat match goal with
  | H : context [Z.abs ?x] |- _ =>
      let a := fresh "a" in set (a := Z.abs x) in *; clearbody a
  | |- context [Z.abs ?x] =>
      let a := fresh "a" in set (a := Z.abs x) in *; clearbody a
  end.

Section Optimal.
Variables (gr : grid) (start goal : coord).
Hypothesis Hfree : ∀ c, inBounds gr c = true → notObstacle gr c = Normal true.
Hypothesis Hstart : inBounds gr start = true.
Hypothesis Hgoal : inBounds gr goal = true.
Hypothesis Hy : cy start = cy goal.

(** Cells on some shortest way from the start to the goal. *)
Definition onway (c : coord) : Prop :=
  cy c = cy start ∧ heuristic start c + heuristic c goal = heuristic start goal.

Definition wf (n : node) : Prop :=
  cy (pos n) = cy start ∧ inBounds gr (pos n) = true ∧
  nh n = heuristic (pos n) goal ∧ nf n = ng n + nh n ∧
  heuristic start (pos n) <= ng n ∧
  Z.of_nat (length (reconstructPath n)) = ng n.

(** A cell is settled when it is closed, or open with its final cost. *)
Definition settled (O : list node) (C : gset (Z * Z * Z)) (m : coord) : Prop :=
  key m ∈ C ∨ ∃ n, n ∈ O ∧ pos n = m ∧ ng n = heuristic start m.

Definition forward (c m : coord) : Prop :=
  onway c ∧ onway m ∧ adjacent c m ∧ heuristic start m = heuristic start c + 1.

(** [D] holds the closed keys whose neighbours have all been visited. *)
Record optInv (O : list node) (C D : gset (Z * Z * Z)) : Prop := {
  inv_wf : ∀ n, n ∈ O → wf n;
  inv_nodup : NoDup (pos <$> O);
  inv_open : ∀ n, n ∈ O → key (pos n) ∉ C;
  inv_start : settled O C start;
  inv_frontier : ∀ c m, key c ∈ D → forward c m → settled O C m;
  inv_goal : key goal ∉ C
}.

Lemma onway_inBounds c : onway c → inBounds gr c = true.
Proof.
  unfold onway, inBounds, heuristic in *. lia.
Qed.

Lemma planar a b :
  cy a = cy b → heuristic a b = Z.abs (cx a - cx b) + Z.abs (cz a - cz b).
Proof. unfold heuristic. intros ->. lia. Qed.

(** A cell of the way other than the start has a predecessor on the way. *)
Lemma pred_onway m :
  onway m → 0 < heuristic start m →
  ∃ p, forward p m ∧ Z.to_nat (heuristic start m) = S (Z.to_nat (heuristic start p)).
Proof.
  intros [Hmy Hm] Hpos.
  assert (Hmg : cy m = cy goal) by congruence.
  assert (Hsm : cy start = cy m) by congruence.
  rewrite (planar start m), (planar m goal), (planar start goal) in Hm by done.
  rewrite (planar start m) in * by done.
  assert (Hx : Z.abs (cx start - cx m) + Z.abs (cx m - cx goal)
               = Z.abs (cx start - cx goal)) by (clear -Hm; lia).
  assert (Hz : Z.abs (cz start - cz m) + Z.abs (cz m - cz goal)
               = Z.abs (cz start - cz goal)) by (clear -Hm; lia).
  assert (Hcases : cx start < cx m ∨ cx m < cx start ∨
                   (cx m = cx start ∧ cz start < cz m) ∨
                   (cx m = cx start ∧ cz m < cz start)) by (clear -Hpos; lia).
  assert (Hgen : ∀ p, cy p = cy m →
            Z.abs (cx start - cx p) + Z.abs (cx p - cx goal)
              = Z.abs (cx start - cx goal) →
            Z.abs (cz start - cz p) + Z.abs (cz p - cz goal)
              = Z.abs (cz start - cz goal) →
            Z.abs (cx m - cx p) + Z.abs (cz m - cz p) = 1 →
            Z.abs (cx start - cx m) + Z.abs (cz start - cz m)
              = Z.abs (cx start - cx p) + Z.abs (cz start - cz p) + 1 →
            forward p m ∧
            Z.to_nat (Z.abs (cx start - cx m) + Z.abs (cz start - cz m))
              = S (Z.to_nat (heuristic start p))).
  { intros p Hpy Hpx Hpz Hadj Hstep. unfold forward, onway, adjacent.
    rewrite (planar start m), (planar m goal), (planar start goal),
      (planar start p), (planar p goal) by congruence.
    split_and!; [congruence| |done|done|congruence|done|done|].
    - clear -Hpx Hpz. lia.
    - clear -Hstep. lia. }
  destruct Hcases as [H|[H|[[H1 H2]|[H1 H2]]]].
  - exists (Coord (cx m - 1) (cy m) (cz m)).
    apply Hgen; simpl; [done|clear -Hx H; lia|done|lia|clear -H; lia].
  - exists (Coord (cx m + 1) (cy m) (cz m)).
    apply Hgen; simpl; [done|clear -Hx H; lia|done|lia|clear -H; lia].
  - exists (Coord (cx m) (cy m) (cz m - 1)).
    apply Hgen; simpl; [done|done|clear -Hz H2; lia|lia|clear -H2; lia].
  - exists (Coord (cx m) (cy m) (cz m + 1)).
    apply Hgen; simpl; [done|done|clear -Hz H2; lia|lia|clear -H2; lia].
Qed.

(** Before the goal is closed, some open node on the way to any unclosed
    cell of the way already has its final cost. *)
Lemma frontier O C :
  optInv O C C → ∀ (d : nat) m,
  Z.to_nat (heuristic start m) = d → onway m → (key m ∉ C) →
  ∃ n, n ∈ O ∧ ng n = heuristic start (pos n) ∧ cy (pos n) = cy start ∧
       heuristic start (pos n) + heuristic (pos n) m = heuristic start m.
Proof.
  intros Hinv. induction d as [|d IH]; intros m Hd Hm HmC.
  - assert (m = start) as ->.
    { clear -Hd Hm. unfold onway, heuristic in *.
      destruct m as [x y z], start as [sx sy sz]. simpl in *. f_equal; lia. }
    destruct (inv_start _ _ _ Hinv) as [?|(n & Hn & Hp & Hg)]; [done|].
    exists n. rewrite Hp. split_and!; [done|done|done|].
    clear. unfold heuristic. lia.
  - destruct (pred_onway m) as (p & Hfw & Hpd); [done|lia|].
    rewrite Hd in Hpd. assert (Z.to_nat (heuristic start p) = d) as Hpd' by lia.
    destruct (decide (key p ∈ C)) as [HpC|HpC].
    + destruct (inv_frontier _ _ _ Hinv p m HpC Hfw) as [?|(n & Hn & Hp & Hg)];
        [done|].
      exists n. rewrite Hp. destruct Hm as [Hmy _]. split_and!; [done|done|done|].
      clear. unfold heuristic. lia.
    + destruct Hfw as (Hp & _ & Hadj & Hstep).
      destruct (IH p Hpd' Hp HpC) as (n & Hn & Hg & Hny & Hbetween).
      exists n. split_and!; [done|done|done|].
      destruct Hm as [Hmy _], Hp as [Hpy _].
      rewrite (planar start (pos n)), (planar (pos n) m), (planar start m),
        (planar start p), (planar (pos n) p) in * by congruence.
      destruct Hadj as [_ Hadj].
      pose proof (abs_triangle (cx start) (cx (pos n)) (cx m)) as T1.
      pose proof (abs_triangle (cz start) (cz (pos n)) (cz m)) as T2.
      pose proof (abs_triangle (cx (pos n)) (cx p) (cx m)) as T3.
      pose proof (abs_triangle (cz (pos n)) (cz p) (cz m)) as T4.
      rewrite (abs_comm (cx p) (cx m)) in T3.
      rewrite (abs_comm (cz p) (cz m)) in T4.
      clear -Hbetween Hstep Hadj T1 T2 T3 T4. hide_abs. lia.
Qed.

Lemma settled_keep O O' C C' m :
  settled O C m → C ⊆ C' →
  (∀ n, n ∈ O → ng n = heuristic start (pos n) → n ∈ O' ∨ key (pos n) ∈ C') →
  settled O' C' m.
Proof.
  intros [HC|(n & Hn & Hp & Hg)] Hsub Hkeep; [left; set_solver|].
  destruct (Hkeep n Hn) as [?|?]; [by rewrite Hp| |].
  - right. by exists n.
  - left. by rewrite <- Hp.
Qed.

Lemma heuristic_adjacent a c m :
  cy a = cy c → adjacent c m → heuristic a m <= heuristic a c + 1.
Proof.
  intros Hac [Hcm Hadj]. rewrite (planar a m), (planar a c) by congruence.
  pose proof (abs_triangle (cx a) (cx c) (cx m)) as T1.
  pose proof (abs_triangle (cz a) (cz c) (cz m)) as T2.
  rewrite (abs_comm (cx c) (cx m)) in T1. rewrite (abs_comm (cz c) (cz m)) in T2.
  clear -Hadj T1 T2. hide_abs. lia.
Qed.

Lemma heuristic_triangle a b c :
  heuristic a c <= heuristic a b + heuristic b c.
Proof.
  unfold heuristic.
  pose proof (abs_triangle (cx a) (cx b) (cx c)).
  pose proof (abs_triangle (cy a) (cy b) (cy c)).
  pose proof (abs_triangle (cz a) (cz b) (cz c)).
  hide_abs. lia.
Qed.

Section Round.
Variables (c : node) (C' : gset (Z * Z * Z)).
Hypothesis Hc : wf c.

Lemma wf_fresh m :
  adjacent (pos c) m → inBounds gr m = true → wf (fresh goal c m).
Proof.
  intros Hadj Hb. destruct Hc as (Hcy & _ & _ & _ & Hlow & Hlen).
  unfold wf. rewrite pos_fresh. split_and!.
  - destruct Hadj. congruence.
  - done.
  - by destruct m.
  - by destruct m.
  - pose proof (heuristic_adjacent start (pos c) m (eq_sym Hcy) Hadj).
    unfold fresh. simpl. lia.
  - unfold fresh. rewrite reconstructPath_child, length_app. simpl. lia.
Qed.

Lemma wf_improved old :
  wf old → adjacent (pos c) (pos old) → wf (improved c old).
Proof.
  intros (Hoy & Hob & Hoh & _ & _ & _) Hadj.
  destruct Hc as (Hcy & _ & _ & _ & Hlow & Hlen).
  unfold wf. rewrite pos_improved. split_and!; [done|done| | | |].
  - by destruct old.
  - by destruct old.
  - pose proof (heuristic_adjacent start (pos c) (pos old) (eq_sym Hcy) Hadj).
    unfold improved. simpl. lia.
  - unfold improved. rewrite reconstructPath_child, length_app. simpl. lia.
Qed.

Lemma visit_optInv O D m :
  adjacent (pos c) m → inBounds gr m = true →
  optInv O C' D → optInv (visit goal c C' O m) C' D.
Proof.
  intros Hadj Hb Hinv. pose proof (visit_visited goal c C' O m) as Hv.
  revert Hv. generalize (visit goal c C' O m). intros O' Hv.
  destruct Hv as [HmC|old HmC Hold Hp Hg|HmC Hnew|l1 old l2 HmC -> Hp Hg];
    [done|done| |].
  - split.
    + intros n Hn. apply elem_of_app in Hn as [Hn|Hn].
      * by apply (inv_wf _ _ _ Hinv).
      * apply list_elem_of_singleton in Hn as ->. by apply wf_fresh.
    + rewrite fmap_app. apply NoDup_app. split_and!.
      * apply (inv_nodup _ _ _ Hinv).
      * intros p Hp Hp'. simpl in Hp'. apply list_elem_of_singleton in Hp'.
        rewrite pos_fresh in Hp'. by subst p.
      * apply NoDup_singleton.
    + intros n Hn. apply elem_of_app in Hn as [Hn|Hn].
      * by apply (inv_open _ _ _ Hinv).
      * apply list_elem_of_singleton in Hn as ->. by rewrite pos_fresh.
    + apply (settled_keep O _ C'); [apply (inv_start _ _ _ Hinv)|done|].
      intros n Hn _. left. set_solver.
    + intros c0 m0 Hc0 Hfw.
      apply (settled_keep O _ C'); [by apply (inv_frontier _ _ _ Hinv c0)|done|].
      intros n Hn _. left. set_solver.
    + apply (inv_goal _ _ _ Hinv).
  - assert (Hold : old ∈ l1 ++ old :: l2) by set_solver.
    assert (Hkeep : ∀ n, n ∈ l1 ++ old :: l2 → ng n = heuristic start (pos n) →
              n ∈ l1 ++ improved c old :: l2 ∨ key (pos n) ∈ C').
    { intros n Hn Hopt. left.
      apply elem_of_app in Hn as [Hn|Hn]; [set_solver|].
      apply elem_of_cons in Hn as [->|Hn]; [|set_solver].
      exfalso. rewrite <- Hp in Hadj.
      destruct Hc as (Hcy & _ & _ & _ & Hlow & _).
      pose proof (heuristic_adjacent start (pos c) (pos old) (eq_sym Hcy) Hadj).
      lia. }
    split.
    + intros n Hn. apply elem_of_app in Hn as [Hn|Hn].
      * apply (inv_wf _ _ _ Hinv). set_solver.
      * apply elem_of_cons in Hn as [->|Hn].
        -- apply wf_improved; [by apply (inv_wf _ _ _ Hinv)|by rewrite Hp].
        -- apply (inv_wf _ _ _ Hinv). set_solver.
    + pose proof (inv_nodup _ _ _ Hinv) as Hnd.
      rewrite fmap_app, fmap_cons in Hnd |- *. by rewrite pos_improved.
    + intros n Hn. apply elem_of_app in Hn as [Hn|Hn].
      * apply (inv_open _ _ _ Hinv). set_solver.
      * apply elem_of_cons in Hn as [->|Hn].
        -- rewrite pos_improved. by apply (inv_open _ _ _ Hinv).
        -- apply (inv_open _ _ _ Hinv). set_solver.
    + by apply (settled_keep (l1 ++ old :: l2) _ C');
        [apply (inv_start _ _ _ Hinv)| |].
    + intros c0 m0 Hc0 Hfw.
      by apply (settled_keep (l1 ++ old :: l2) _ C');
        [apply (inv_frontier _ _ _ Hinv c0)| |].
    + apply (inv_goal _ _ _ Hinv).
Qed.

(** After its visit a neighbour is closed or open at cost [g + 1] or
    better, and stays so. *)
Definition reached (O : list node) (m : coord) : Prop :=
  key m ∈ C' ∨ ∃ n, n ∈ O ∧ pos n = m ∧ ng n <= ng c + 1.

Lemma visit_reaches O m : reached (visit goal c C' O m) m.
Proof using Type.
  clear Hc Hfree Hstart Hgoal Hy.
  pose proof (visit_visited goal c C' O m) as Hv.
  revert Hv. generalize (visit goal c C' O m). intros O' Hv.
  destruct Hv as [HmC|old HmC Hold Hp Hg|HmC Hnew|l1 old l2 HmC -> Hp Hg].
  - by left.
  - right. by exists old.
  - right. exists (fresh goal c m). rewrite pos_fresh.
    split_and!; [set_solver|done|]. unfold fresh. simpl. lia.
  - right. exists (improved c old). rewrite pos_improved.
    split_and!; [set_solver|done|]. unfold improved. simpl. lia.
Qed.

Lemma visit_reached O m m0 : reached O m0 → reached (visit goal c C' O m) m0.
Proof using Type.
  clear Hc Hfree Hstart Hgoal Hy.
  intros [?|(n & Hn & Hpn & Hgn)]; [by left|]. right.
  pose proof (visit_visited goal c C' O m) as Hv.
  revert Hv. generalize (visit goal c C' O m). intros O' Hv.
  destruct Hv as [HmC|old HmC Hold Hp Hg|HmC Hnew|l1 old l2 HmC -> Hp Hg].
  - by exists n.
  - by exists n.
  - exists n. split; [set_solver|done].
  - apply elem_of_app in Hn as [Hn|Hn]; [exists n; split; [set_solver|done]|].
    apply elem_of_cons in Hn as [->|Hn]; [|exists n; split; [set_solver|done]].
    exists (improved c old). rewrite pos_improved.
    split_and!; [set_solver|done|]. unfold improved. simpl. lia.
Qed.
End Round.

Lemma pop_optInv O C c rest :
  optInv O C C → O ≡ₚ c :: rest → pos c ≠ goal →
  optInv rest ({[key (pos c)]} ∪ C) C.
Proof.
  intros Hinv Hperm Hne.
  pose proof (inv_nodup _ _ _ Hinv) as Hnd.
  rewrite Hperm, fmap_cons in Hnd. apply NoDup_cons in Hnd as [Hcr Hnd].
  assert (Hkeep : ∀ n, n ∈ O → ng n = heuristic start (pos n) →
            n ∈ rest ∨ key (pos n) ∈ {[key (pos c)]} ∪ C).
  { intros n Hn _. rewrite Hperm in Hn. apply elem_of_cons in Hn as [->|Hn].
    - right. set_solver.
    - by left. }
  split.
  - intros n Hn. apply (inv_wf _ _ _ Hinv). rewrite Hperm. set_solver.
  - done.
  - intros n Hn. rewrite not_elem_of_union, not_elem_of_singleton. split.
    + intros Hk. apply key_inj in Hk. apply Hcr. rewrite <- Hk.
      by apply list_elem_of_fmap_2.
    + apply (inv_open _ _ _ Hinv). rewrite Hperm. set_solver.
  - apply (settled_keep O _ C); [apply (inv_start _ _ _ Hinv)|set_solver|done].
  - intros c0 m0 Hc0 Hfw.
    apply (settled_keep O _ C);
      [by apply (inv_frontier _ _ _ Hinv c0)|set_solver|done].
  - rewrite not_elem_of_union, not_elem_of_singleton. split.
    + intros Hk. apply key_inj in Hk. congruence.
    + apply (inv_goal _ _ _ Hinv).
Qed.

Lemma onway_goal : onway goal.
Proof. unfold onway, heuristic. lia. Qed.

Lemma free_getNeighbors x y z : ∃ ns, getNeighbors gr x y z = Normal ns.
Proof.
  apply getNeighbors_from_total. intros c Hb. exists true. by apply Hfree.
Qed.

(** One round of the loop keeps the invariant. *)
Lemma round_optInv O C c rest ns :
  optInv O C C → sort_by_f O = c :: rest → pos c ≠ goal →
  onway (pos c) → ng c = heuristic start (pos c) →
  getNeighbors gr (nx c) (ny c) (nz c) = Normal ns →
  let C' := {[key (pos c)]} ∪ C in
  optInv (foldl (visit goal c C') rest ns) C' C'.
Proof.
  intros Hinv Hsort Hne Hway Hopt Hns C'.
  pose proof (sort_by_f_perm O) as Hperm. rewrite Hsort in Hperm. symmetry in Hperm.
  assert (Hc : wf c) by (apply (inv_wf _ _ _ Hinv); rewrite Hperm; set_solver).
  pose proof (pop_optInv _ _ _ _ Hinv Hperm Hne) as Hpop. fold C' in Hpop.
  assert (Hfold : optInv (foldl (visit goal c C') rest ns) C' C ∧
                  ∀ m, m ∈ ns → reached c C' (foldl (visit goal c C') rest ns) m).
  { apply (foldl_visit_ind goal c C'
             (λ O' done, optInv O' C' C ∧ ∀ m, m ∈ done → reached c C' O' m)).
    - split; [done|]. intros m Hm. by apply elem_of_nil in Hm.
    - intros O' done m [Hinv' Hdone] Hm.
      apply (getNeighbors_spec _ _ _ Hns) in Hm as (Hadj & Hb & _). split.
      + by apply visit_optInv.
      + intros m0 Hm0. apply elem_of_app in Hm0 as [Hm0|Hm0].
        * apply visit_reached. by apply Hdone.
        * apply list_elem_of_singleton in Hm0 as ->. apply visit_reaches. }
  destruct Hfold as [Hinv' Hreached]. split; try apply Hinv'.
  intros c0 m Hc0 Hfw. apply elem_of_union in Hc0 as [Hc0|Hc0];
    [|by apply (inv_frontier _ _ _ Hinv' c0)].
  apply elem_of_singleton in Hc0. apply key_inj in Hc0. subst c0.
  destruct Hfw as (_ & Hm & Hadj & Hstep).
  assert (Hin : m ∈ ns).
  { apply (getNeighbors_spec _ _ _ Hns). split_and!; [done| |].
    - by apply onway_inBounds.
    - apply Hfree. by apply onway_inBounds. }
  destruct (Hreached m Hin) as [?|(n & Hn & Hp & Hg)]; [by left|].
  right. exists n. split_and!; [done|done|].
  destruct (inv_wf _ _ _ Hinv' n Hn) as (_ & _ & _ & _ & Hlow & _).
  rewrite Hp in Hlow. lia.
Qed.

Lemma search_optimal fuel : ∀ O C r,
  optInv O C C → search gr goal fuel O C = Some r →
  ∃ p, r = Normal p ∧ Z.of_nat (length p) = heuristic start goal.
Proof.
  induction fuel as [|fuel IH]; intros O C r Hinv Hr; [done|].
  simpl in Hr.
  destruct (frontier O C Hinv _ goal eq_refl onway_goal (inv_goal _ _ _ Hinv))
    as (n0 & Hn0 & Hg0 & Hy0 & Hb0).
  pose proof (sort_by_f_perm O) as Hperm.
  destruct (sort_by_f O) as [|c rest] eqn:Hsort.
  { apply Permutation_nil_l in Hperm. subst O. by apply elem_of_nil in Hn0. }
  assert (HcO : c ∈ O) by (rewrite <- Hperm; set_solver).
  pose proof (sort_by_f_head_min _ _ _ Hsort n0 Hn0) as Hmin.
  destruct (inv_wf _ _ _ Hinv c HcO) as (Hcy & Hcb & Hch & Hcf & Hclow & Hclen).
  destruct (inv_wf _ _ _ Hinv n0 Hn0) as (_ & _ & Hnh & Hnf & _ & _).
  pose proof (heuristic_triangle start (pos c) goal) as Htri.
  assert (Hopt : ng c = heuristic start (pos c)) by lia.
  assert (Hway : onway (pos c)) by (split; [done|lia]).
  destruct (decide (pos c = goal)) as [Heq|Hne].
  - injection Hr as <-. eexists. split; [done|]. rewrite Hclen, Hopt, Heq. done.
  - destruct (free_getNeighbors (nx c) (ny c) (nz c)) as [ns Hns].
    rewrite Hns in Hr. eapply IH; [|exact Hr].
    by apply (round_optInv O C c rest ns).
Qed.

Lemma optInv_init :
  optInv [Node (cx start) (cy start) (cz start) 0
               (heuristic start goal) (heuristic start goal) None] ∅ ∅.
Proof.
  assert (Hpos : pos (Node (cx start) (cy start) (cz start) 0
                  (heuristic start goal) (heuristic start goal) None) = start)
    by (by destruct start).
  split.
  - intros n Hn. apply list_elem_of_singleton in Hn as ->.
    unfold wf. rewrite Hpos. split_and!; [done|done|done| | |done].
    + simpl. lia.
    + simpl. unfold heuristic. lia.
  - apply NoDup_singleton.
  - intros n _. set_solver.
  - right. eexists. split_and!; [by apply list_elem_of_singleton|done|].
    simpl. unfold heuristic. lia.
  - intros c0 m0 Hc0. set_solver.
  - set_solver.
Qed.

End Optimal.

Lemma obstacleFree_notObstacle gr c :
  wellFormed gr = true → obstacleFree gr = true → inBounds gr c = true →
  notObstacle gr c = Normal true.
Proof.
  intros Hwf Hof Hb.
  destruct (wellFormed_notObstacle gr c Hwf Hb) as (v & Hcell & ->).
  unfold cell, obstacleFree in *. rewrite forallb_forall in Hof.
  destruct (gr !! Z.to_nat (cx c)) as [plane|] eqn:Hp; [|done]. simpl in Hcell.
  destruct (plane !! Z.to_nat (cy c)) as [row|] eqn:Hr; [|done]. simpl in Hcell.
  specialize (Hof plane). rewrite <- list_elem_of_In in Hof.
  specialize (Hof (list_elem_of_lookup_2 _ _ _ Hp)). rewrite forallb_forall in Hof.
  specialize (Hof row). rewrite <- list_elem_of_In in Hof.
  specialize (Hof (list_elem_of_lookup_2 _ _ _ Hr)). rewrite forallb_forall in Hof.
  specialize (Hof v). rewrite <- list_elem_of_In in Hof.
  by rewrite (Hof (list_elem_of_lookup_2 _ _ _ Hcell)).
Qed.
End PlannerFacts.

(** * Facts about the detection models *)

Module ModelsFacts.
Import Models.
Local Open Scope R_scope.

(** The cumulative ratio of the specification. *)
Definition rate (missed evaluated : Z) : R :=
  if (0 <? evaluated)%Z then IZR missed / IZR evaluated * 100 else 0.

(** A box either leaves the loop state alone (a miss) or appends one
    detection and counts it. *)
Definition scores (f : scoring → box → scoring) : Prop :=
  ∀ dets detected s b,
    (∃ s', f (dets, detected, s) b = (dets, detected, s')) ∨
    (∃ d s', f (dets, detected, s) b = (dets ++ [d], (detected + 1)%Z, s')).

Lemma Baseline_scores th : scores (Baseline_score th).
Proof.
  intros dets detected s b. unfold Baseline_score, Math_random.
  destruct (Rlt_dec _ th); [left; by eexists|].
  destruct (Rlt_dec _ 0.1); [left; by eexists|right; by do 2 eexists].
Qed.

Lemma QINA_scores th : scores (QINA_score th).
Proof.
  intros dets detected s b. unfold QINA_score, Math_random.
  destruct (Rlt_dec _ th); [left; by eexists|].
  destruct (Rlt_dec _ 0.02); [left; by eexists|right; by do 2 eexists].
Qed.

Lemma scores_foldl f boxes : scores f → ∀ dets detected s,
  ∃ new s', foldl f (dets, detected, s) boxes
            = (dets ++ new, (detected + Z.of_nat (length new))%Z, s') ∧
          (length new ≤ length boxes)%nat.
Proof.
  intros Hf. induction boxes as [|b boxes IH]; intros dets detected s.
  - exists [], s. simpl. rewrite app_nil_r, Z.add_0_r. done.
  - simpl. destruct (Hf dets detected s b) as [(s1 & ->)|(d & s1 & ->)].
    + destruct (IH dets detected s1) as (new & s' & -> & Hlen).
      exists new, s'. split; [done|lia].
    + destruct (IH (dets ++ [d]) (detected + 1)%Z s1) as (new & s' & -> & Hlen).
      exists (d :: new), s'. rewrite <- app_assoc. simpl. split; [|lia].
      do 2 f_equal. lia.
Qed.

(** What a scoring pass does to the counters of a model. *)
Lemma runDetection_counts k vd boxes m s :
  let m' := (runDetection k vd boxes m s).1 in
  (length (detections m') ≤ length boxes)%nat ∧
  totalDetections m' = (totalDetections m + Z.of_nat (length boxes))%Z ∧
  missedDetections m' =
    (missedDetections m +
     (Z.of_nat (length boxes) - Z.of_nat (length (detections m'))))%Z ∧
  missRate m' = rate (missedDetections m') (totalDetections m').
Proof.
  destruct k; simpl; unfold Baseline_runDetection, QINA_runDetection.
  - destruct (scores_foldl _ boxes (Baseline_scores (threshold m)) [] 0%Z s)
      as (new & s' & -> & Hlen). simpl. rewrite Z.add_0_l. done.
  - destruct (scores_foldl _ boxes (QINA_scores (threshold m)) [] 0%Z s)
      as (new & s' & -> & Hlen). simpl. rewrite Z.add_0_l. done.
Qed.

Lemma detect_model k t0 t1 vd boxes m s :
  let '(r, m', s') := detect k t0 t1 vd boxes m s in
  m' = setProcessTime ((t1 - t0) / 1000) (runDetection k vd boxes m s).1 ∧
  r_detections r = detections m' ∧ r_missRate r = missRate m' ∧
  r_processTime r = (t1 - t0) / 1000.
Proof.
  unfold detect. destruct (runDetection k vd boxes m s) as [m1 s1]. done.
Qed.

(** A pass is a call of [detect]: its clock readings, field and boxes. *)
Definition pass := (R * R * visualData * list box)%type.

Definition boxesOf (p : pass) : list box := p.2.

(** The successive calls of [detect] on one model. *)
Fixpoint runPasses (k : variant) (passes : list pass) (m : AIModel) (s : rng)
    : list result * AIModel * rng :=
  match passes with
  | [] => ([], m, s)
  | (t0, t1, vd, boxes) :: passes' =>
      let '(r, m', s') := detect k t0 t1 vd boxes m s in
      let '(rs, m'', s'') := runPasses k passes' m' s' in
      (r :: rs, m'', s'')
  end.

(** Entities evaluated, and entities missed, over a run of passes. *)
Definition sumEvaluated (passes : list pass) : Z :=
  foldr (λ p acc, (Z.of_nat (length (boxesOf p)) + acc)%Z) 0%Z passes.

Fixpoint sumMissed (passes : list pass) (rs : list result) : Z :=
  match passes, rs with
  | p :: passes', r :: rs' =>
      (Z.of_nat (length (boxesOf p)) - Z.of_nat (length (r_detections r))
       + sumMissed passes' rs')%Z
  | _, _ => 0%Z
  end.

Lemma runPasses_counts k passes : ∀ m s,
  let '(rs, m', _) := runPasses k passes m s in
  totalDetections m' = (totalDetections m + sumEvaluated passes)%Z ∧
  missedDetections m' = (missedDetections m + sumMissed passes rs)%Z ∧
  (missRate m = rate (missedDetections m) (totalDetections m) →
   missRate m' = rate (missedDetections m') (totalDetections m')) ∧
  (∀ r, last rs = Some r → r_missRate r = missRate m').
Proof.
  induction passes as [|[[[t0 t1] vd] boxes] passes IH]; intros m s.
  - simpl. split_and!; [lia|lia|done|done].
  - simpl. pose proof (detect_model k t0 t1 vd boxes m s) as Hd.
    destruct (detect k t0 t1 vd boxes m s) as [[r m1] s1].
    destruct Hd as (Hm1 & Hdets & Hrate & _).
    pose proof (runDetection_counts k vd boxes m s) as (_ & Ht & Hmi & Hr).
    specialize (IH m1 s1).
    destruct (runPasses k passes m1 s1) as [[rs m2] s2] eqn:Hrun.
    destruct IH as (IHt & IHm & IHr & IHl).
    assert (Hr1 : missRate m1 = rate (missedDetections m1) (totalDetections m1))
      by (subst m1; exact Hr).
    split_and!.
    + rewrite IHt. subst m1. simpl. rewrite Ht. unfold boxesOf. simpl. lia.
    + rewrite IHm. rewrite Hdets. subst m1. simpl. rewrite Hmi.
      unfold boxesOf. simpl. lia.
    + intros _. by apply IHr.
    + intros r0 Hlast. destruct rs as [|r' rs'].
      * simpl in Hlast. injection Hlast as <-. destruct passes as [|[[[? ?] ?] ?] ?].
        -- simpl in Hrun. congruence.
        -- simpl in Hrun. destruct (detect _ _ _ _ _ _ _) as [[? ?] ?].
           destruct (runPasses _ _ _ _) as [[? ?] ?]. done.
      * apply IHl. by rewrite <- Hlast.
Qed.

End ModelsFacts.

(** * Facts about the motion controller *)

Module RobotFacts.
Import Models Robot.
Local Open Scope R_scope.

Lemma Rabs_le_between a b : Rabs a <= b ↔ - b <= a <= b.
Proof. unfold Rabs. destruct (Rcase_abs a); lra. Qed.

Lemma Rabs_lt_between a b : Rabs a < b ↔ - b < a < b.
Proof. unfold Rabs. destruct (Rcase_abs a); lra. Qed.

(** *** The normalisation loops *)

Lemma wrapDown_le fuel : ∀ d, d - 2 * PI * INR fuel <= PI → wrapDown fuel d <= PI.
Proof.
  induction fuel as [|fuel IH]; intros d Hd.
  - simpl in *. lra.
  - simpl. destruct (Rlt_dec PI d); [|lra].
    apply IH. rewrite S_INR in Hd. lra.
Qed.

Lemma wrapUp_ge fuel : ∀ d, - PI <= d + 2 * PI * INR fuel → - PI <= wrapUp fuel d.
Proof.
  induction fuel as [|fuel IH]; intros d Hd.
  - simpl in *. lra.
  - simpl. destruct (Rlt_dec d (- PI)); [|lra].
    apply IH. rewrite S_INR in Hd. lra.
Qed.

(** [up x] rounds are at least [x] rounds. *)
Lemma up_rounds x : x <= INR (Z.to_nat (up x)).
Proof.
  destruct (archimed x) as [Hup _].
  destruct (Z_lt_le_dec 0 (up x)) as [Hpos|Hneg].
  - rewrite INR_IZR_INZ, Z2Nat.id by lia. lra.
  - assert (Z.to_nat (up x) = O) as -> by lia.
    apply IZR_le in Hneg. simpl. lra.
Qed.

(** The first loop has ended: its guard is false. *)
Lemma wrapDown_done d : wrapDown (Z.to_nat (up (d / (2 * PI)))) d <= PI.
Proof.
  apply wrapDown_le. pose proof PI_RGT_0 as Hpi.
  pose proof (up_rounds (d / (2 * PI))) as Hup.
  apply (Rmult_le_compat_l (2 * PI)) in Hup; [|lra].
  replace (2 * PI * (d / (2 * PI))) with d in Hup by (field; lra). lra.
Qed.

(** The second loop has ended: its guard is false. *)
Lemma wrapUp_done d : - PI <= wrapUp (Z.to_nat (up (- d / (2 * PI)))) d.
Proof.
  apply wrapUp_ge. pose proof PI_RGT_0 as Hpi.
  pose proof (up_rounds (- d / (2 * PI))) as Hup.
  apply (Rmult_le_compat_l (2 * PI)) in Hup; [|lra].
  replace (2 * PI * (- d / (2 * PI))) with (- d) in Hup by (field; lra). lra.
Qed.

Lemma wrapDown_shift fuel : ∀ d, ∃ k : Z, wrapDown fuel d = d + 2 * PI * IZR k.
Proof.
  induction fuel as [|fuel IH]; intros d.
  - exists 0%Z. simpl. lra.
  - simpl. destruct (Rlt_dec PI d); [|exists 0%Z; lra].
    destruct (IH (d - 2 * PI)) as [k ->]. exists (k - 1)%Z.
    rewrite minus_IZR. lra.
Qed.

Lemma wrapUp_shift fuel : ∀ d, ∃ k : Z, wrapUp fuel d = d + 2 * PI * IZR k.
Proof.
  induction fuel as [|fuel IH]; intros d.
  - exists 0%Z. simpl. lra.
  - simpl. destruct (Rlt_dec d (- PI)); [|exists 0%Z; lra].
    destruct (IH (d + 2 * PI)) as [k ->]. exists (k + 1)%Z.
    rewrite plus_IZR. lra.
Qed.

Lemma wrapUp_lt fuel : ∀ d, d <= PI → wrapUp fuel d <= PI.
Proof.
  pose proof PI_RGT_0 as Hpi.
  induction fuel as [|fuel IH]; intros d Hd; simpl; [done|].
  destruct (Rlt_dec d (- PI)); [|done]. apply IH. lra.
Qed.

Lemma normalize_shift d : ∃ k : Z, normalize d = d + 2 * PI * IZR k.
Proof.
  unfold normalize.
  destruct (wrapDown_shift (Z.to_nat (up (d / (2 * PI)))) d) as [k1 Hk1].
  set (d1 := wrapDown _ d) in *.
  destruct (wrapUp_shift (Z.to_nat (up (- d1 / (2 * PI)))) d1) as [k2 ->].
  exists (k1 + k2)%Z. rewrite Hk1, plus_IZR. lra.
Qed.

Lemma normalize_range d : - PI <= normalize d <= PI.
Proof.
  unfold normalize. split; [apply wrapUp_done|].
  apply wrapUp_lt, wrapDown_done.
Qed.

(** Two angles of the open half turn that differ by whole turns are equal. *)
Lemma whole_turns_zero (k : Z) a b :
  a = b + 2 * PI * IZR k → Rabs a <= PI → Rabs b < PI → k = 0%Z.
Proof.
  intros Hab Ha Hb. pose proof PI_RGT_0 as Hpi.
  apply Rabs_le_between in Ha. apply Rabs_lt_between in Hb.
  assert (Hk : -1 < IZR k < 1) by (split; nra).
  destruct Hk as [Hk1 Hk2]. apply lt_IZR in Hk1, Hk2. lia.
Qed.

Lemma normalize_unique d a (k : Z) :
  a = d + 2 * PI * IZR k → - PI < a < PI → normalize d = a.
Proof.
  intros Ha Hr. destruct (normalize_shift d) as [j Hj].
  pose proof (normalize_range d) as Hn.
  assert (Hz : (j - k = 0)%Z).
  { apply (whole_turns_zero _ (normalize d) a).
    - rewrite minus_IZR. lra.
    - apply Rabs_le_between. lra.
    - apply Rabs_lt_between. lra. }
  assert (j = k) by lia. subst j. lra.
Qed.

Lemma normalize_0 : normalize 0 = 0.
Proof.
  pose proof PI_RGT_0. apply (normalize_unique 0 0 0); lra.
Qed.

(** The normalised angle is a representative of least magnitude. *)
Lemma normalize_min d (k : Z) : Rabs (normalize d) <= Rabs (d + 2 * PI * IZR k).
Proof.
  pose proof PI_RGT_0 as Hpi.
  destruct (normalize_shift d) as [j Hj].
  pose proof (normalize_range d) as Hn.
  destruct (Z.eq_dec j k) as [->|Hne]; [rewrite Hj; lra|].
  replace (d + 2 * PI * IZR k) with (normalize d + 2 * PI * IZR (k - j))
    by (rewrite Hj, minus_IZR; lra).
  assert (Hk : IZR (k - j) <= -1 ∨ 1 <= IZR (k - j)).
  { destruct (Z_lt_le_dec (k - j) 0).
    - left. apply IZR_le. lia.
    - right. apply IZR_le. lia. }
  apply Rle_trans with PI; [apply Rabs_le_between; lra|].
  unfold Rabs. destruct (Rcase_abs _); destruct Hk; nra.
Qed.

Lemma normalize_triangle a b :
  Rabs (normalize (a + b)) <= Rabs (normalize a) + Rabs (normalize b).
Proof.
  destruct (normalize_shift a) as [i Hi], (normalize_shift b) as [j Hj].
  eapply Rle_trans; [apply (normalize_min (a + b) (i + j))|].
  replace (a + b + 2 * PI * IZR (i + j)) with (normalize a + normalize b)
    by (rewrite Hi, Hj, plus_IZR; lra).
  apply Rabs_triang.
Qed.

(** *** One tick: the heading *)

(** The planar distance and the direction that [update] computes. *)
Definition dist (p q : vec3) : R :=
  sqrt ((x q - x p) * (x q - x p) + (z q - z p) * (z q - z p)).

Definition heading (p q : vec3) : R := atan2 (z q - z p) (x q - x p).

Definition active (r : Robot) : Prop := moving r = true ∧ path r ≠ [].

Definition stopped (r : Robot) : Prop := path r = [] ∧ moving r = false.

Lemma sign_pos e : 0 < e → sign e = 1.
Proof. intros. unfold sign. destruct (Rlt_dec 0 e); [done|lra]. Qed.

Lemma sign_neg e : e < 0 → sign e = -1.
Proof.
  intros. unfold sign. destruct (Rlt_dec 0 e); [lra|].
  destruct (Rlt_dec e 0); [done|lra].
Qed.

(** The heading fields after a tick. *)
Lemma update_heading dt r w rest :
  moving r = true → path r = w :: rest →
  let T := heading (position r) w in
  let e := normalize (T - currentRotation r) in
  targetRotation (update dt r) = T ∧
  currentRotation (update dt r) =
    (if Rlt_dec (rotationSpeed r * dt) (Rabs e)
     then currentRotation r + sign e * (rotationSpeed r * dt) else T) ∧
  speed (update dt r) = speed r ∧ rotationSpeed (update dt r) = rotationSpeed r.
Proof.
  intros Hm Hp. unfold update. rewrite Hm, Hp. fold (heading (position r) w).
  destruct (Rlt_dec (Rabs _) 0.1); [destruct (Rle_dec _ _)|]; done.
Qed.

(** A turn of [ρ] towards the target takes [ρ] off the error. *)
Lemma turn_error T h ρ :
  let e := normalize (T - h) in
  0 < ρ → ρ < Rabs e →
  normalize (T - (h + sign e * ρ)) = e - sign e * ρ.
Proof.
  intros e Hρ He. pose proof (normalize_range (T - h)) as Hr. fold e in Hr.
  destruct (normalize_shift (T - h)) as [k Hk]. fold e in Hk.
  apply (normalize_unique _ _ k); [lra|].
  destruct (Rlt_dec 0 e) as [Hpos|Hneg].
  - rewrite (sign_pos e Hpos). rewrite Rabs_pos_eq in He by lra. lra.
  - assert (e < 0) as Hlt.
    { destruct (Req_dec_T e 0) as [H0|H0]; [|lra].
      rewrite H0, Rabs_R0 in He. lra. }
    rewrite (sign_neg e Hlt). rewrite Rabs_left in He by lra. lra.
Qed.

(** The error left after a tick, for the target of that tick. *)
Lemma update_error dt r w rest :
  moving r = true → path r = w :: rest → 0 < rotationSpeed r * dt →
  let T := heading (position r) w in
  let e := normalize (T - currentRotation r) in
  normalize (T - currentRotation (update dt r)) =
    (if Rlt_dec (rotationSpeed r * dt) (Rabs e)
     then e - sign e * (rotationSpeed r * dt) else 0).
Proof.
  intros Hm Hp Hρ T e.
  destruct (update_heading dt r w rest Hm Hp) as (_ & -> & _).
  fold T e. destruct (Rlt_dec _ (Rabs e)) as [Hlt|Hge].
  - by apply turn_error.
  - replace (T - T) with 0 by lra. apply normalize_0.
Qed.

(** How far past the target a turn ends: the error after the turn when
    its sign has flipped, nothing otherwise. *)
Definition overshoot (before after : R) : R :=
  if Rlt_dec (before * after) 0 then Rabs after else 0.

(** *** One tick: the position *)

Lemma atan2_scale k y x : 0 < k → atan2 (k * y) (k * x) = atan2 y x.
Proof.
  intros Hk. unfold atan2.
  assert (Hq : x ≠ 0 → k * y / (k * x) = y / x) by (intros; field; lra).
  destruct (Rlt_dec 0 x), (Rlt_dec 0 (k * x)); try nra.
  { rewrite Hq by lra. done. }
  destruct (Rlt_dec x 0), (Rlt_dec (k * x) 0); try nra.
  { rewrite Hq by lra.
    destruct (Rle_dec 0 y), (Rle_dec 0 (k * y)); try nra; done. }
  destruct (Rlt_dec 0 y), (Rlt_dec 0 (k * y)); try nra.
  destruct (Rlt_dec y 0), (Rlt_dec (k * y) 0); try nra.
Qed.

Lemma sumsq_nonneg a b : 0 <= a * a + b * b.
Proof. nra. Qed.

Lemma sqrt_scale k a : 0 <= k → 0 <= a → sqrt (k * k * a) = k * sqrt a.
Proof.
  intros Hk Ha. rewrite sqrt_mult by nra. by rewrite sqrt_square.
Qed.

Lemma dist_nonneg p q : 0 <= dist p q.
Proof. apply sqrt_pos. Qed.

(** Moving along the segment keeps the direction and shortens the
    distance by the step. *)
Lemma move_along p w σ :
  0 < σ → σ < dist p w →
  let p' := Vec3 (x p + (x w - x p) * (σ / dist p w)) (y p)
                 (z p + (z w - z p) * (σ / dist p w)) in
  heading p' w = heading p w ∧ dist p' w = dist p w - σ.
Proof.
  intros Hσ HD p'. set (D := dist p w) in *.
  set (k := 1 - σ / D).
  assert (Hk : 0 < k).
  { unfold k. apply Rlt_0_minus. apply (Rmult_lt_reg_r D); [lra|].
    replace (σ / D * D) with σ by (field; lra). lra. }
  assert (Hx : x w - x p' = k * (x w - x p)) by (unfold p', k; simpl; lra).
  assert (Hz : z w - z p' = k * (z w - z p)) by (unfold p', k; simpl; lra).
  split.
  - unfold heading. rewrite Hx, Hz. by apply atan2_scale.
  - unfold dist at 1. rewrite Hx, Hz.
    replace (k * (x w - x p) * (k * (x w - x p)) + k * (z w - z p) * (k * (z w - z p)))
      with (k * k * ((x w - x p) * (x w - x p) + (z w - z p) * (z w - z p))) by ring.
    rewrite sqrt_scale; [|exact (Rlt_le _ _ Hk)|apply sumsq_nonneg].
    fold (dist p w). fold D.
    unfold k. field. lra.
Qed.

(** The position, path and flag after a tick, by the branch taken. *)
Lemma update_cases dt r w rest :
  moving r = true → path r = w :: rest →
  let e := normalize (heading (position r) w - currentRotation r) in
  let D := dist (position r) w in
  let σ := speed r * dt in
  let r' := update dt r in
  (Rabs e < 0.1 ∧ D <= σ ∧ position r' = Vec3 (x w) (y w) (z w) ∧ path r' = rest ∧
     moving r' = match rest with [] => false | _ :: _ => true end) ∨
  (Rabs e < 0.1 ∧ σ < D ∧
     position r' = Vec3 (x (position r) + (x w - x (position r)) * (σ / D))
                        (y (position r))
                        (z (position r) + (z w - z (position r)) * (σ / D)) ∧
     path r' = w :: rest ∧ moving r' = true) ∨
  (0.1 <= Rabs e ∧ position r' = position r ∧ path r' = w :: rest ∧
     moving r' = true).
Proof.
  intros Hm Hp e D σ r'. unfold r', update. rewrite Hm, Hp.
  fold (heading (position r) w). fold (dist (position r) w). fold e D σ.
  destruct (Rlt_dec (Rabs e) 0.1) as [He|He].
  - destruct (Rle_dec D σ) as [HD|HD].
    + left. simpl. by destruct rest.
    + right; left. simpl. split_and!; [done|lra|done|done|done].
  - right; right. simpl. split_and!; [lra|done|done|done].
Qed.

End RobotFacts.

(** * Walks on the grid: what [findPath] returns in general *)

Module PlannerWalks.
Import Planner PlannerFacts.
Local Open Scope Z_scope.

(** One move of the planner: to a neighbour that [getNeighbors] yields. *)
Definition step (gr : grid) (c m : coord) : Prop :=
  adjacent c m ∧ inBounds gr m = true ∧ notObstacle gr m = Normal true.

(** [walk gr a k b]: [k] moves lead from [a] to [b]. *)
Inductive walk (gr : grid) (a : coord) : nat → coord → Prop :=
| walk_here : walk gr a 0 a
| walk_step k c m : walk gr a k c → step gr c m → walk gr a (S k) m.

(** A list of waypoints that is a sequence of moves from [a]. *)
Fixpoint follows (gr : grid) (a : coord) (p : list coord) : Prop :=
  match p with
  | [] => True
  | m :: p' => step gr a m ∧ follows gr m p'
  end.

(** A node whose parent links are moves back to the start. *)
Fixpoint traced (gr : grid) (start : coord) (n : node) : Prop :=
  match n with
  | Node x y z _ _ _ None => Coord x y z = start
  | Node x y z _ _ _ (Some p) => step gr (pos p) (Coord x y z) ∧ traced gr start p
  end.

Lemma follows_app (gr : grid) a p c :
  follows gr a (p ++ [c]) ↔ follows gr a p ∧ step gr (default a (last p)) c.
Proof.
  revert a. induction p as [|m p IH]; intros a; simpl.
  - tauto.
  - rewrite IH. destruct p as [|m' p']; simpl; [tauto|].
    rewrite !last_cons. destruct (last p'); simpl; tauto.
Qed.

Fixpoint traced_follows (gr : grid) start (n : node) :
  traced gr start n →
  follows gr start (reconstructPath n) ∧
  default start (last (reconstructPath n)) = pos n.
Proof.
  destruct n as [x y z g h f [p|]]; simpl.
  - intros [Hstep Hp]. destruct (traced_follows gr start p Hp) as [Hf Hl].
    rewrite reconstructPath_child. split.
    + apply follows_app. split; [done|]. by rewrite Hl.
    + by rewrite last_snoc.
  - intros <-. done.
Qed.

Lemma follows_walk (gr : grid) a p :
  follows gr a p → walk gr a (length p) (default a (last p)).
Proof.
  induction p as [|c p IH] using rev_ind; intros Hf.
  - apply walk_here.
  - apply follows_app in Hf as [Hf Hs]. rewrite length_app, last_snoc. simpl.
    replace (length p + 1)%nat with (S (length p)) by lia.
    eapply walk_step; [by apply IH|done].
Qed.

Lemma walk_follows (gr : grid) a k b :
  walk gr a k b → ∃ p, length p = k ∧ follows gr a p ∧ default a (last p) = b.
Proof.
  induction 1 as [|k c m _ (p & Hlen & Hf & Hl) Hs].
  - by exists [].
  - exists (p ++ [m]). rewrite length_app, last_snoc. simpl.
    split_and!; [lia| |done]. apply follows_app. by rewrite Hl.
Qed.

(** *** Invariants of the nodes through the search *)

(** A property of nodes that holds for the nodes a visit creates holds
    for the node whose path the search returns. *)
Lemma visit_Forall goal (Q : node → Prop) c C O m :
  Forall Q O → Q (fresh goal c m) →
  (∀ old, old ∈ O → pos old = m → Q (improved c old)) →
  Forall Q (visit goal c C O m).
Proof.
  intros HO Hfresh Himp. pose proof (visit_visited goal c C O m) as Hv.
  revert Hv. generalize (visit goal c C O m). intros O' Hv.
  destruct Hv as [?|old ? ? ? ?|? ?|l1 old l2 ? -> Hp ?]; [done|done| |].
  - apply Forall_app. split; [done|]. by apply Forall_singleton.
  - apply Forall_app in HO as [H1 H2]. apply Forall_cons in H2 as [_ H2].
    apply Forall_app. split; [done|]. apply Forall_cons. split; [|done].
    apply Himp; [set_solver|done].
Qed.

Lemma search_Forall (gr : grid) goal (Q : node → Prop) :
  (∀ c m, Q c → step gr (pos c) m → Q (fresh goal c m)) →
  (∀ c old, Q c → Q old → step gr (pos c) (pos old) → Q (improved c old)) →
  ∀ fuel O C p, Forall Q O →
  search gr goal fuel O C = Some (Normal p) →
  p = [] ∨ ∃ n, Q n ∧ pos n = goal ∧ p = reconstructPath n.
Proof.
  intros Hfresh Himp. induction fuel as [|fuel IH]; intros O C p HO Hr; [done|].
  simpl in Hr. pose proof (sort_by_f_perm O) as Hperm.
  destruct (sort_by_f O) as [|c rest]; [injection Hr as <-; by left|].
  rewrite <- Hperm in HO. apply Forall_cons in HO as [Hc Hrest].
  destruct (decide (pos c = goal)) as [Heq|Hne].
  { injection Hr as <-. right. by exists c. }
  destruct (getNeighbors gr (nx c) (ny c) (nz c)) as [ns|e] eqn:Hns; [|done].
  eapply IH; [|exact Hr].
  apply (foldl_visit_ind goal c _ (λ O' _, Forall Q O')); [done|].
  intros O' done m HO' Hm. apply (getNeighbors_spec _ _ _ Hns) in Hm.
  apply visit_Forall; [done|by apply Hfresh|].
  intros old Hold Hp. rewrite Forall_forall in HO'.
  apply Himp; [done|by apply HO'|by rewrite Hp].
Qed.

Lemma traced_fresh (gr : grid) start goal c m :
  traced gr start c → step gr (pos c) m → traced gr start (fresh goal c m).
Proof. intros Hc Hs. unfold fresh. simpl. by destruct m. Qed.

Lemma traced_improved (gr : grid) start c old :
  traced gr start c → step gr (pos c) (pos old) → traced gr start (improved c old).
Proof. intros Hc Hs. unfold improved. simpl. done. Qed.

Lemma traced_start (gr : grid) start goal :
  traced gr start (Node (cx start) (cy start) (cz start) 0
                        (heuristic start goal) (heuristic start goal) None).
Proof. simpl. by destruct start. Qed.

(** More fuel does not change what the search returns. *)
Lemma search_more_fuel (gr : grid) goal fuel : ∀ O C r k,
  search gr goal fuel O C = Some r → search gr goal (fuel + k) O C = Some r.
Proof.
  induction fuel as [|fuel IH]; intros O C r k Hr; [done|].
  simpl in *. destruct (sort_by_f O) as [|c rest]; [done|].
  destruct (decide (pos c = goal)); [done|].
  destruct (getNeighbors gr (nx c) (ny c) (nz c)); [|done]. by apply IH.
Qed.

(** *** Shortest paths on any grid *)

(** The heuristic is consistent: a move changes it by at most one. *)
Lemma heuristic_step (gr : grid) c m goal :
  step gr c m → heuristic c goal <= 1 + heuristic m goal.
Proof.
  intros [[Hy Hadj] _]. unfold heuristic. rewrite Hy.
  pose proof (abs_triangle (cx c) (cx m) (cx goal)) as T1.
  pose proof (abs_triangle (cz c) (cz m) (cz goal)) as T2.
  rewrite (abs_comm (cx c) (cx m)) in T1. rewrite (abs_comm (cz c) (cz m)) in T2.
  hide_abs. lia.
Qed.

Lemma heuristic_walk (gr : grid) a j m goal :
  walk gr a j m → heuristic a goal <= Z.of_nat j + heuristic m goal.
Proof.
  induction 1 as [|k c m _ IH Hs]; [lia|].
  pose proof (heuristic_step gr c m goal Hs). lia.
Qed.

(** An open node at [m] with cost at most [b], unless [m] is closed. *)
Definition within (O : list node) (C : gset (Z * Z * Z)) (m : coord) (b : Z) : Prop :=
  key m ∈ C ∨ ∃ n, n ∈ O ∧ pos n = m ∧ ng n <= b.

Lemma within_keep O O' C C' m b :
  within O C m b → C ⊆ C' →
  (∀ n, n ∈ O → n ∈ O' ∨ key (pos n) ∈ C' ∨
                ∃ n', n' ∈ O' ∧ pos n' = pos n ∧ ng n' <= ng n) →
  within O' C' m b.
Proof.
  intros [HC|(n & Hn & Hp & Hg)] Hsub Hkeep; [left; set_solver|].
  destruct (Hkeep n Hn) as [?|[?|(n' & Hn' & Hp' & Hg')]].
  - right. by exists n.
  - left. by rewrite <- Hp.
  - right. exists n'. split_and!; [done|congruence|lia].
Qed.

(** What a visit does to the nodes that were open. *)
Lemma visit_keeps goal c C O m n :
  n ∈ O →
  n ∈ visit goal c C O m ∨
  ∃ n', n' ∈ visit goal c C O m ∧ pos n' = pos n ∧ ng n' <= ng n.
Proof.
  intros Hn. pose proof (visit_visited goal c C O m) as Hv.
  revert Hv. generalize (visit goal c C O m). intros O' Hv.
  destruct Hv as [?|old ? ? ? ?|? ?|l1 old l2 ? -> Hp Hg]; [by left|by left| |].
  - left. set_solver.
  - apply elem_of_app in Hn as [Hn|Hn]; [left; set_solver|].
    apply elem_of_cons in Hn as [->|Hn]; [|left; set_solver].
    right. exists (improved c old). rewrite pos_improved.
    split_and!; [set_solver|done|]. unfold improved. simpl. lia.
Qed.

Section Shortest.
Variables (gr : grid) (start goal : coord).

Definition sound (n : node) : Prop :=
  traced gr start n ∧ nh n = heuristic (pos n) goal ∧ nf n = ng n + nh n ∧
  Z.of_nat (length (reconstructPath n)) = ng n.

(** [G] remembers the cost at which each cell was closed; [D] holds the
    closed keys whose neighbours have all been visited. *)
Record bestInv (O : list node) (C D : gset (Z * Z * Z)) (G : coord → Z) : Prop := {
  best_sound : ∀ n, n ∈ O → sound n;
  best_nodup : NoDup (pos <$> O);
  best_open : ∀ n, n ∈ O → key (pos n) ∉ C;
  best_start : within O C start 0;
  best_closed : ∀ c k, key c ∈ C → walk gr start k c → G c <= Z.of_nat k;
  best_next : ∀ c m, key c ∈ D → step gr c m → within O C m (G c + 1);
  best_goal : key goal ∉ C
}.

(** Along any walk from the start, either its end is closed or some open
    node on it is at least as cheap as the walk up to it. *)
Lemma frontier_any O C G k m :
  bestInv O C C G → walk gr start k m →
  key m ∈ C ∨
  ∃ n j, n ∈ O ∧ ng n + Z.of_nat j <= Z.of_nat k ∧ walk gr (pos n) j m.
Proof.
  intros Hinv. induction 1 as [|k c m Hw IH Hs].
  - destruct (best_start _ _ _ _ Hinv) as [?|(n & Hn & Hp & Hg)]; [by left|].
    right. exists n, 0%nat. split_and!; [done|lia|]. rewrite Hp. apply walk_here.
  - destruct IH as [HcC|(n & j & Hn & Hg & Hwj)].
    + pose proof (best_closed _ _ _ _ Hinv c k HcC Hw) as HG.
      destruct (best_next _ _ _ _ Hinv c m HcC Hs) as [?|(n & Hn & Hp & Hg)];
        [by left|].
      right. exists n, 0%nat. split_and!; [done|lia|]. rewrite Hp. apply walk_here.
    + right. exists n, (S j). split_and!; [done|lia|]. by eapply walk_step.
Qed.

(** The node taken from the open list is as cheap as any walk to it. *)
Lemma popped_best O C G c rest k :
  bestInv O C C G → sort_by_f O = c :: rest →
  walk gr start k (pos c) → ng c <= Z.of_nat k.
Proof.
  intros Hinv Hsort Hw.
  pose proof (sort_by_f_perm O) as Hperm. rewrite Hsort in Hperm.
  assert (HcO : c ∈ O) by (rewrite <- Hperm; set_solver).
  destruct (frontier_any O C G k (pos c) Hinv Hw) as [HcC|(n & j & Hn & Hg & Hwj)].
  { by apply (best_open _ _ _ _ Hinv) in HcO. }
  pose proof (sort_by_f_head_min _ _ _ Hsort n Hn) as Hmin.
  destruct (best_sound _ _ _ _ Hinv c HcO) as (_ & Hch & Hcf & _).
  destruct (best_sound _ _ _ _ Hinv n Hn) as (_ & Hnh & Hnf & _).
  pose proof (heuristic_walk gr _ _ _ goal Hwj). lia.
Qed.

Lemma sound_fresh c m : sound c → step gr (pos c) m → sound (fresh goal c m).
Proof.
  intros (Ht & _ & _ & Hlen) Hs. unfold sound. rewrite pos_fresh. split_and!.
  - by apply traced_fresh.
  - by destruct m.
  - by destruct m.
  - unfold fresh. rewrite reconstructPath_child, length_app. simpl. lia.
Qed.

Lemma sound_improved c old :
  sound c → sound old → step gr (pos c) (pos old) → sound (improved c old).
Proof.
  intros (Ht & _ & _ & Hlen) (_ & Hoh & _ & _) Hs.
  unfold sound. rewrite pos_improved. split_and!.
  - by apply traced_improved.
  - by destruct old.
  - by destruct old.
  - unfold improved. rewrite reconstructPath_child, length_app. simpl. lia.
Qed.

Lemma visit_bestInv c C' D G O m :
  sound c → step gr (pos c) m →
  bestInv O C' D G → bestInv (visit goal c C' O m) C' D G.
Proof.
  intros Hc Hs Hinv.
  assert (Hkeep : ∀ n, n ∈ O → n ∈ visit goal c C' O m ∨ key (pos n) ∈ C' ∨
            ∃ n', n' ∈ visit goal c C' O m ∧ pos n' = pos n ∧ ng n' <= ng n).
  { intros n Hn. destruct (visit_keeps goal c C' O m n Hn); auto. }
  split.
  - apply Forall_forall. apply visit_Forall.
    + apply Forall_forall. apply (best_sound _ _ _ _ Hinv).
    + by apply sound_fresh.
    + intros old Hold Hp. apply sound_improved; [done| |by rewrite Hp].
      by apply (best_sound _ _ _ _ Hinv).
  - destruct (visited_pos _ _ _ _ _ _ (visit_visited goal c C' O m))
      as [->|(_ & Hnew & ->)]; [apply (best_nodup _ _ _ _ Hinv)|].
    apply NoDup_app. split_and!; [apply (best_nodup _ _ _ _ Hinv)| |apply NoDup_singleton].
    intros p Hp Hp'. apply list_elem_of_singleton in Hp'. by subst p.
  - intros n Hn. apply (list_elem_of_fmap_2 pos) in Hn.
    destruct (visited_pos _ _ _ _ _ _ (visit_visited goal c C' O m))
      as [Heq|(HmC & _ & Heq)]; rewrite Heq in Hn.
    + apply list_elem_of_fmap in Hn as (n0 & -> & Hn0).
      by apply (best_open _ _ _ _ Hinv).
    + apply elem_of_app in Hn as [Hn|Hn].
      * apply list_elem_of_fmap in Hn as (n0 & -> & Hn0).
        by apply (best_open _ _ _ _ Hinv).
      * apply list_elem_of_singleton in Hn. by rewrite Hn.
  - by apply (within_keep O _ C'); [apply (best_start _ _ _ _ Hinv)| |].
  - apply (best_closed _ _ _ _ Hinv).
  - intros c0 m0 Hc0 Hs0.
    by apply (within_keep O _ C'); [apply (best_next _ _ _ _ Hinv c0)| |].
  - apply (best_goal _ _ _ _ Hinv).
Qed.

(** The costs remembered once [c] is closed. *)
Definition closing (G : coord → Z) (c : node) : coord → Z :=
  λ m, if decide (m = pos c) then ng c else G m.

Lemma pop_bestInv O C G c rest :
  bestInv O C C G → sort_by_f O = c :: rest → pos c ≠ goal →
  bestInv rest ({[key (pos c)]} ∪ C) C (closing G c).
Proof.
  intros Hinv Hsort Hne.
  pose proof (sort_by_f_perm O) as Hperm. rewrite Hsort in Hperm. symmetry in Hperm.
  pose proof (best_nodup _ _ _ _ Hinv) as Hnd.
  rewrite Hperm, fmap_cons in Hnd. apply NoDup_cons in Hnd as [Hcr Hnd].
  assert (HcO : c ∈ O) by (rewrite Hperm; set_solver).
  pose proof (best_open _ _ _ _ Hinv c HcO) as HcC.
  assert (Hkeep : ∀ n, n ∈ O → n ∈ rest ∨ key (pos n) ∈ {[key (pos c)]} ∪ C ∨
            ∃ n', n' ∈ rest ∧ pos n' = pos n ∧ ng n' <= ng n).
  { intros n Hn. rewrite Hperm in Hn. apply elem_of_cons in Hn as [->|Hn].
    - right; left. set_solver.
    - by left. }
  assert (Hold : ∀ c0, key c0 ∈ C → closing G c c0 = G c0).
  { intros c0 Hc0. unfold closing. destruct (decide (c0 = pos c)) as [->|]; done. }
  split.
  - intros n Hn. apply (best_sound _ _ _ _ Hinv). rewrite Hperm. set_solver.
  - done.
  - intros n Hn. rewrite not_elem_of_union, not_elem_of_singleton. split.
    + intros Hk. apply key_inj in Hk. apply Hcr. rewrite <- Hk.
      by apply list_elem_of_fmap_2.
    + apply (best_open _ _ _ _ Hinv). rewrite Hperm. set_solver.
  - apply (within_keep O _ C); [apply (best_start _ _ _ _ Hinv)|set_solver|done].
  - intros c0 k Hc0 Hw. apply elem_of_union in Hc0 as [Hc0|Hc0].
    + apply elem_of_singleton in Hc0. apply key_inj in Hc0. subst c0.
      unfold closing. rewrite decide_True by done.
      by apply (popped_best O C G c rest).
    + rewrite Hold by done. by apply (best_closed _ _ _ _ Hinv).
  - intros c0 m0 Hc0 Hs. rewrite Hold by done.
    apply (within_keep O _ C); [by apply (best_next _ _ _ _ Hinv c0)|set_solver|done].
  - rewrite not_elem_of_union, not_elem_of_singleton. split.
    + intros Hk. apply key_inj in Hk. congruence.
    + apply (best_goal _ _ _ _ Hinv).
Qed.

Lemma round_bestInv O C G c rest ns :
  bestInv O C C G → sort_by_f O = c :: rest → pos c ≠ goal →
  getNeighbors gr (nx c) (ny c) (nz c) = Normal ns →
  bestInv (foldl (visit goal c ({[key (pos c)]} ∪ C)) rest ns)
          ({[key (pos c)]} ∪ C) ({[key (pos c)]} ∪ C) (closing G c).
Proof.
  intros Hinv Hsort Hne Hns. set (C' := {[key (pos c)]} ∪ C).
  pose proof (sort_by_f_perm O) as Hperm. rewrite Hsort in Hperm.
  assert (Hc : sound c) by (apply (best_sound _ _ _ _ Hinv); rewrite <- Hperm; set_solver).
  pose proof (pop_bestInv _ _ _ _ _ Hinv Hsort Hne) as Hpop. fold C' in Hpop.
  assert (Hfold : bestInv (foldl (visit goal c C') rest ns) C' C (closing G c) ∧
                  ∀ m, m ∈ ns → reached c C' (foldl (visit goal c C') rest ns) m).
  { apply (foldl_visit_ind goal c C'
             (λ O' done, bestInv O' C' C (closing G c) ∧
                         ∀ m, m ∈ done → reached c C' O' m)).
    - split; [done|]. intros m Hm. by apply elem_of_nil in Hm.
    - intros O' done m [Hinv' Hdone] Hm.
      apply (getNeighbors_spec _ _ _ Hns) in Hm. split.
      + by apply visit_bestInv.
      + intros m0 Hm0. apply elem_of_app in Hm0 as [Hm0|Hm0].
        * apply visit_reached. by apply Hdone.
        * apply list_elem_of_singleton in Hm0 as ->. apply visit_reaches. }
  destruct Hfold as [Hinv' Hreached]. split; try apply Hinv'.
  intros c0 m Hc0 Hs. apply elem_of_union in Hc0 as [Hc0|Hc0];
    [|by apply (best_next _ _ _ _ Hinv' c0)].
  apply elem_of_singleton in Hc0. apply key_inj in Hc0. subst c0.
  unfold closing. rewrite decide_True by done.
  apply Hreached. by apply (getNeighbors_spec _ _ _ Hns).
Qed.

Lemma sound_path n :
  sound n → pos n = goal → start ≠ goal →
  reconstructPath n ≠ [] ∧ follows gr start (reconstructPath n) ∧
  last (reconstructPath n) = Some goal.
Proof.
  intros (Ht & _) Hp Hne.
  destruct (traced_follows gr start n Ht) as [Hf Hl]. rewrite Hp in Hl.
  destruct (reconstructPath n) as [|w p] eqn:Hrec; [simpl in Hl; congruence|].
  split_and!; [done|done|].
  destruct (last (w :: p)) as [g|] eqn:Hlast; [simpl in Hl; congruence|].
  by apply last_None in Hlast.
Qed.

Hypothesis Hwf : wellFormed gr = true.

(** With a walk of [k] moves to the goal, the search returns a path of
    at most [k] waypoints. *)
Lemma search_best fuel : ∀ O C G r k,
  bestInv O C C G → walk gr start k goal → start ≠ goal →
  search gr goal fuel O C = Some r →
  ∃ p, r = Normal p ∧ p ≠ [] ∧ (length p ≤ k)%nat ∧
       follows gr start p ∧ last p = Some goal.
Proof using Hwf.
  induction fuel as [|fuel IH]; intros O C G r k Hinv Hw Hne Hr; [done|].
  simpl in Hr. pose proof (sort_by_f_perm O) as Hperm.
  destruct (sort_by_f O) as [|c rest] eqn:Hsort.
  { apply Permutation_nil_l in Hperm. subst O.
    destruct (frontier_any [] C G k goal Hinv Hw) as [HgC|(n & _ & Hn & _)].
    - by apply (best_goal _ _ _ _ Hinv) in HgC.
    - by apply elem_of_nil in Hn. }
  assert (HcO : c ∈ O) by (rewrite <- Hperm; set_solver).
  pose proof (best_sound _ _ _ _ Hinv c HcO) as Hc.
  destruct (decide (pos c = goal)) as [Heq|Hnc].
  - injection Hr as <-. exists (reconstructPath c).
    destruct (sound_path c Hc Heq Hne) as (Hnil & Hf & Hl).
    split_and!; [done|done| |done|done].
    rewrite <- Heq in Hw. pose proof (popped_best O C G c rest k Hinv Hsort Hw).
    destruct Hc as (_ & _ & _ & Hlen). lia.
  - destruct (wellFormed_getNeighbors gr (nx c) (ny c) (nz c) Hwf) as [ns Hns].
    rewrite Hns in Hr.
    eapply (IH _ _ (closing G c)); [|done|done|exact Hr].
    by apply (round_bestInv O C G c rest ns).
Qed.

End Shortest.

Lemma bestInv_init (gr : grid) (start goal : coord) :
  start ≠ goal →
  bestInv gr start goal
    [Node (cx start) (cy start) (cz start) 0
          (heuristic start goal) (heuristic start goal) None] ∅ ∅ (λ _, 0).
Proof.
  intros Hne.
  assert (Hpos : pos (Node (cx start) (cy start) (cz start) 0
                  (heuristic start goal) (heuristic start goal) None) = start)
    by (by destruct start).
  split.
  - intros n Hn. apply list_elem_of_singleton in Hn as ->.
    unfold sound. rewrite Hpos. split_and!; [apply traced_start|done|done|done].
  - apply NoDup_singleton.
  - intros n _. apply not_elem_of_empty.
  - right. eexists. split_and!; [by apply list_elem_of_singleton|done|done].
  - intros c k Hc. by apply not_elem_of_empty in Hc.
  - intros c m Hc. by apply not_elem_of_empty in Hc.
  - apply not_elem_of_empty.
Qed.

(** [findPath] on a well-formed grid with a route to a different goal. *)
Lemma findPath_shortest (gr : grid) (start goal : coord) (q : list coord) :
  wellFormed gr = true → start ≠ goal →
  follows gr start q → last q = Some goal →
  ∃ p, findPath gr start goal = Some (Normal p) ∧ p ≠ [] ∧
       (length p ≤ length q)%nat ∧ follows gr start p ∧ last p = Some goal.
Proof.
  intros Hwf Hne Hq Hlast.
  pose proof (follows_walk gr start q Hq) as Hw. rewrite Hlast in Hw. simpl in Hw.
  destruct (findPath_terminates gr start goal) as [r Hr]. rewrite Hr.
  unfold findPath in Hr. destruct (decide (start = goal)); [done|].
  destruct (search_best gr start goal Hwf _ _ _ _ r _
              (bestInv_init gr start goal Hne) Hw Hne Hr) as (p & -> & Hp).
  by exists p.
Qed.

(** What [findPath] returns is a route from the start, and one that is
    not empty ends at the goal. *)
Lemma findPath_follows (gr : grid) (start goal : coord) (p : list coord) :
  findPath gr start goal = Some (Normal p) →
  follows gr start p ∧ (p ≠ [] → last p = Some goal).
Proof.
  intros Hr. unfold findPath in Hr. destruct (decide (start = goal)) as [_|Hne].
  { injection Hr as <-. done. }
  destruct (search_Forall gr goal (traced gr start)
              (traced_fresh gr start goal)
              (λ c old Hc _ Hs, traced_improved gr start c old Hc Hs)
              _ _ _ p ltac:(apply Forall_singleton, traced_start) Hr)
    as [->|(n & Ht & Hp & ->)]; [done|].
  destruct (traced_follows gr start n Ht) as [Hf Hl]. rewrite Hp in Hl.
  split; [done|]. intros _.
  destruct (last (reconstructPath n)) as [g|] eqn:Hlast.
  - simpl in Hl. by subst g.
  - by apply last_None in Hlast.
Qed.

End PlannerWalks.

(** * More about the motion controller *)

Module RobotMore.
Import Models Robot RobotFacts.
Local Open Scope R_scope.

Lemma wrapDown_id fuel d : d <= PI → wrapDown fuel d = d.
Proof. intros Hd. destruct fuel; simpl; [done|]. destruct (Rlt_dec PI d); [lra|done]. Qed.

Lemma wrapUp_id fuel d : - PI <= d → wrapUp fuel d = d.
Proof. intros Hd. destruct fuel; simpl; [done|]. destruct (Rlt_dec d (- PI)); [lra|done]. Qed.

Lemma normalize_id d : - PI <= d <= PI → normalize d = d.
Proof.
  intros [Hlo Hhi]. unfold normalize. rewrite (wrapDown_id _ d Hhi). by apply wrapUp_id.
Qed.

(** A robot that is not moving, or has no path, is left as it is. *)
Lemma update_idle dt r : moving r = false ∨ path r = [] → update dt r = r.
Proof.
  intros [Hm|Hp]; unfold update.
  - by rewrite Hm.
  - rewrite Hp. by destruct (moving r).
Qed.

Lemma ticks_stopped n dt r : stopped r → ticks n dt r = r.
Proof.
  intros [Hp Hm]. induction n as [|n IH]; [done|].
  simpl. rewrite (update_idle dt r) by auto. done.
Qed.

(** A tick keeps the path or drops its first waypoint, and never sets
    [moving]. *)
Lemma update_path dt r :
  (path (update dt r) = path r ∨ ∃ w, path r = w :: path (update dt r)) ∧
  (moving (update dt r) = true → moving r = true).
Proof.
  destruct (moving r) eqn:Hm.
  2:{ rewrite (update_idle dt r) by auto. rewrite Hm. auto. }
  split; [|done].
  destruct (path r) as [|w rest] eqn:Hp.
  { rewrite (update_idle dt r) by auto. rewrite Hp. auto. }
  destruct (update_cases dt r w rest Hm Hp)
    as [(_ & _ & _ & Hpa & _)|[(_ & _ & _ & Hpa & _)|(_ & _ & Hpa & _)]];
    rewrite Hpa; eauto.
Qed.

Lemma update_active_or_stopped dt r :
  active r → active (update dt r) ∨ stopped (update dt r).
Proof.
  intros [Hm Hp]. destruct (path r) as [|w rest] eqn:Hpath; [done|].
  destruct (update_cases dt r w rest Hm Hpath)
    as [(_ & _ & _ & Hpa & Hmo)|[(_ & _ & _ & Hpa & Hmo)|(_ & _ & Hpa & Hmo)]].
  - destruct rest as [|w2 rest'].
    + right. by split.
    + left. split; [done|by rewrite Hpa].
  - left. split; [done|by rewrite Hpa].
  - left. split; [done|by rewrite Hpa].
Qed.

(** The place where a robot that follows its path comes to rest. *)
Definition destination (r : Robot) : vec3 :=
  match last (path r) with
  | Some w => Vec3 (x w) (y w) (z w)
  | None => position r
  end.

Lemma update_destination dt r :
  active r → destination (update dt r) = destination r.
Proof.
  intros [Hm Hp]. destruct (path r) as [|w rest] eqn:Hpath; [done|].
  unfold destination. rewrite Hpath.
  destruct (update_cases dt r w rest Hm Hpath)
    as [(_ & _ & Hpos & Hpa & Hmo)|[(_ & _ & _ & Hpa & _)|(_ & _ & Hpa & _)]];
    rewrite Hpa.
  - destruct rest as [|w2 rest']; [simpl; exact Hpos|].
    rewrite last_cons_cons.
    destruct (last (w2 :: rest')) eqn:E; [done|by apply last_None in E].
  - destruct (last (w :: rest)) eqn:E; [done|by apply last_None in E].
  - destruct (last (w :: rest)) eqn:E; [done|by apply last_None in E].
Qed.

Lemma arrives n dt : ∀ r,
  active r → stopped (ticks n dt r) → position (ticks n dt r) = destination r.
Proof.
  induction n as [|n IH]; intros r Hact Hstop.
  - destruct Hact as [_ Hp], Hstop as [Hp' _]. done.
  - simpl in *. rewrite <- (update_destination dt r Hact).
    destruct (update_active_or_stopped dt r Hact) as [Hact'|Hst].
    + by apply IH.
    + rewrite (ticks_stopped n dt _ Hst). unfold destination.
      destruct Hst as [Hp _]. by rewrite Hp.
Qed.


End RobotMore.

(** * The claims about the planner *)

Section PlannerClaims.
Import Planner PlannerFacts.
Local Open Scope Z_scope.

(** C2.  On a grid without obstacles, for a start and a goal inside the
    grid with the same y, [findPath] returns a path that is a route from
    the start to the goal: every waypoint is one move from the one before
    it (the first from the start, which the path does not repeat), and the
    last one is the goal.  The number of its waypoints is the Manhattan
    distance between start and goal, and no route of moves from the start
    to the goal has fewer: the path is optimal. *)
Theorem C2_findPath_free_grid_manhattan (gr : grid) (start goal : coord) :
  wellFormed gr = true → obstacleFree gr = true →
  inBounds gr start = true → inBounds gr goal = true →
  cy start = cy goal →
  ∃ p, findPath gr start goal = Some (Normal p) ∧
       Z.of_nat (length p) = heuristic start goal ∧
       PlannerWalks.follows gr start p ∧
       (start ≠ goal → last p = Some goal) ∧
       ∀ q, PlannerWalks.follows gr start q → last q = Some goal →
            (length p ≤ length q)%nat.
Proof.
  intros Hwf Hof Hs Hg Hy.
  assert (Hex : ∃ p, findPath gr start goal = Some (Normal p) ∧
                     Z.of_nat (length p) = heuristic start goal).
  { unfold findPath. destruct (decide (start = goal)) as [->|Hne].
    { exists []. split; [done|]. unfold heuristic. simpl. lia. }
    destruct (findPath_terminates gr start goal) as [r Hr].
    unfold findPath in Hr. destruct (decide (start = goal)); [done|].
    rewrite Hr.
    pose proof (λ c, obstacleFree_notObstacle gr c Hwf Hof) as Hfree.
    destruct (search_optimal gr start goal Hfree Hs Hg Hy _ _ _ r
                (optInv_init gr start goal Hfree Hs Hg Hy) Hr) as (p & -> & Hlen).
    by exists p. }
  destruct Hex as (p & Hfind & Hlen). exists p.
  destruct (PlannerWalks.findPath_follows gr start goal p Hfind) as [Hroute Hlast].
  split_and!; [done|done|done| |].
  - intros Hne. apply Hlast. intros ->. simpl in Hlen.
    destruct start as [sx sy sz], goal as [gx gy gz].
    unfold heuristic in Hlen. simpl in *.
    assert (sx = gx ∧ sz = gz) as [-> ->] by lia. by subst.
  - intros q Hq Hq_last.
    pose proof (PlannerWalks.follows_walk gr start q Hq) as Hw.
    rewrite Hq_last in Hw. simpl in Hw.
    pose proof (PlannerWalks.heuristic_walk gr start _ goal goal Hw) as Hadm.
    assert (heuristic goal goal = 0) by (unfold heuristic; lia). lia.
Qed.

Lemma C2_witness :
  wellFormed (createEmptyGrid 4) = true ∧ obstacleFree (createEmptyGrid 4) = true ∧
  inBounds (createEmptyGrid 4) (Coord 0 1 3) = true ∧
  inBounds (createEmptyGrid 4) (Coord 2 1 0) = true ∧
  ∃ p, findPath (createEmptyGrid 4) (Coord 0 1 3) (Coord 2 1 0) = Some (Normal p) ∧
       Z.of_nat (length p) = 5 ∧
       PlannerWalks.follows (createEmptyGrid 4) (Coord 0 1 3) p ∧
       (Coord 0 1 3 ≠ Coord 2 1 0 → last p = Some (Coord 2 1 0)) ∧
       ∀ q, PlannerWalks.follows (createEmptyGrid 4) (Coord 0 1 3) q →
            last q = Some (Coord 2 1 0) → (length p ≤ length q)%nat.
Proof.
  split_and!; [reflexivity..|].
  exact (C2_findPath_free_grid_manhattan (createEmptyGrid 4) (Coord 0 1 3) (Coord 2 1 0)
           eq_refl eq_refl eq_refl eq_refl eq_refl).
Defined.

(** The warehouse of the scenario: a 10×10×10 grid whose only occupied
    cell is (5,5,5). *)
Definition scenario : grid := setCell (createEmptyGrid 10) 5 5 5 1.

(** C3, as stated, fails: the path returned from (0,5,5) to (9,5,5) does
    not have 9 waypoints. *)
Lemma C3_counterexample :
  ¬ ∃ p, findPath scenario (Coord 0 5 5) (Coord 9 5 5) = Some (Normal p) ∧
         length p = 9%nat ∧ (Coord 5 5 5 ∉ p).
Proof.
  intros (p & Hp & Hlen & _). vm_compute in Hp. injection Hp as <-. discriminate Hlen.
Qed.

(** C3, amended.  In the scenario [findPath] from (0,5,5) to (9,5,5)
    returns a path of 11 waypoints, none of them (5,5,5): the straight
    line of 9 steps runs through the obstacle, and the way round it adds
    two steps. *)
Theorem C3_path_around_obstacle :
  ∃ p, findPath scenario (Coord 0 5 5) (Coord 9 5 5) = Some (Normal p) ∧
       length p = 11%nat ∧ (Coord 5 5 5 ∉ p) ∧ last p = Some (Coord 9 5 5).
Proof.
  eexists. split; [vm_compute; reflexivity|].
  split_and!; [reflexivity| |reflexivity].
  apply (bool_decide_unpack _). vm_compute. reflexivity.
Qed.

(** C4, as stated, fails: a start outside the grid is searched from like
    any other position, and the call returns an ordinary path. *)
Lemma C4_counterexample :
  inBounds (createEmptyGrid 10) (Coord (-1) 0 0) = false ∧
  findPath (createEmptyGrid 10) (Coord (-1) 0 0) (Coord 0 0 0)
    = Some (Normal [Coord 0 0 0]) ∧
  findPath (createEmptyGrid 10) (Coord (-1) 0 0) (Coord 0 0 0)
    ≠ Some (Throw "InvalidCoordinate").
Proof.
  split_and!; [reflexivity|vm_compute; reflexivity|].
  intros H. vm_compute in H. discriminate H.
Qed.

(** C4, amended.  [findPath] has no InvalidCoordinate condition: on a
    well-formed grid every call, whatever the coordinates, returns a path
    and throws nothing; when the goal lies outside the grid the path is
    empty, the same value as for an unreachable goal. *)
Theorem C4_out_of_bounds_returns_path (gr : grid) (start goal : coord) :
  wellFormed gr = true →
  ∃ p, findPath gr start goal = Some (Normal p) ∧
       (inBounds gr goal = false → p = []).
Proof.
  intros Hwf. destruct (findPath_terminates gr start goal) as [r Hr].
  unfold findPath in *. destruct (decide (start = goal)) as [->|Hne].
  { exists []. done. }
  destruct r as [p|e]; [|by apply search_wellFormed in Hr].
  exists p. split; [done|]. intros Hout.
  destruct (search_unreachable gr start goal _ _ _ _ (openInv_init gr start goal)
              ltac:(intros [?|[? _]]; congruence) Hr) as [Hnil|[e He]]; congruence.
Qed.

Lemma C4_witness :
  wellFormed (createEmptyGrid 3) = true ∧
  ∃ p, findPath (createEmptyGrid 3) (Coord 0 0 0) (Coord 3 0 0) = Some (Normal p) ∧
       (inBounds (createEmptyGrid 3) (Coord 3 0 0) = false → p = []).
Proof.
  split; [reflexivity|].
  exact (C4_out_of_bounds_returns_path (createEmptyGrid 3) (Coord 0 0 0) (Coord 3 0 0)
           eq_refl).
Defined.

Lemma occupied_notObstacle gr c : cell gr c = Some 1 → notObstacle gr c = Normal false.
Proof.
  unfold cell, notObstacle. intros H.
  destruct (gr !! Z.to_nat (cx c)) as [plane|]; [|done]. simpl in H.
  destruct (plane !! Z.to_nat (cy c)) as [row|]; [|done]. simpl in H.
  by rewrite H.
Qed.

Lemma findPath_occupied_goal gr start goal :
  wellFormed gr = true → cell gr goal = Some 1 →
  findPath gr start goal = Some (Normal []).
Proof.
  intros Hwf Hocc. destruct (findPath_terminates gr start goal) as [r Hr].
  rewrite Hr. unfold findPath in Hr.
  destruct (decide (start = goal)) as [->|Hne]; [done|].
  destruct r as [p|e]; [|by apply search_wellFormed in Hr].
  apply occupied_notObstacle in Hocc.
  destruct (search_unreachable gr start goal _ _ _ _ (openInv_init gr start goal)
              ltac:(intros [?|[_ ?]]; congruence) Hr) as [Hnil|[e He]]; congruence.
Qed.

End PlannerClaims.

(** * The claims about the detection models *)

Section ModelsClaims.
Import Models ModelsFacts.
Local Open Scope R_scope.

(** C1, on the code.  [detect] assigns [processTime] after
    [_runDetection] has returned, so the factor 0.85 that
    [QINAModel._runDetection] applies lands on the time of the previous
    pass and is overwritten: with clock readings 0 and 1000 ms the time
    QINA reports is the whole second, not 0.85 s. *)
Theorem C1_QINA_reports_unscaled_time (vd : visualData) (boxes : list box)
    (m : AIModel) (s : rng) :
  let r := (detect QINA 0 1000 vd boxes m s).1.1 in
  r_processTime r = (1000 - 0) / 1000 ∧
  r_processTime r ≠ (1000 - 0) / 1000 * 0.85.
Proof.
  pose proof (detect_model QINA 0 1000 vd boxes m s) as H.
  destruct (detect QINA 0 1000 vd boxes m s) as [[r m'] s'].
  destruct H as (_ & _ & _ & Ht). simpl. rewrite Ht. split; lra.
Qed.

(** Whether a box is missed: its visit leaves the detections empty. *)
Definition isMiss (score : R → scoring → box → scoring) (th : R)
    (b : box) (s : rng) : bool :=
  match (score th ([], 0%Z, s) b).1.1 with
  | [] => true
  | _ :: _ => false
  end.

Definition QINA_misses (sample : box * rng) : bool :=
  isMiss QINA_score (threshold (new QINA)) sample.1 sample.2.

Definition Baseline_misses (sample : box * rng) : bool :=
  isMiss Baseline_score (threshold (new Baseline)) sample.1 sample.2.

Lemma QINA_miss_Baseline_miss (b : box) (s : rng) :
  QINA_misses (b, s) = true → Baseline_misses (b, s) = true.
Proof.
  unfold QINA_misses, Baseline_misses, isMiss, QINA_score, Baseline_score,
    Math_random. simpl.
  pose proof (Rabs_pos (sin (rotation b * PI / 90))) as Hrot.
  pose proof (Rabs_pos (scale b - 1.0)) as Hsc.
  set (rot := Rabs (sin _)) in *. set (sc := Rabs (scale b - 1.0)) in *.
  destruct (Rlt_dec (1.0 - rot * 0.5 - sc * 0.5 - s O * 0.2) 0.5) as [?|Hb];
    [done|].
  destruct (Rlt_dec (s 1%nat) 0.1) as [?|Hb2]; [done|].
  destruct (Rlt_dec (1.0 - rot * 0.2 - sc * 0.2 - s O * 0.1) 0.3) as [Hq|Hq].
  - exfalso. lra.
  - destruct (Rlt_dec (s 1%nat) 0.02) as [Hq2|Hq2]; [exfalso; lra|].
    intros H. by destruct (@nil detection).
Qed.

(** C5.  With the same box and the same draws (the noise draw first, the
    systematic-miss draw second), a box that QINA misses is a box that
    Baseline misses; hence over any finite sample of boxes and draws QINA
    misses no more of them than Baseline does. *)
Theorem C5_QINA_misses_no_more_than_Baseline :
  (∀ (b : box) (s : rng), QINA_misses (b, s) = true → Baseline_misses (b, s) = true) ∧
  (∀ samples : list (box * rng),
     (length (filter (λ x, QINA_misses x = true) samples)
      ≤ length (filter (λ x, Baseline_misses x = true) samples))%nat).
Proof.
  split; [exact QINA_miss_Baseline_miss|].
  induction samples as [|[b s] samples IH]; [done|].
  rewrite !filter_cons.
  pose proof (QINA_miss_Baseline_miss b s) as Himp.
  destruct (decide (QINA_misses (b, s) = true)) as [Hq|Hq].
  - rewrite decide_True by auto. simpl. lia.
  - destruct (decide (Baseline_misses (b, s) = true)); simpl; lia.
Qed.

Lemma C5_witness :
  QINA_misses (Box (Vec3 8 0 8) 0 1, λ _, 0) = true ∧
  Baseline_misses (Box (Vec3 8 0 8) 0 1, λ _, 0) = true.
Proof.
  assert (Hq : QINA_misses (Box (Vec3 8 0 8) 0 1, λ _, 0) = true).
  { unfold QINA_misses, isMiss, QINA_score, Math_random. simpl.
    destruct (Rlt_dec _ 0.3); [done|].
    destruct (Rlt_dec 0 0.02) as [?|Hn]; [done|]. exfalso. lra. }
  split; [exact Hq|].
  exact (proj1 C5_QINA_misses_no_more_than_Baseline _ _ Hq).
Defined.

(** The miss-rates that successive passes report when each is the
    cumulative ratio, from the counts [missed] and [evaluated] so far. *)
Fixpoint cumulativeRates (missed evaluated : Z) (passes : list pass)
    (rs : list result) : list R :=
  match passes, rs with
  | p :: passes', r :: rs' =>
      let evaluated' := (evaluated + Z.of_nat (length (boxesOf p)))%Z in
      let missed' :=
        (missed + (Z.of_nat (length (boxesOf p))
                   - Z.of_nat (length (r_detections r))))%Z in
      rate missed' evaluated' :: cumulativeRates missed' evaluated' passes' rs'
  | _, _ => []
  end.

Lemma runPasses_rates k passes : ∀ m s,
  missRate m = rate (missedDetections m) (totalDetections m) →
  let out := runPasses k passes m s in
  length out.1.1 = length passes ∧
  r_missRate <$> out.1.1
    = cumulativeRates (missedDetections m) (totalDetections m) passes out.1.1 ∧
  missRate out.1.2 = rate (missedDetections out.1.2) (totalDetections out.1.2).
Proof.
  induction passes as [|[[[t0 t1] vd] boxes] passes IH]; intros m s Hm; [done|].
  simpl. pose proof (detect_model k t0 t1 vd boxes m s) as Hd.
  destruct (detect k t0 t1 vd boxes m s) as [[r m1] s1].
  destruct Hd as (Hm1 & Hdets & Hrate & _).
  pose proof (runDetection_counts k vd boxes m s) as (_ & Ht & Hmi & Hr).
  assert (Ht1 : totalDetections m1 = (totalDetections m + Z.of_nat (length boxes))%Z)
    by (subst m1; exact Ht).
  assert (Hmi1 : missedDetections m1 =
            (missedDetections m +
             (Z.of_nat (length boxes) - Z.of_nat (length (r_detections r))))%Z)
    by (rewrite Hdets; subst m1; exact Hmi).
  assert (Hr1 : missRate m1 = rate (missedDetections m1) (totalDetections m1))
    by (subst m1; exact Hr).
  specialize (IH m1 s1 Hr1).
  destruct (runPasses k passes m1 s1) as [[rs m2] s2]. simpl in *.
  destruct IH as (IHlen & IHrates & IHm). unfold boxesOf. simpl.
  split_and!; [by rewrite IHlen| |done].
  rewrite <- Hmi1, <- Ht1, <- IHrates, Hrate, Hr1. done.
Qed.

(** C6.  Starting from a reset model, every pass reports the cumulative
    ratio: the entities missed over all the passes so far, divided by the
    entities evaluated over all of them, times 100, and 0 while nothing
    has been evaluated.  After any such run, a pass over no entities
    returns no detections and reports the miss-rate it found. *)
Theorem C6_missRate_is_cumulative (k : variant) (m0 : AIModel) (s : rng)
    (passes : list pass) :
  let out := runPasses k passes (reset m0) s in
  let rs := out.1.1 in
  let m := out.1.2 in
  length rs = length passes ∧
  r_missRate <$> rs = cumulativeRates 0 0 passes rs ∧
  missRate m = rate (sumMissed passes rs) (sumEvaluated passes) ∧
  (∀ missed : Z, rate missed 0 = 0) ∧
  (∀ t0 t1 vd s',
     let quiet := detect k t0 t1 vd [] m s' in
     r_detections quiet.1.1 = [] ∧
     r_missRate quiet.1.1 = missRate m ∧
     missRate quiet.1.2 = missRate m ∧
     totalDetections quiet.1.2 = totalDetections m ∧
     missedDetections quiet.1.2 = missedDetections m).
Proof.
  cbv zeta.
  pose proof (runPasses_rates k passes (reset m0) s eq_refl) as Hr.
  pose proof (runPasses_counts k passes (reset m0) s) as Hc.
  cbv zeta in Hr. destruct (runPasses k passes (reset m0) s) as [[rs' m'] s2].
  simpl in *. destruct Hr as (Hlen & Hrates & Hm). destruct Hc as (Ht & Hmi & _ & _).
  split_and!; [done|done| |done|].
  - by rewrite Hm, Ht, Hmi.
  - intros t0 t1 vd s'.
    pose proof (detect_model k t0 t1 vd [] m' s') as Hd.
    destruct (detect k t0 t1 vd [] m' s') as [[r m1] s1]. simpl.
    destruct Hd as (Hm1 & Hdets & Hrate & _).
    pose proof (runDetection_counts k vd [] m' s') as (Hl & Ht' & Hmi' & Hr').
    simpl in Hl, Ht', Hmi'.
    assert (Hnil : detections m1 = []).
    { subst m1. simpl. destruct (detections _); [done|simpl in Hl; lia]. }
    assert (Ht1 : totalDetections m1 = totalDetections m')
      by (subst m1; simpl; lia).
    assert (Hmi1 : missedDetections m1 = missedDetections m').
    { subst m1. simpl in *. rewrite Hnil in Hmi'. simpl in Hmi'. lia. }
    assert (Hr1 : missRate m1 = missRate m').
    { rewrite Hm, <- Ht1, <- Hmi1. subst m1. exact Hr'. }
    split_and!; [congruence|congruence|done|done|done].
Qed.

End ModelsClaims.

(** * The claims about the motion controller *)

Section RobotClaims.
Import Models Robot RobotFacts.
Local Open Scope R_scope.

(** The heading error a robot holds: its target heading against its
    heading, normalised, in absolute value. *)
Definition headingError (r : Robot) : R :=
  Rabs (normalize (targetRotation r - currentRotation r)).

(** A robot about to reach the waypoint (1, 0, 1) from the south-west,
    0.09 rad short of its target heading π/4, with one more waypoint to
    the east of that one. *)
Definition approach : Robot :=
  {| position := Vec3 0.99 0 0.99; targetPosition := Some (Vec3 2 0 1);
     path := [Vec3 1 0 1; Vec3 2 0 1]; moving := true;
     speed := 1.0; rotationSpeed := 5.0;
     currentRotation := PI / 4 - 0.09; targetRotation := PI / 4 |}.

(** The same robot one tick of 16 ms later. *)
Definition turning : Robot := update 0.016 approach.

Lemma PI_above_3 : 3 < PI.
Proof. pose proof PI2_3_2. lra. Qed.

Lemma heading_diagonal : heading (Vec3 0.99 0 0.99) (Vec3 1 0 1) = PI / 4.
Proof.
  unfold heading, atan2. simpl.
  destruct (Rlt_dec 0 (1 - 0.99)) as [_|Hn]; [|exfalso; lra].
  replace ((1 - 0.99) / (1 - 0.99)) with 1 by (field; lra). apply atan_1.
Qed.

Lemma heading_east : heading (Vec3 1 0 1) (Vec3 2 0 1) = 0.
Proof.
  unfold heading, atan2. simpl.
  destruct (Rlt_dec 0 (2 - 1)) as [_|Hn]; [|exfalso; lra].
  replace ((1 - 1) / (2 - 1)) with 0 by lra. apply atan_0.
Qed.

Lemma dist_diagonal : dist (Vec3 0.99 0 0.99) (Vec3 1 0 1) <= 0.016.
Proof.
  unfold dist. simpl. rewrite <- (sqrt_square 0.016) by lra.
  apply sqrt_le_1_alt. lra.
Qed.

(** The first tick turns the robot by its budget 0.08, to 0.01 rad short
    of π/4, and puts it on the waypoint, which leaves the path. *)
Lemma turning_fields :
  position turning = Vec3 1 0 1 ∧ path turning = [Vec3 2 0 1] ∧
  moving turning = true ∧ rotationSpeed turning = 5.0 ∧
  targetRotation turning = PI / 4 ∧ currentRotation turning = PI / 4 - 0.01.
Proof.
  pose proof PI_above_3 as Hpi. unfold turning.
  destruct (update_heading 0.016 approach (Vec3 1 0 1) [Vec3 2 0 1] eq_refl eq_refl)
    as (HT & Hc & _ & Hr).
  assert (He : normalize (heading (position approach) (Vec3 1 0 1)
                          - currentRotation approach) = 0.09).
  { simpl. rewrite heading_diagonal.
    replace (PI / 4 - (PI / 4 - 0.09)) with 0.09 by lra.
    apply RobotMore.normalize_id. lra. }
  cbv zeta in HT, Hc. rewrite He in Hc. simpl in HT, Hc, Hr.
  rewrite heading_diagonal in HT, Hc.
  rewrite (Rabs_pos_eq 0.09) in Hc by lra.
  destruct (Rlt_dec (5.0 * 0.016) 0.09) as [_|Hn]; [|exfalso; lra].
  rewrite (sign_pos 0.09) in Hc by lra.
  destruct (update_cases 0.016 approach (Vec3 1 0 1) [Vec3 2 0 1] eq_refl eq_refl)
    as [(_ & _ & Hpos & Hpa & Hmo)|[(_ & Hgt & _)|(Hge & _)]].
  - split_and!; [done|done|done|done|done|]. rewrite Hc. lra.
  - exfalso. simpl in Hgt. pose proof dist_diagonal. lra.
  - exfalso. rewrite He, (Rabs_pos_eq 0.09) in Hge by lra. lra.
Qed.

(** C8, as stated, fails.  The robot [turning] is moving along a path
    and has not reached its target heading: it holds an error of 0.01 rad.
    Its next tick takes the direction of the next waypoint as the new
    target heading, 0, and leaves an error of π/4 - 0.09 rad. *)
Lemma C8_counterexample :
  moving turning = true ∧ path turning ≠ [] ∧ 0 < 0.016 ∧
  headingError turning = 0.01 ∧
  headingError (update 0.016 turning) = PI / 4 - 0.09 ∧
  ¬ (headingError (update 0.016 turning) <= headingError turning).
Proof.
  pose proof PI_above_3 as Hpi.
  destruct turning_fields as (Hpos & Hpa & Hmo & Hrs & HT & Hc).
  assert (Hbefore : headingError turning = 0.01).
  { unfold headingError. rewrite HT, Hc.
    replace (PI / 4 - (PI / 4 - 0.01)) with 0.01 by lra.
    rewrite RobotMore.normalize_id by lra. apply Rabs_pos_eq. lra. }
  assert (Hafter : headingError (update 0.016 turning) = PI / 4 - 0.09).
  { unfold headingError.
    destruct (update_heading 0.016 turning (Vec3 2 0 1) [] Hmo Hpa) as (HT' & _).
    pose proof (update_error 0.016 turning (Vec3 2 0 1) [] Hmo Hpa) as Herr.
    cbv zeta in HT', Herr. rewrite HT'.
    rewrite Hpos, Hrs, Hc, heading_east in *.
    assert (He : normalize (0 - (PI / 4 - 0.01)) = - (PI / 4 - 0.01)).
    { replace (0 - (PI / 4 - 0.01)) with (- (PI / 4 - 0.01)) by lra.
      apply RobotMore.normalize_id. lra. }
    rewrite He in Herr. rewrite Herr by lra.
    rewrite (Rabs_left (- (PI / 4 - 0.01))) by lra.
    destruct (Rlt_dec (5.0 * 0.016) (- - (PI / 4 - 0.01))) as [_|Hn];
      [|exfalso; apply Hn; lra].
    rewrite (sign_neg (- (PI / 4 - 0.01))) by lra.
    rewrite Rabs_left by lra. lra. }
  split_and!; [done|by rewrite Hpa|lra|done|done|].
  rewrite Hbefore, Hafter. lra.
Qed.

(** C8, amended.  In one tick of a moving robot with Δt > 0, the target
    heading is the direction from the robot to its next waypoint.  The
    heading error for that target, normalised, is no larger in absolute
    value after the tick than before it, and the turn does not end past
    the target by more than [rotationSpeed · Δt].  So the error the robot
    holds does not grow in a tick that leaves its target heading as it
    was. *)
Theorem C8_heading_error_does_not_grow (dt : R) (r : Robot) :
  moving r = true → path r ≠ [] → 0 < dt → 0 < rotationSpeed r →
  let r' := update dt r in
  let before := normalize (targetRotation r' - currentRotation r) in
  let after := normalize (targetRotation r' - currentRotation r') in
  (∃ w, head (path r) = Some w ∧ targetRotation r' = heading (position r) w) ∧
  Rabs after <= Rabs before ∧
  overshoot before after <= rotationSpeed r * dt ∧
  (targetRotation r' = targetRotation r → headingError r' <= headingError r).
Proof.
  intros Hm Hp Hdt Hr. destruct (path r) as [|w rest] eqn:Hpath; [done|].
  assert (Hρ : 0 < rotationSpeed r * dt) by nra.
  destruct (update_heading dt r w rest Hm Hpath) as (HT & _).
  pose proof (update_error dt r w rest Hm Hpath Hρ) as Herr.
  cbv zeta in *.
  assert (Hmain :
    Rabs (normalize (targetRotation (update dt r) - currentRotation (update dt r)))
      <= Rabs (normalize (targetRotation (update dt r) - currentRotation r)) ∧
    overshoot (normalize (targetRotation (update dt r) - currentRotation r))
              (normalize (targetRotation (update dt r) - currentRotation (update dt r)))
      <= rotationSpeed r * dt).
  { rewrite HT, Herr.
    set (e := normalize (heading (position r) w - currentRotation r)).
    unfold overshoot. destruct (Rlt_dec (rotationSpeed r * dt) (Rabs e)) as [Hlt|Hge].
    - destruct (Rlt_dec 0 e) as [Hpos|Hneg].
      + rewrite (sign_pos e Hpos). rewrite (Rabs_pos_eq e) in * by lra.
        rewrite Rabs_pos_eq by lra. split; [lra|].
        destruct (Rlt_dec _ 0); [nra|lra].
      + assert (e < 0) as Hlt0.
        { destruct (Req_dec_T e 0) as [H0|H0]; [|lra].
          rewrite H0, Rabs_R0 in Hlt. lra. }
        rewrite (sign_neg e Hlt0). rewrite (Rabs_left e) in * by lra.
        rewrite Rabs_left by lra. split; [lra|].
        destruct (Rlt_dec _ 0); [nra|lra].
    - rewrite Rabs_R0. split; [apply Rabs_pos|].
      destruct (Rlt_dec (e * 0) 0); [lra|lra]. }
  destruct Hmain as [Hle Hov].
  split_and!; [by exists w|done|done|].
  intros Hsame. unfold headingError. rewrite <- Hsame. exact Hle.
Qed.

(** The tick of the witness takes the error from 0.09 rad to 0.01 rad. *)
Lemma C8_witness :
  moving approach = true ∧ path approach ≠ [] ∧ 0 < 0.016 ∧
  0 < rotationSpeed approach ∧
  (∃ w, head (path approach) = Some w ∧
        targetRotation (update 0.016 approach) = heading (position approach) w) ∧
  Rabs (normalize (targetRotation (update 0.016 approach)
                   - currentRotation (update 0.016 approach)))
    <= Rabs (normalize (targetRotation (update 0.016 approach)
                        - currentRotation approach)) ∧
  overshoot (normalize (targetRotation (update 0.016 approach)
                        - currentRotation approach))
            (normalize (targetRotation (update 0.016 approach)
                        - currentRotation (update 0.016 approach)))
    <= rotationSpeed approach * 0.016 ∧
  (targetRotation (update 0.016 approach) = targetRotation approach →
   headingError (update 0.016 approach) <= headingError approach).
Proof.
  assert (H2 : 0 < 0.016) by lra.
  assert (Hr : 0 < rotationSpeed approach) by (simpl; lra).
  split_and!; [reflexivity|discriminate|exact H2|exact Hr|..];
    apply (C8_heading_error_does_not_grow 0.016 approach eq_refl
             ltac:(discriminate) H2 Hr).
Defined.

(** C9.  [reset(x, y, z)] followed by one [update], whatever Δt and
    whatever the robot was doing, leaves the position at (x, y, z), the
    heading at its initial value 0, the path empty and [moving] false. *)
Theorem C9_reset_then_update (r : Robot) (dt x y z : R) :
  let r' := update dt (Robot.reset x y z r) in
  Robot.position r' = Vec3 x y z ∧
  currentRotation r' = currentRotation (Robot.new x y z) ∧
  currentRotation r' = 0 ∧
  path r' = [] ∧ moving r' = false.
Proof. done. Qed.

End RobotClaims.

(** * The planner as the driver calls it *)

Section DriverClaims.
Import Planner PlannerFacts.

Lemma setTarget_occupied (gr : grid) (r : Robot.Robot) (tx ty tz : R) :
  wellFormed gr = true →
  cell gr (Robot.cellOf (Models.Vec3 tx ty tz)) = Some 1%Z →
  ∃ r', Robot.setTarget tx ty tz gr r = Some (Normal r') ∧
        Robot.path r' = [] ∧ Robot.moving r' = false ∧
        Robot.position r' = Robot.position r.
Proof.
  intros Hwf Hocc. unfold Robot.setTarget, Robot.calculatePath. simpl.
  rewrite (findPath_occupied_goal gr _ _ Hwf Hocc). simpl.
  eexists. split; [done|]. by split_and!.
Qed.

(** C10.  When the goal cell is marked occupied, [findPath] returns the
    empty path on every well-formed grid and from every start (distinct
    from the goal or not, since [getNeighbors] never yields an occupied
    cell); so the request of the driver, [setTarget] at the position of a
    detected box whose cell is occupied, leaves the robot with an empty
    path and not moving. *)
Theorem C10_occupied_goal_empty_path (gr : grid) (start goal : coord) :
  wellFormed gr = true → cell gr goal = Some 1%Z →
  findPath gr start goal = Some (Normal []) ∧
  ∀ (r : Robot.Robot) (tx ty tz : R),
    Robot.cellOf (Models.Vec3 tx ty tz) = goal →
    ∃ r', Robot.setTarget tx ty tz gr r = Some (Normal r') ∧
          Robot.path r' = [] ∧ Robot.moving r' = false.
Proof.
  intros Hwf Hocc. split; [by apply findPath_occupied_goal|].
  intros r tx ty tz Hcell. rewrite <- Hcell in Hocc.
  destruct (setTarget_occupied gr r tx ty tz Hwf Hocc) as (r' & H1 & H2 & H3 & _).
  by exists r'.
Qed.

Lemma C10_witness :
  wellFormed scenario = true ∧ cell scenario (Coord 5 5 5) = Some 1%Z ∧
  findPath scenario (Coord 0 5 5) (Coord 5 5 5) = Some (Normal []).
Proof.
  split_and!; [reflexivity|reflexivity|].
  exact (proj1 (C10_occupied_goal_empty_path scenario (Coord 0 5 5) (Coord 5 5 5)
                  eq_refl eq_refl)).
Defined.

End DriverClaims.

(** * Further properties of the planner *)

Section PlannerExtras.
Import Planner PlannerFacts PlannerWalks.
Local Open Scope Z_scope.

(** X1.  Whatever the grid, a path that [findPath] returns is a sequence
    of moves from the start: every waypoint is one step along x or z from
    the one before (the first from the start), lies inside the grid and is
    not an obstacle; and a path that is not empty ends at the goal. *)
Theorem X1_findPath_returns_a_route (gr : grid) (start goal : coord) (p : list coord) :
  findPath gr start goal = Some (Normal p) →
  follows gr start p ∧
  Forall (λ c, inBounds gr c = true ∧ notObstacle gr c = Normal true) p ∧
  (p ≠ [] → last p = Some goal).
Proof.
  intros Hr.
  assert (Hall : ∀ a q, follows gr a q →
            Forall (λ c, inBounds gr c = true ∧ notObstacle gr c = Normal true) q).
  { intros a q. revert a. induction q as [|c q IH]; intros a Hf; [done|].
    destruct Hf as [(_ & Hb & Hfree) Hf]. apply Forall_cons. split; [done|].
    by apply (IH c). }
  unfold findPath in Hr. destruct (decide (start = goal)) as [_|Hne].
  { injection Hr as <-. done. }
  destruct (search_Forall gr goal (traced gr start)
              (traced_fresh gr start goal)
              (λ c old Hc _ Hs, traced_improved gr start c old Hc Hs)
              _ _ _ p ltac:(apply Forall_singleton, traced_start) Hr)
    as [->|(n & Ht & Hp & ->)]; [done|].
  destruct (traced_follows gr start n Ht) as [Hf Hl]. rewrite Hp in Hl.
  split_and!; [done|by apply (Hall start)|].
  intros Hnil. destruct (last (reconstructPath n)) as [g|] eqn:Hlast.
  - simpl in Hl. by subst g.
  - by apply last_None in Hlast.
Qed.

Lemma X1_witness :
  findPath (createEmptyGrid 3) (Coord 0 0 0) (Coord 1 0 1)
    = Some (Normal [Coord 1 0 0; Coord 1 0 1]) ∧
  follows (createEmptyGrid 3) (Coord 0 0 0) [Coord 1 0 0; Coord 1 0 1] ∧
  Forall (λ c, inBounds (createEmptyGrid 3) c = true ∧
               notObstacle (createEmptyGrid 3) c = Normal true)
         [Coord 1 0 0; Coord 1 0 1] ∧
  ([Coord 1 0 0; Coord 1 0 1] ≠ [] → last [Coord 1 0 0; Coord 1 0 1] = Some (Coord 1 0 1)).
Proof.
  assert (H : findPath (createEmptyGrid 3) (Coord 0 0 0) (Coord 1 0 1)
              = Some (Normal [Coord 1 0 0; Coord 1 0 1])) by (vm_compute; reflexivity).
  split; [exact H|].
  exact (X1_findPath_returns_a_route _ _ _ _ H).
Defined.

(** X2.  On a well-formed grid, with obstacles or not: when some route
    of moves leads from the start to a different goal, [findPath] returns
    a route to the goal, not empty and with no more waypoints than that
    route.  The planner finds a shortest path whenever there is a path. *)
Theorem X2_findPath_is_shortest (gr : grid) (start goal : coord) (q : list coord) :
  wellFormed gr = true → start ≠ goal →
  follows gr start q → last q = Some goal →
  ∃ p, findPath gr start goal = Some (Normal p) ∧ p ≠ [] ∧
       (length p ≤ length q)%nat ∧ follows gr start p ∧ last p = Some goal.
Proof.
  intros Hwf Hne Hq Hlast.
  pose proof (follows_walk gr start q Hq) as Hw. rewrite Hlast in Hw. simpl in Hw.
  destruct (findPath_terminates gr start goal) as [r Hr]. rewrite Hr.
  unfold findPath in Hr. destruct (decide (start = goal)); [done|].
  destruct (search_best gr start goal Hwf _ _ _ _ r _
              (bestInv_init gr start goal Hne) Hw Hne Hr) as (p & -> & Hp).
  by exists p.
Qed.

Lemma X2_witness :
  wellFormed (createEmptyGrid 2) = true ∧ Coord 0 0 0 ≠ Coord 1 0 0 ∧
  follows (createEmptyGrid 2) (Coord 0 0 0) [Coord 0 0 1; Coord 1 0 1; Coord 1 0 0] ∧
  ∃ p, findPath (createEmptyGrid 2) (Coord 0 0 0) (Coord 1 0 0) = Some (Normal p) ∧
       p ≠ [] ∧ (length p ≤ 3)%nat ∧
       follows (createEmptyGrid 2) (Coord 0 0 0) p ∧ last p = Some (Coord 1 0 0).
Proof.
  assert (Hf : follows (createEmptyGrid 2) (Coord 0 0 0)
                 [Coord 0 0 1; Coord 1 0 1; Coord 1 0 0]).
  { simpl. unfold step, adjacent. simpl. repeat split; reflexivity. }
  split_and!; [reflexivity|discriminate|exact Hf|].
  exact (X2_findPath_is_shortest (createEmptyGrid 2) (Coord 0 0 0) (Coord 1 0 0)
           [Coord 0 0 1; Coord 1 0 1; Coord 1 0 0] eq_refl ltac:(discriminate) Hf eq_refl).
Defined.

(** X3.  On a well-formed grid [findPath] returns the empty path exactly
    when the start is the goal or no route of moves leads from the start
    to the goal: an empty path between different cells means that the goal
    is walled off (or is itself occupied or outside the grid). *)
Theorem X3_empty_path_iff_unreachable (gr : grid) (start goal : coord) :
  wellFormed gr = true →
  (findPath gr start goal = Some (Normal []) ↔
   start = goal ∨ ¬ ∃ q, follows gr start q ∧ last q = Some goal).
Proof.
  intros Hwf. split.
  - intros Hr. destruct (decide (start = goal)) as [?|Hne]; [by left|]. right.
    intros (q & Hq & Hlast).
    destruct (findPath_terminates gr start goal) as [r Hr'].
    pose proof (follows_walk gr start q Hq) as Hw. rewrite Hlast in Hw. simpl in Hw.
    unfold findPath in Hr, Hr'. destruct (decide (start = goal)); [done|].
    destruct (search_best gr start goal Hwf _ _ _ _ r _
                (bestInv_init gr start goal Hne) Hw Hne Hr') as (p & -> & Hp & _).
    congruence.
  - intros [->|Hno].
    + unfold findPath. by rewrite decide_True.
    + destruct (findPath_terminates gr start goal) as [r Hr]. rewrite Hr.
      unfold findPath in Hr. destruct (decide (start = goal)) as [?|Hne]; [done|].
      destruct r as [p|e]; [|by apply search_wellFormed in Hr].
      destruct (search_Forall gr goal (traced gr start)
                  (traced_fresh gr start goal)
              (λ c old Hc _ Hs, traced_improved gr start c old Hc Hs)
                  _ _ _ p ltac:(apply Forall_singleton, traced_start) Hr)
        as [->|(n & Ht & Hp & ->)]; [done|].
      exfalso. apply Hno. exists (reconstructPath n).
      destruct (traced_follows gr start n Ht) as [Hf Hl]. rewrite Hp in Hl.
      split; [done|]. destruct (last (reconstructPath n)) as [g|] eqn:Hlast.
      * simpl in Hl. by subst g.
      * simpl in Hl. congruence.
Qed.

Lemma X3_witness :
  wellFormed scenario = true ∧
  (findPath scenario (Coord 0 5 5) (Coord 5 5 5) = Some (Normal []) ↔
   Coord 0 5 5 = Coord 5 5 5 ∨
   ¬ ∃ q, follows scenario (Coord 0 5 5) q ∧ last q = Some (Coord 5 5 5)).
Proof.
  split; [reflexivity|].
  exact (X3_empty_path_iff_unreachable scenario (Coord 0 5 5) (Coord 5 5 5) eq_refl).
Defined.

(** X4.  The search loop of [findPath] always ends: every round closes
    a position that was not closed before, so [gridSize³ + 2] rounds give
    a result on any grid and for any coordinates, and allowing more
    rounds gives the same result. *)
Theorem X4_search_loop_ends (gr : grid) (start goal : coord) (more : nat) :
  let openList := [Node (cx start) (cy start) (cz start) 0
                        (heuristic start goal) (heuristic start goal) None] in
  (∃ r, search gr goal (enough gr) openList ∅ = Some r) ∧
  search gr goal (enough gr + more) openList ∅ = search gr goal (enough gr) openList ∅ ∧
  ∃ r, findPath gr start goal = Some r.
Proof.
  intros openList.
  assert (Hr : ∃ r, search gr goal (enough gr) openList ∅ = Some r).
  { apply (search_terminates gr start); [apply openInv_init|].
    rewrite size_empty. pose proof (size_universe gr start). lia. }
  split_and!; [done| |].
  - destruct Hr as [r Hr]. rewrite Hr. by apply search_more_fuel.
  - unfold findPath. destruct (decide (start = goal)); [by eexists|done].
Qed.

Lemma getNeighbors_from_sublist (gr : grid) x y z dirs acc ns :
  getNeighbors_from gr x y z dirs acc = Normal ns →
  ∃ l, ns = acc ++ l ∧ sublist l (shift x y z <$> dirs).
Proof.
  revert acc. induction dirs as [|[[dx dy] dz] dirs IH]; intros acc H.
  - simpl in H. injection H as <-. exists []. by rewrite app_nil_r.
  - simpl in H. rewrite fmap_cons.
    assert (Hskip : getNeighbors_from gr x y z dirs acc = Normal ns →
              ∃ l, ns = acc ++ l ∧
                   sublist l (shift x y z (dx, dy, dz) :: (shift x y z <$> dirs))).
    { intros H'. destruct (IH _ H') as (l & -> & Hl). exists l.
      split; [done|]. by apply sublist_cons. }
    destruct (inBounds gr _); [|by apply Hskip].
    destruct (notObstacle gr _) as [[|]|e]; [|by apply Hskip|done].
    destruct (IH _ H) as (l & -> & Hl).
    exists (Coord (x + dx) (y + dy) (z + dz) :: l). rewrite <- app_assoc.
    split; [done|]. by apply sublist_skip.
Qed.

(** X5.  [getNeighbors] returns at most four cells, all different; a
    cell is among them exactly when it is one step along x or z from
    (x, y, z) with the same y, lies inside the grid and does not hold 1.
    On a well-formed grid the call does not throw. *)
Theorem X5_getNeighbors_cells (gr : grid) (x y z : Z) :
  (∀ ns, getNeighbors gr x y z = Normal ns →
     (length ns ≤ 4)%nat ∧ NoDup ns ∧
     ∀ c, c ∈ ns ↔ adjacent (Coord x y z) c ∧ inBounds gr c = true ∧
                   notObstacle gr c = Normal true) ∧
  (wellFormed gr = true → ∃ ns, getNeighbors gr x y z = Normal ns).
Proof.
  split; [|by apply wellFormed_getNeighbors].
  intros ns Hns. unfold getNeighbors in Hns.
  destruct (getNeighbors_from_sublist _ _ _ _ _ _ _ Hns) as (l & Hl0 & Hl).
  simpl in Hl0, Hl. split_and!.
  - subst ns. apply sublist_length in Hl. simpl in Hl. lia.
  - subst ns. eapply sublist_NoDup; [|exact Hl].
    repeat (apply NoDup_cons; split; [|]); try apply NoDup_nil;
      rewrite ?not_elem_of_cons; repeat split; try apply not_elem_of_nil;
      intros [=]; lia.
  - intros c. rewrite (getNeighbors_from_spec _ _ _ _ _ _ _ Hns c).
    rewrite (adjacent_shift (Coord x y z) c). simpl. split.
    + intros [Hn|(d & ? & ? & ? & ?)]; [by apply elem_of_nil in Hn|]. eauto.
    + intros ((d & ? & ?) & ? & ?). right. eauto.
Qed.

Lemma X5_witness :
  wellFormed scenario = true ∧
  ∃ ns, getNeighbors scenario 4 5 5 = Normal ns.
Proof.
  split; [reflexivity|].
  exact (proj2 (X5_getNeighbors_cells scenario 4 5 5) eq_refl).
Defined.

(** X6.  The heuristic is admissible: it never exceeds the number of
    waypoints of a route of moves between the two cells, whatever the
    obstacles. *)
Theorem X6_heuristic_admissible (gr : grid) (a b : coord) (q : list coord) :
  follows gr a q → last q = Some b →
  heuristic a b <= Z.of_nat (length q).
Proof.
  intros Hq Hlast. pose proof (follows_walk gr a q Hq) as Hw.
  rewrite Hlast in Hw. simpl in Hw.
  pose proof (heuristic_walk gr a _ b b Hw) as H.
  assert (heuristic b b = 0) by (unfold heuristic; lia). lia.
Qed.

Lemma X6_witness :
  follows (createEmptyGrid 2) (Coord 0 0 0) [Coord 0 0 1; Coord 1 0 1; Coord 1 0 0] ∧
  heuristic (Coord 0 0 0) (Coord 1 0 0) <= 3.
Proof.
  assert (Hf : follows (createEmptyGrid 2) (Coord 0 0 0)
                 [Coord 0 0 1; Coord 1 0 1; Coord 1 0 0]).
  { simpl. unfold step, adjacent. simpl. repeat split; reflexivity. }
  split; [exact Hf|].
  exact (X6_heuristic_admissible (createEmptyGrid 2) (Coord 0 0 0) (Coord 1 0 0)
           [Coord 0 0 1; Coord 1 0 1; Coord 1 0 0] Hf eq_refl).
Defined.

End PlannerExtras.

(** * Further properties of the motion controller *)

Section RobotExtras.
Import Models Robot RobotFacts RobotMore.
Local Open Scope R_scope.


(** The idle robot of the constructor, and the same robot on its way to
    the next cell. *)
Definition parked : Robot := Robot.new 0 0 0.

Definition departing : Robot :=
  {| position := Vec3 0 0 0; targetPosition := Some (Vec3 1 0 0);
     path := [Vec3 1 0 0]; moving := true; speed := 1.0; rotationSpeed := 5.0;
     currentRotation := 0; targetRotation := 0 |}.




(** X9.  Ticks only ever drop waypoints from the front of the path: what
    is left after any number of ticks is a suffix of the path the robot
    started with. *)
Theorem X9_path_only_shrinks (n : nat) (dt : R) (r : Robot) :
  path (ticks n dt r) `suffix_of` path r.
Proof.
  revert r. induction n as [|n IH]; intros r; [done|].
  simpl. etrans; [apply IH|].
  destruct (update_path dt r) as [[->|[w ->]] _]; [done|].
  by apply suffix_cons_r.
Qed.

(** X10.  A robot that follows a path comes to rest nowhere but on the
    last waypoint of that path: whenever, after some number of ticks, its
    path is empty and [moving] is cleared, its position is that
    waypoint. *)
Theorem X10_robot_rests_only_on_last_waypoint (n : nat) (dt : R) (r : Robot) :
  moving r = true → path r ≠ [] →
  path (ticks n dt r) = [] → moving (ticks n dt r) = false →
  ∃ w, last (path r) = Some w ∧
       position (ticks n dt r) = Vec3 (x w) (y w) (z w).
Proof.
  intros Hm Hp Hpn Hmn.
  pose proof (arrives n dt r (conj Hm Hp) (conj Hpn Hmn)) as Hpos.
  unfold destination in Hpos.
  destruct (last (path r)) as [w|] eqn:Hlast; [|by apply last_None in Hlast].
  by exists w.
Qed.

Lemma departing_arrives :
  path (ticks 1 2 departing) = [] ∧ moving (ticks 1 2 departing) = false.
Proof.
  assert (Hh : heading (Vec3 0 0 0) (Vec3 1 0 0) = 0).
  { unfold heading, atan2. simpl.
    destruct (Rlt_dec 0 (1 - 0)) as [_|Hn]; [|exfalso; lra].
    replace ((0 - 0) / (1 - 0)) with 0 by lra. apply atan_0. }
  assert (Hd : dist (Vec3 0 0 0) (Vec3 1 0 0) = 1).
  { unfold dist. simpl.
    replace ((1 - 0) * (1 - 0) + (0 - 0) * (0 - 0)) with 1 by lra. apply sqrt_1. }
  destruct (update_cases 2 departing (Vec3 1 0 0) [] eq_refl eq_refl)
    as [(_ & _ & _ & Hp & Hm)|[(_ & Hgt & _)|(Hge & _)]].
  - simpl. by split.
  - exfalso. simpl in Hgt. rewrite Hd in Hgt. lra.
  - exfalso. simpl in Hge. rewrite Hh in Hge.
    replace (0 - 0) with 0 in Hge by lra. rewrite normalize_0, Rabs_R0 in Hge. lra.
Qed.

Lemma X10_witness :
  moving departing = true ∧ path departing ≠ [] ∧
  path (ticks 1 2 departing) = [] ∧ moving (ticks 1 2 departing) = false ∧
  ∃ w, last (path departing) = Some w ∧
       position (ticks 1 2 departing) = Vec3 (x w) (y w) (z w).
Proof.
  split_and!; [reflexivity|discriminate|exact (proj1 departing_arrives)|
               exact (proj2 departing_arrives)|].
  exact (X10_robot_rests_only_on_last_waypoint 1 2 departing eq_refl
           ltac:(discriminate) (proj1 departing_arrives) (proj2 departing_arrives)).
Defined.


Lemma floor_IZR (n : Z) : floor (IZR n) = n.
Proof.
  unfold floor, Int_part.
  assert (up (IZR n) = (n + 1)%Z) as ->; [|lia].
  symmetry. apply tech_up; rewrite plus_IZR; lra.
Qed.

Lemma cellOf_waypoint c : cellOf (waypoint c) = c.
Proof. destruct c. unfold cellOf, waypoint. simpl. by rewrite !floor_IZR. Qed.

(** X12.  Planning and moving compose.  On a well-formed grid, when some
    route of moves leads from the cell of the robot to a different target
    cell, [setTarget] gives the robot a path of integer waypoints no
    longer than that route, ending on the target cell, and sets [moving];
    and whenever that robot has come to rest after some number of ticks,
    it stands exactly on the target cell. *)
Theorem X12_setTarget_then_rest_only_at_target (gr : Planner.grid) (r : Robot)
    (tx ty tz : R) (q : list Planner.coord) :
  Planner.wellFormed gr = true →
  PlannerWalks.follows gr (cellOf (position r)) q →
  last q = Some (cellOf (Vec3 tx ty tz)) →
  cellOf (position r) ≠ cellOf (Vec3 tx ty tz) →
  ∃ r' : Robot,
    setTarget tx ty tz gr r = Some (Normal r') ∧
    moving r' = true ∧ (0 < length (path r') ≤ length q)%nat ∧
    last (path r') = Some (waypoint (cellOf (Vec3 tx ty tz))) ∧
    ∀ (n : nat) (dt : R),
      path (ticks n dt r') = [] → moving (ticks n dt r') = false →
      position (ticks n dt r') = waypoint (cellOf (Vec3 tx ty tz)).
Proof.
  intros Hwf Hq Hlast Hne.
  destruct (PlannerWalks.findPath_shortest gr _ _ q Hwf Hne Hq Hlast)
    as (p & Hfind & Hnil & Hlen & _ & Hlastp).
  unfold setTarget, calculatePath. simpl. rewrite Hfind. simpl.
  eexists. set (r' := Build_Robot _ _ _ _ _ _ _ _).
  assert (Hact : active r').
  { split; simpl; [|by destruct p].
    apply bool_decide_eq_true. rewrite length_fmap. destruct p; [done|simpl; lia]. }
  destruct Hact as [Hm Hp].
  split_and!; [done|done| | | |].
  - simpl. rewrite length_fmap. destruct p; [done|simpl; lia].
  - simpl. by rewrite length_fmap.
  - simpl. by rewrite fmap_last, Hlastp.
  - intros n dt Hpn Hmn. fold r' in Hpn, Hmn |- *.
    rewrite (arrives n dt r' (conj Hm Hp) (conj Hpn Hmn)).
    unfold destination. simpl. rewrite fmap_last, Hlastp. done.
Qed.

Lemma X12_witness :
  Planner.wellFormed (Planner.createEmptyGrid 2) = true ∧
  PlannerWalks.follows (Planner.createEmptyGrid 2) (cellOf (position parked))
    [Planner.Coord 1 0 0] ∧
  last [Planner.Coord 1 0 0] = Some (cellOf (Vec3 1 0 0)) ∧
  cellOf (position parked) ≠ cellOf (Vec3 1 0 0) ∧
  ∃ r' : Robot,
    setTarget 1 0 0 (Planner.createEmptyGrid 2) parked = Some (Normal r') ∧
    moving r' = true ∧ (0 < length (path r') ≤ 1)%nat ∧
    last (path r') = Some (waypoint (cellOf (Vec3 1 0 0))) ∧
    ∀ (n : nat) (dt : R),
      path (ticks n dt r') = [] → moving (ticks n dt r') = false →
      position (ticks n dt r') = waypoint (cellOf (Vec3 1 0 0)).
Proof.
  assert (Hfrom : cellOf (position parked) = Planner.Coord 0 0 0)
    by (exact (cellOf_waypoint (Planner.Coord 0 0 0))).
  assert (Hto : cellOf (Vec3 1 0 0) = Planner.Coord 1 0 0)
    by (exact (cellOf_waypoint (Planner.Coord 1 0 0))).
  assert (H1 : PlannerWalks.follows (Planner.createEmptyGrid 2)
                 (cellOf (position parked)) [Planner.Coord 1 0 0]).
  { rewrite Hfrom. simpl. unfold PlannerWalks.step, PlannerFacts.adjacent. simpl.
    repeat split; reflexivity. }
  assert (H2 : last [Planner.Coord 1 0 0] = Some (cellOf (Vec3 1 0 0)))
    by (simpl; by rewrite Hto).
  assert (H3 : cellOf (position parked) ≠ cellOf (Vec3 1 0 0))
    by (by rewrite Hfrom, Hto).
  split_and!; [reflexivity|exact H1|exact H2|exact H3|].
  exact (X12_setTarget_then_rest_only_at_target (Planner.createEmptyGrid 2) parked
           1 0 0 [Planner.Coord 1 0 0] eq_refl H1 H2 H3).
Defined.

End RobotExtras.

(** * Further properties of the detection models *)

Section ModelsExtras.
Import Models ModelsFacts.
Local Open Scope R_scope.

Lemma rate_range (missed total : Z) :
  (0 <= missed <= total)%Z → 0 <= rate missed total <= 100.
Proof.
  intros [Hlo Hhi]. unfold rate. destruct (Z.ltb_spec 0 total) as [Hpos|_]; [|lra].
  apply IZR_le in Hlo, Hhi. apply IZR_lt in Hpos.
  assert (Hq : 0 <= IZR missed / IZR total <= 1).
  { split.
    - apply Rmult_le_pos; [done|]. by apply Rlt_le, Rinv_0_lt_compat.
    - apply (Rmult_le_reg_r (IZR total)); [done|].
      replace (IZR missed / IZR total * IZR total) with (IZR missed) by (field; lra).
      lra. }
  lra.
Qed.

Lemma runPasses_bounds k passes : ∀ m s,
  (0 <= missedDetections m <= totalDetections m)%Z →
  missRate m = rate (missedDetections m) (totalDetections m) →
  let m' := (runPasses k passes m s).1.2 in
  (0 <= missedDetections m' <= totalDetections m')%Z ∧
  missRate m' = rate (missedDetections m') (totalDetections m').
Proof.
  induction passes as [|[[[t0 t1] vd] boxes] passes IH]; intros m s Hb Hm; [done|].
  simpl. pose proof (detect_model k t0 t1 vd boxes m s) as Hd.
  destruct (detect k t0 t1 vd boxes m s) as [[r m1] s1].
  destruct Hd as (Hm1 & _).
  pose proof (runDetection_counts k vd boxes m s) as (Hl & Ht & Hmi & Hr).
  assert (Hb1 : (0 <= missedDetections m1 <= totalDetections m1)%Z)
    by (subst m1; simpl; lia).
  assert (Hr1 : missRate m1 = rate (missedDetections m1) (totalDetections m1))
    by (subst m1; exact Hr).
  specialize (IH m1 s1 Hb1 Hr1).
  destruct (runPasses k passes m1 s1) as [[rs m2] s2]. exact IH.
Qed.

(** X13.  After any passes since a reset, a model has missed no more
    entities than it has evaluated, and the miss-rate it holds is a
    percentage between 0 and 100. *)
Theorem X13_missRate_is_a_percentage (k : variant) (m0 : AIModel) (s : rng)
    (passes : list pass) :
  let m := (runPasses k passes (reset m0) s).1.2 in
  (0 <= missedDetections m <= totalDetections m)%Z ∧
  0 <= missRate m <= 100.
Proof.
  pose proof (runPasses_bounds k passes (reset m0) s ltac:(simpl; lia) eq_refl)
    as [Hb Hr].
  cbv zeta in *. split; [done|]. rewrite Hr. by apply rate_range.
Qed.

(** A box is missed, or recorded at its own position with a confidence
    that has passed the threshold. *)
Definition scoresWell (th : R) (f : scoring → box → scoring) : Prop :=
  ∀ dets detected s b,
    (∃ s', f (dets, detected, s) b = (dets, detected, s')) ∨
    (∃ d s', f (dets, detected, s) b = (dets ++ [d], (detected + 1)%Z, s') ∧
             dposition d = position b ∧ th <= confidence d).

Lemma Baseline_scoresWell th : scoresWell th (Baseline_score th).
Proof.
  intros dets detected s b. unfold Baseline_score, Math_random.
  destruct (Rlt_dec _ th) as [|Hth]; [left; by eexists|].
  destruct (Rlt_dec _ 0.1); [left; by eexists|].
  right. do 2 eexists. split; [done|]. simpl. split; [by destruct (position b)|lra].
Qed.

Lemma QINA_scoresWell th : scoresWell th (QINA_score th).
Proof.
  intros dets detected s b. unfold QINA_score, Math_random.
  destruct (Rlt_dec _ th) as [|Hth]; [left; by eexists|].
  destruct (Rlt_dec _ 0.02); [left; by eexists|].
  right. do 2 eexists. split; [done|]. simpl. split; [by destruct (position b)|lra].
Qed.

Lemma scoresWell_foldl th f boxes : scoresWell th f → ∀ dets detected s,
  ∃ new, (foldl f (dets, detected, s) boxes).1.1 = dets ++ new ∧
         (dposition <$> new) `sublist_of` (position <$> boxes) ∧
         Forall (λ d, th <= confidence d) new.
Proof.
  intros Hf. induction boxes as [|b boxes IH]; intros dets detected s.
  - exists []. simpl. by rewrite app_nil_r.
  - simpl. destruct (Hf dets detected s b) as [(s1 & ->)|(d & s1 & -> & Hp & Hc)].
    + destruct (IH dets detected s1) as (new & -> & Hsub & Hall).
      exists new. split_and!; [done| |done]. by apply sublist_cons.
    + destruct (IH (dets ++ [d]) (detected + 1)%Z s1) as (new & -> & Hsub & Hall).
      exists (d :: new). rewrite <- app_assoc. split_and!; [done| |].
      * rewrite !fmap_cons, Hp. by apply sublist_skip.
      * by apply Forall_cons.
Qed.

(** X14.  The detections of a pass are taken from its boxes: their
    positions are the positions of some of the boxes, in the order of the
    boxes, each box at most once, and every confidence has reached the
    threshold of the model.  Nothing is kept from earlier passes. *)
Theorem X14_detections_come_from_the_boxes (k : variant) (vd : visualData)
    (boxes : list box) (m : AIModel) (s : rng) :
  let m' := (runDetection k vd boxes m s).1 in
  (dposition <$> detections m') `sublist_of` (position <$> boxes) ∧
  Forall (λ d, threshold m <= confidence d) (detections m') ∧
  (length (detections m') ≤ length boxes)%nat.
Proof.
  assert (H : ∀ f, scoresWell (threshold m) f →
            let dets := (foldl f ([], 0%Z, s) boxes).1.1 in
            (dposition <$> dets) `sublist_of` (position <$> boxes) ∧
            Forall (λ d, threshold m <= confidence d) dets ∧
            (length dets ≤ length boxes)%nat).
  { intros f Hf. destruct (scoresWell_foldl _ f boxes Hf [] 0%Z s)
      as (new & Hnew & Hsub & Hall).
    cbv zeta. rewrite Hnew. simpl. split_and!; [done|done|].
    apply sublist_length in Hsub. by rewrite !length_fmap in Hsub. }
  destruct k; simpl; unfold Baseline_runDetection, QINA_runDetection.
  - specialize (H _ (Baseline_scoresWell (threshold m))).
    destruct (foldl _ _ boxes) as [[dets detected] s']. exact H.
  - specialize (H _ (QINA_scoresWell (threshold m))).
    destruct (foldl _ _ boxes) as [[dets detected] s']. exact H.
Qed.

(** X15.  For a box of the warehouse (scale between 0.5 and 1.5) and a
    noise draw in [0, 1), the probability QINA computes is at least 0.6,
    above its threshold 0.3: QINA misses the box exactly when the second
    draw falls below 0.02. *)
Theorem X15_QINA_misses_only_by_the_systematic_draw (b : box) (s : rng) :
  0.5 <= scale b <= 1.5 → 0 <= s O < 1 →
  (QINA_misses (b, s) = true ↔ s 1%nat < 0.02).
Proof.
  intros Hsc Hu. unfold QINA_misses, isMiss, QINA_score, Math_random. simpl.
  assert (Hrot : Rabs (sin (rotation b * PI / 90)) <= 1).
  { apply Rabs_le. pose proof (SIN_bound (rotation b * PI / 90)). lra. }
  assert (Hs : Rabs (scale b - 1.0) <= 0.5) by (apply Rabs_le; lra).
  set (rot := Rabs (sin _)) in *. set (sc := Rabs (scale b - 1.0)) in *.
  destruct (Rlt_dec (1.0 - rot * 0.2 - sc * 0.2 - s O * 0.1) 0.3) as [Hlt|_];
    [exfalso; lra|].
  destruct (Rlt_dec (s 1%nat) 0.02) as [Hv|Hv]; [done|].
  split; [|done]. intros H. by destruct (@nil detection).
Qed.

Lemma X15_witness :
  0.5 <= scale (Box (Vec3 8 0 8) 45 1) <= 1.5 ∧ 0 <= 0 < 1 ∧
  (QINA_misses (Box (Vec3 8 0 8) 45 1, λ _, 0) = true ↔ 0 < 0.02).
Proof.
  assert (H1 : 0.5 <= scale (Box (Vec3 8 0 8) 45 1) <= 1.5) by (simpl; lra).
  assert (H2 : 0 <= 0 < 1) by lra.
  split_and!; [exact (proj1 H1)|exact (proj2 H1)|exact (proj1 H2)|exact (proj2 H2)|].
  exact (X15_QINA_misses_only_by_the_systematic_draw
           (Box (Vec3 8 0 8) 45 1) (λ _, 0) H1 H2).
Defined.

End ModelsExtras.

(** * Facts about the warehouse, the synthetic field and the application *)

Module WarehouseFacts.
Import Models Planner.
Local Open Scope Z_scope.

(** ** Cubes of cells *)

(** An array of [n] arrays of [n] arrays of [n] cells. *)
Definition cubic {A} (n : nat) (gr : list (list (list A))) : Prop :=
  length gr = n ∧
  Forall (λ plane, length plane = n ∧ Forall (λ row : list A, length row = n) plane) gr.

Definition cellAt {A} (gr : list (list (list A))) (c : coord) : option A :=
  plane ← gr !! Z.to_nat (cx c);
  row ← plane !! Z.to_nat (cy c);
  row !! Z.to_nat (cz c).

(** [gr[x][y][z] = v] for an index that passed the bounds check. *)
Definition write3 {A} (gr : list (list (list A))) (c : coord) (v : A)
    : list (list (list A)) :=
  match gr !! Z.to_nat (cx c) with
  | None => gr
  | Some plane =>
      match plane !! Z.to_nat (cy c) with
      | None => gr
      | Some row =>
          <[Z.to_nat (cx c) :=
            <[Z.to_nat (cy c) := <[Z.to_nat (cz c) := v]> row]> plane]> gr
      end
  end.

Lemma cell_cellAt gr c : cell gr c = cellAt gr c.
Proof. done. Qed.

Lemma setCell_write3 gr c v :
  setCell gr (Z.to_nat (cx c)) (Z.to_nat (cy c)) (Z.to_nat (cz c)) v = write3 gr c v.
Proof. done. Qed.

Lemma write_write3 vd c v : Generator.write vd c v = write3 vd c v.
Proof. done. Qed.

Lemma inside_spec n c :
  Warehouse.inside n c = true ↔
  0 <= cx c < Z.of_nat n ∧ 0 <= cy c < Z.of_nat n ∧ 0 <= cz c < Z.of_nat n.
Proof. unfold Warehouse.inside. lia. Qed.

Lemma cubic_replicate {A} n (a : A) :
  cubic n (replicate n (replicate n (replicate n a))).
Proof.
  split; [by rewrite length_replicate|].
  apply Forall_replicate. split; [by rewrite length_replicate|].
  apply Forall_replicate. by rewrite length_replicate.
Qed.

Lemma cellAt_replicate {A} n (a : A) c :
  Warehouse.inside n c = true →
  cellAt (replicate n (replicate n (replicate n a))) c = Some a.
Proof.
  intros Hc%inside_spec. unfold cellAt.
  rewrite lookup_replicate_2 by lia. simpl.
  rewrite lookup_replicate_2 by lia. simpl.
  by rewrite lookup_replicate_2 by lia.
Qed.

Lemma cubic_write3 {A} n (gr : list (list (list A))) c v :
  cubic n gr → cubic n (write3 gr c v).
Proof.
  intros [Hlen Hall]. unfold write3.
  destruct (gr !! Z.to_nat (cx c)) as [plane|] eqn:Hp; [|done].
  destruct (plane !! Z.to_nat (cy c)) as [row|] eqn:Hr; [|done].
  assert (Hplane := proj1 (Forall_lookup _ _) Hall _ _ Hp). simpl in Hplane.
  destruct Hplane as [Hpl Hrows].
  assert (Hrow := proj1 (Forall_lookup _ _) Hrows _ _ Hr). simpl in Hrow.
  split; [by rewrite length_insert|].
  apply Forall_insert; [done|]. split; [by rewrite length_insert|].
  apply Forall_insert; [done|]. by rewrite length_insert.
Qed.

Lemma cubic_cellAt {A} n (gr : list (list (list A))) c :
  cubic n gr → Warehouse.inside n c = true → is_Some (cellAt gr c).
Proof.
  intros [Hlen Hall] Hc%inside_spec. unfold cellAt.
  destruct (lookup_lt_is_Some_2 gr (Z.to_nat (cx c))) as [plane Hp]; [lia|].
  rewrite Hp. simpl.
  assert (Hplane := proj1 (Forall_lookup _ _) Hall _ _ Hp). simpl in Hplane.
  destruct Hplane as [Hpl Hrows].
  destruct (lookup_lt_is_Some_2 plane (Z.to_nat (cy c))) as [row Hr]; [lia|].
  rewrite Hr. simpl.
  assert (Hrow := proj1 (Forall_lookup _ _) Hrows _ _ Hr). simpl in Hrow.
  apply lookup_lt_is_Some_2. lia.
Qed.

Lemma cellAt_write3 {A} n (gr : list (list (list A))) c0 c v :
  cubic n gr → Warehouse.inside n c0 = true → Warehouse.inside n c = true →
  cellAt (write3 gr c0 v) c = if decide (c = c0) then Some v else cellAt gr c.
Proof.
  intros [Hlen Hall] H0%inside_spec Hc%inside_spec. unfold write3, cellAt.
  destruct (lookup_lt_is_Some_2 gr (Z.to_nat (cx c0))) as [plane Hp]; [lia|].
  rewrite Hp.
  assert (Hplane := proj1 (Forall_lookup _ _) Hall _ _ Hp). simpl in Hplane.
  destruct Hplane as [Hpl Hrows].
  destruct (lookup_lt_is_Some_2 plane (Z.to_nat (cy c0))) as [row Hr]; [lia|].
  rewrite Hr.
  assert (Hrow := proj1 (Forall_lookup _ _) Hrows _ _ Hr). simpl in Hrow.
  destruct c as [a b d], c0 as [a0 b0 d0]. simpl in *.
  rewrite list_lookup_insert.
  destruct (decide (Z.to_nat a0 = Z.to_nat a ∧ _)) as [[Ha _]|Ha].
  - assert (a = a0) as -> by lia. simpl. rewrite Hp. simpl.
    rewrite list_lookup_insert.
    destruct (decide (Z.to_nat b0 = Z.to_nat b ∧ _)) as [[Hb _]|Hb].
    + assert (b = b0) as -> by lia. simpl. rewrite Hr. simpl.
      rewrite list_lookup_insert.
      destruct (decide (Z.to_nat d0 = Z.to_nat d ∧ _)) as [[Hd _]|Hd].
      * assert (d = d0) as -> by lia. by rewrite decide_True.
      * rewrite decide_False; [done|]. intros [= ->]. apply Hd. lia.
    + rewrite decide_False; [done|]. intros [= ->]. apply Hb. lia.
  - rewrite decide_False; [done|]. intros [= -> _ _]. apply Ha. lia.
Qed.

Lemma cubic_wellFormed n (gr : grid) : cubic n gr → wellFormed gr = true.
Proof.
  intros [Hlen Hall]. unfold wellFormed. apply forallb_forall. intros plane Hin.
  apply list_elem_of_In in Hin.
  assert (Hplane := proj1 (Forall_forall _ _) Hall _ Hin). simpl in Hplane.
  destruct Hplane as [Hpl Hrows].
  apply andb_true_iff. split; [apply Nat.eqb_eq; lia|].
  apply forallb_forall. intros row Hrin. apply list_elem_of_In in Hrin.
  assert (Hrow := proj1 (Forall_forall _ _) Hrows _ Hrin). simpl in Hrow.
  apply Nat.eqb_eq. lia.
Qed.

Lemma inside_inBounds n (gr : grid) c :
  length gr = n → inBounds gr c = Warehouse.inside n c.
Proof. intros <-. done. Qed.


(** ** [updateBoxes] in closed form *)

Local Open Scope R_scope.

(** What the loop of [updateBoxes] makes of a box, given its draw. *)
Definition changedBox (u : R) (b : box) : box :=
  Box (position b) (Warehouse.jsRem (rotation b + 45) 360)
      (Rmin 1.5 (Rmax 0.5 (scale b + (if Rlt_dec 0.5 u then 0.1 else - 0.1)))).

(** What it makes of the grid. *)
Definition mark (n : nat) (gr : grid) (b : box) : grid :=
  if Warehouse.inside n (Robot.cellOf (position b))
  then write3 gr (Robot.cellOf (position b)) 1%Z else gr.

(** The cells that hold a box. *)
Definition cells (bs : list box) : list coord :=
  (λ b, Robot.cellOf (position b)) <$> bs.

Lemma updateBox_eq n acc gr (s : rng) b :
  Warehouse.updateBox n (acc, gr, s) b =
  (acc ++ [changedBox (s O) b], mark n gr b, λ k, s (S k)).
Proof. done. Qed.

Lemma foldl_updateBox n bs : ∀ acc gr s,
  foldl (Warehouse.updateBox n) (acc, gr, s) bs =
  (acc ++ imap (λ i, changedBox (s i)) bs, foldl (mark n) gr bs,
   λ k, s (length bs + k)%nat).
Proof.
  induction bs as [|b bs IH]; intros acc gr s.
  - simpl. by rewrite app_nil_r.
  - cbn [foldl]. rewrite updateBox_eq, IH, <- app_assoc. done.
Qed.

Lemma updateBoxes_eq w s :
  Warehouse.updateBoxes w s =
  ({| Warehouse.gridSize := Warehouse.gridSize w;
      Warehouse.boxes := imap (λ i, changedBox (s i)) (Warehouse.boxes w);
      Warehouse.grid := foldl (mark (Warehouse.gridSize w))
                          (createEmptyGrid (Warehouse.gridSize w)) (Warehouse.boxes w);
      Warehouse.lastBoxUpdateTime := Warehouse.lastBoxUpdateTime w;
      Warehouse.updateInterval := Warehouse.updateInterval w |},
   λ k, s (length (Warehouse.boxes w) + k)%nat).
Proof. unfold Warehouse.updateBoxes. by rewrite foldl_updateBox. Qed.

Lemma cubic_mark n gr b : cubic n gr → cubic n (mark n gr b).
Proof.
  intros Hgr. unfold mark.
  destruct (Warehouse.inside n (Robot.cellOf (position b)));
    [by apply cubic_write3|done].
Qed.

Lemma cubic_marks n bs : ∀ gr, cubic n gr → cubic n (foldl (mark n) gr bs).
Proof.
  induction bs as [|b bs IH]; intros gr Hgr; [done|]. simpl. by apply IH, cubic_mark.
Qed.

Lemma cellAt_marks n bs c : ∀ gr,
  cubic n gr → Warehouse.inside n c = true →
  cellAt (foldl (mark n) gr bs) c =
  if decide (c ∈ cells bs) then Some 1%Z else cellAt gr c.
Proof.
  induction bs as [|b bs IH]; intros gr Hgr Hc.
  - cbn [foldl]. rewrite decide_False; [done|]. unfold cells. simpl.
    by intros ?%elem_of_nil.
  - simpl. assert (Hgr' : cubic n (mark n gr b)) by by apply cubic_mark.
    rewrite (IH _ Hgr' Hc). unfold cells. simpl. fold (cells bs).
    destruct (decide (c ∈ cells bs)) as [Hin|Hout].
    + rewrite decide_True; [done|]. by apply list_elem_of_further.
    + unfold mark. destruct (Warehouse.inside n (Robot.cellOf (position b))) eqn:Hb.
      * rewrite (cellAt_write3 n) by done.
        destruct (decide (c = Robot.cellOf (position b))) as [->|Hne].
        -- rewrite decide_True; [done|]. apply list_elem_of_here.
        -- rewrite decide_False; [done|]. by intros [?|?]%elem_of_cons.
      * rewrite decide_False; [done|]. intros [->|?]%elem_of_cons; [|done].
        congruence.
Qed.

Lemma cells_changed (f : nat → R) bs :
  cells (imap (λ i, changedBox (f i)) bs) = cells bs.
Proof.
  unfold cells. apply list_eq. intros i.
  rewrite !list_lookup_fmap, list_lookup_imap. by destruct (bs !! i).
Qed.

Lemma clamp_range v : 0.5 <= Rmin 1.5 (Rmax 0.5 v) <= 1.5.
Proof.
  unfold Rmin, Rmax. destruct (Rle_dec 0.5 v); destruct (Rle_dec 1.5 _); lra.
Qed.

(** ** Rotations *)

Lemma floor_bounds q : IZR (Robot.floor q) <= q < IZR (Robot.floor q) + 1.
Proof. unfold Robot.floor. destruct (base_Int_part q). lra. Qed.


Lemma jsRem_nonneg a b : 0 <= a → 0 < b →
  0 <= Warehouse.jsRem a b < b ∧ ∃ k : Z, Warehouse.jsRem a b = a - b * IZR k.
Proof.
  intros Ha Hb. unfold Warehouse.jsRem, Warehouse.trunc.
  assert (Hq : 0 <= a / b).
  { apply Rmult_le_pos; [done|]. by apply Rlt_le, Rinv_0_lt_compat. }
  destruct (Rle_dec 0 (a / b)); [|lra].
  destruct (floor_bounds (a / b)) as [Hlo Hhi].
  split; [|by eexists].
  assert (Ha' : a = b * (a / b)) by (field; lra).
  assert (H1 : b * IZR (Robot.floor (a / b)) <= b * (a / b))
    by (apply Rmult_le_compat_l; lra).
  assert (H2 : b * (a / b) < b * (IZR (Robot.floor (a / b)) + 1))
    by (apply Rmult_lt_compat_l; lra).
  lra.
Qed.

(** The rotation of a box after [k] rounds of [updateBoxes]. *)
Definition turned (k : nat) (r : R) : R :=
  Nat.iter k (λ r, Warehouse.jsRem (r + 45) 360) r.

Lemma turned_spec k r : 0 <= r < 360 →
  0 <= turned k r < 360 ∧ ∃ j : Z, turned k r = r + 45 * INR k - 360 * IZR j.
Proof.
  intros Hr. induction k as [|k [IHr [j IHj]]].
  - split; [done|]. exists 0%Z. simpl. lra.
  - unfold turned in *. rewrite Nat.iter_succ.
    destruct (jsRem_nonneg (Nat.iter k (λ r, Warehouse.jsRem (r + 45) 360) r + 45) 360)
      as [Hrange [i Hi]]; [lra|lra|].
    split; [done|]. exists (j + i)%Z. rewrite Hi, IHj, S_INR, plus_IZR. lra.
Qed.

(** [k] rounds of [updateBoxes]. *)
Fixpoint updates (k : nat) (w : Warehouse.WarehouseEnvironment) (s : rng)
    : Warehouse.WarehouseEnvironment * rng :=
  match k with
  | O => (w, s)
  | S k' => let (w', s') := Warehouse.updateBoxes w s in updates k' w' s'
  end.

Lemma updates_rotation k : ∀ w s,
  rotation <$> Warehouse.boxes (updates k w s).1 =
  turned k <$> (rotation <$> Warehouse.boxes w).
Proof.
  induction k as [|k IH]; intros w s.
  - simpl. apply list_eq. intros i. rewrite !list_lookup_fmap.
    by destruct (Warehouse.boxes w !! i).
  - simpl. rewrite updateBoxes_eq, IH. simpl.
    apply list_eq. intros i. rewrite !list_lookup_fmap, list_lookup_imap.
    destruct (Warehouse.boxes w !! i) as [b|]; [|done]. simpl. f_equal.
    unfold turned. symmetry.
    apply (Nat.iter_succ_r k R (λ r, Warehouse.jsRem (r + 45) 360) (rotation b)).
Qed.


(** ** [addBox] and [reset] *)

Lemma writeGrid_inside n gr c :
  cubic n gr → Warehouse.inside n c = true →
  Warehouse.writeGrid gr c = Normal (write3 gr c 1%Z).
Proof.
  intros [Hlen Hall] Hc%inside_spec.
  unfold Warehouse.writeGrid, Warehouse.at_index, Warehouse.writeRow, write3.
  destruct (Z.ltb_spec (cx c) 0) as [?|_]; [lia|].
  destruct (lookup_lt_is_Some_2 gr (Z.to_nat (cx c))) as [plane Hp]; [lia|].
  rewrite Hp.
  assert (Hplane := proj1 (Forall_lookup _ _) Hall _ _ Hp). simpl in Hplane.
  destruct Hplane as [Hpl Hrows].
  destruct (Z.ltb_spec (cy c) 0) as [?|_]; [lia|].
  destruct (lookup_lt_is_Some_2 plane (Z.to_nat (cy c))) as [row Hr]; [lia|].
  rewrite Hr.
  assert (Hrow := proj1 (Forall_lookup _ _) Hrows _ _ Hr). simpl in Hrow.
  destruct (Z.ltb_spec (cz c) 0) as [?|_]; [lia|].
  destruct (Z.ltb_spec (cz c) (Z.of_nat (length row))) as [_|?]; [done|lia].
Qed.

Lemma writeGrid_no_plane (gr : grid) c :
  (Z.of_nat (length gr) <= cx c)%Z → Warehouse.writeGrid gr c = Throw "TypeError".
Proof.
  intros Hc. unfold Warehouse.writeGrid, Warehouse.at_index.
  destruct (Z.ltb_spec (cx c) 0) as [?|_]; [done|].
  rewrite lookup_ge_None_2; [done|lia].
Qed.

Lemma cellOf_whole (a b d : Z) :
  Robot.cellOf (Vec3 (IZR a) (IZR b) (IZR d)) = Coord a b d.
Proof. unfold Robot.cellOf. simpl. by rewrite !floor_IZR. Qed.

(** The grid shows the boxes, and nothing else. *)
Definition marks (n : nat) (gr : grid) (bs : list box) : Prop :=
  cubic n gr ∧
  ∀ c, Warehouse.inside n c = true →
       cell gr c = Some (if decide (c ∈ cells bs) then 1 else 0)%Z.

Lemma marks_foldl n bs : marks n (foldl (mark n) (createEmptyGrid n) bs) bs.
Proof.
  split; [apply cubic_marks, cubic_replicate|].
  intros c Hc. rewrite cell_cellAt, (cellAt_marks n) by (done || apply cubic_replicate).
  destruct (decide (c ∈ cells bs)); [done|]. by apply cellAt_replicate.
Qed.

Lemma cellAt_Forall {A} (P : A → Prop) (gr : list (list (list A))) c v :
  Forall (Forall (Forall P)) gr → cellAt gr c = Some v → P v.
Proof.
  intros Hall. unfold cellAt.
  destruct (gr !! Z.to_nat (cx c)) as [plane|] eqn:Hp; [|done]. simpl.
  destruct (plane !! Z.to_nat (cy c)) as [row|] eqn:Hr; [|done]. simpl.
  intros Hv.
  assert (H1 := proj1 (Forall_lookup _ _) Hall _ _ Hp).
  assert (H2 := proj1 (Forall_lookup _ _) H1 _ _ Hr).
  exact (proj1 (Forall_lookup _ _) H2 _ _ Hv).
Qed.

Lemma obstacleFree_empty n : obstacleFree (createEmptyGrid n) = true.
Proof.
  unfold obstacleFree, createEmptyGrid.
  apply forallb_forall. intros plane Hp%list_elem_of_In%elem_of_replicate. 
  destruct Hp as [-> _].
  apply forallb_forall. intros row Hr%list_elem_of_In%elem_of_replicate.
  destruct Hr as [-> _].
  apply forallb_forall. intros v Hv%list_elem_of_In%elem_of_replicate.
  by destruct Hv as [-> _].
Qed.

(** ** The synthetic field *)

Lemma fill_spec {A} (I : rng → Prop) (P : A → Prop) n item :
  (∀ s, I s → P (item s).1 ∧ I (item s).2) →
  ∀ s, I s →
    length (Generator.fill n item s).1 = n ∧
    Forall P (Generator.fill n item s).1 ∧ I (Generator.fill n item s).2.
Proof.
  intros Hitem. induction n as [|n IH]; intros s Hs; [done|].
  simpl. destruct (Hitem s Hs) as [Hp Hi].
  destruct (item s) as [a s1]. simpl in Hp, Hi.
  destruct (IH s1 Hi) as (Hlen & Hall & Hi2).
  destruct (Generator.fill n item s1) as [l s2]. simpl in *.
  split_and!; [lia|by constructor|done].
Qed.

(** Draws as [Math.random()] gives them. *)
Definition unitDraws (s : rng) : Prop := ∀ k, 0 <= s k < 1.

Lemma noise_spec n s : unitDraws s →
  cubic n (Generator.noise n s).1 ∧
  Forall (Forall (Forall (λ v, 0 <= v < 0.1))) (Generator.noise n s).1.
Proof.
  intros Hs. unfold Generator.noise.
  pose (cell_ := λ s : rng, let (u, s') := Math_random s in (u * 0.1, s')).
  assert (H0 : ∀ s, unitDraws s →
            (λ v, 0 <= v < 0.1) (cell_ s).1 ∧ unitDraws (cell_ s).2).
  { intros s0 H. unfold cell_, Math_random. simpl. split; [specialize (H O); lra|].
    intros k. apply H. }
  assert (H1 := fill_spec unitDraws _ n cell_ H0).
  assert (H1' : ∀ s, unitDraws s →
            (λ row, length row = n ∧ Forall (λ v, 0 <= v < 0.1) row)
              (Generator.fill n cell_ s).1 ∧ unitDraws (Generator.fill n cell_ s).2).
  { intros s0 H. destruct (H1 s0 H) as (? & ? & ?). done. }
  assert (H2 := fill_spec unitDraws _ n _ H1').
  assert (H2' : ∀ s, unitDraws s →
            (λ plane, length plane = n ∧
               Forall (λ row, length row = n ∧ Forall (λ v, 0 <= v < 0.1) row) plane)
              (Generator.fill n (Generator.fill n cell_) s).1 ∧
            unitDraws (Generator.fill n (Generator.fill n cell_) s).2).
  { intros s0 H. destruct (H2 s0 H) as (? & ? & ?). done. }
  destruct (fill_spec unitDraws _ n _ H2' s Hs) as (Hlen & Hall & _).
  fold cell_. split.
  - split; [done|]. eapply Forall_impl; [exact Hall|]. simpl.
    intros plane [Hpl Hrows]. split; [done|].
    eapply Forall_impl; [exact Hrows|]. simpl. by intros row [? _].
  - eapply Forall_impl; [exact Hall|]. simpl. intros plane [_ Hrows].
    eapply Forall_impl; [exact Hrows|]. simpl. by intros row [_ ?].
Qed.

(** The intensity [generate] writes for a box. *)
Definition intensity (b : box) : R :=
  0.7 + 0.3 * scale b * (0.7 + 0.3 * Rabs (cos (rotation b * PI / 180))).

Lemma intensity_range b : 0 <= scale b →
  0.7 + 0.21 * scale b <= intensity b <= 0.7 + 0.3 * scale b.
Proof.
  intros Hs. unfold intensity.
  assert (Hc : 0 <= Rabs (cos (rotation b * PI / 180)) <= 1).
  { split; [apply Rabs_pos|]. apply RobotFacts.Rabs_le_between.
    pose proof (COS_bound (rotation b * PI / 180)). lra. }
  split; nra.
Qed.

Lemma paint_box n vd b : cubic n vd →
  ∃ vd1, Generator.paint n vd (Generator.BoxObject b) = Normal vd1 ∧ cubic n vd1 ∧
    ∀ c, Warehouse.inside n c = true →
      cellAt vd1 c = if decide (c = Robot.cellOf (position b))
                     then Some (intensity b) else cellAt vd c.
Proof.
  intros Hvd. unfold Generator.paint.
  destruct (Warehouse.inside n (Robot.cellOf (position b))) eqn:Hb.
  - eexists. split_and!; [done|by apply cubic_write3|].
    intros c Hc. rewrite write_write3. by apply (cellAt_write3 n).
  - eexists. split_and!; [done|done|]. intros c Hc.
    rewrite decide_False; [done|]. intros ->. congruence.
Qed.

Lemma paintAll_boxes n bs : ∀ vd, cubic n vd →
  ∃ vd', Generator.paintAll n vd (Generator.BoxObject <$> bs) = Normal vd' ∧
         cubic n vd' ∧
         ∀ c, Warehouse.inside n c = true →
           if decide (c ∈ cells bs)
           then ∃ b, b ∈ bs ∧ cellAt vd' c = Some (intensity b)
           else cellAt vd' c = cellAt vd c.
Proof.
  induction bs as [|b bs IH]; intros vd Hvd.
  - exists vd. split_and!; [done|done|]. intros c _.
    rewrite decide_False; [done|]. unfold cells. simpl. by intros ?%elem_of_nil.
  - cbn [fmap list_fmap Generator.paintAll].
    destruct (paint_box n vd b Hvd) as (vd1 & Heq & Hvd1 & Hcell).
    rewrite Heq.
    destruct (IH vd1 Hvd1) as (vd' & Hp & Hvd' & Hcells).
    exists vd'. split_and!; [done|done|]. intros c Hc.
    specialize (Hcells c Hc). specialize (Hcell c Hc).
    unfold cells. simpl. fold (cells bs).
    destruct (decide (c ∈ cells bs)) as [Hin|Hout].
    + rewrite decide_True by by apply list_elem_of_further.
      destruct Hcells as (b' & Hb' & Hv). exists b'. split; [|done].
      by apply list_elem_of_further.
    + rewrite Hcells, Hcell.
      destruct (decide (c = Robot.cellOf (position b))) as [->|Hne].
      * rewrite decide_True by apply list_elem_of_here.
        exists b. split; [apply list_elem_of_here|done].
      * rewrite decide_False; [done|]. by intros [?|?]%elem_of_cons.
Qed.

Lemma paintAll_flat n vd fs :
  Generator.paintAll n vd (Generator.Flat <$> fs) =
  match fs with [] => Normal vd | _ :: _ => Throw "TypeError" end.
Proof. by destruct fs. Qed.

Lemma generate_flat n w s :
  Warehouse.boxes w ≠ [] →
  ∃ s', Generator.generate n (Generator.Flat <$> Warehouse.getBoxPositions w) s
        = (Throw "TypeError", s').
Proof.
  intros Hne. unfold Generator.generate, Warehouse.getBoxPositions.
  destruct (Generator.noise n s) as [vd s']. exists s'.
  rewrite paintAll_flat. by destruct (Warehouse.boxes w).
Qed.


(** ** [initializeBoxes] *)

Lemma initializeBoxes_fits n w (s : rng) :
  cubic n (Warehouse.grid w) → (8 < n)%nat →
  Warehouse.initializeBoxes w s =
  (Normal (),
   {| Warehouse.gridSize := Warehouse.gridSize w;
      Warehouse.boxes := (Warehouse.boxes w ++ [Box (Vec3 8 0 8) (s 0%nat * 360) (0.5 + s 1%nat)])
                           ++ [Box (Vec3 5 0 3) (s 2%nat * 360) (0.5 + s 3%nat)];
      Warehouse.grid := write3 (write3 (Warehouse.grid w) (Coord 8 0 8) 1%Z) (Coord 5 0 3) 1%Z;
      Warehouse.lastBoxUpdateTime := Warehouse.lastBoxUpdateTime w;
      Warehouse.updateInterval := Warehouse.updateInterval w |},
   λ k, s (4 + k)%nat).
Proof.
  intros Hgr Hn. unfold Warehouse.initializeBoxes, Warehouse.addBox, Math_random.
  rewrite (cellOf_whole 8 0 8).
  rewrite (writeGrid_inside n) by (done || (apply inside_spec; simpl; lia)).
  cbn [Warehouse.grid Warehouse.boxes Warehouse.gridSize
       Warehouse.lastBoxUpdateTime Warehouse.updateInterval].
  rewrite (cellOf_whole 5 0 3).
  rewrite (writeGrid_inside n)
    by (by apply cubic_write3 || (apply inside_spec; simpl; lia)).
  done.
Qed.

Lemma initializeBoxes_small w (s : rng) :
  (length (Warehouse.grid w) ≤ 8)%nat →
  Warehouse.initializeBoxes w s =
  (Throw "TypeError",
   {| Warehouse.gridSize := Warehouse.gridSize w;
      Warehouse.boxes := Warehouse.boxes w ++ [Box (Vec3 8 0 8) (s 0%nat * 360) (0.5 + s 1%nat)];
      Warehouse.grid := Warehouse.grid w;
      Warehouse.lastBoxUpdateTime := Warehouse.lastBoxUpdateTime w;
      Warehouse.updateInterval := Warehouse.updateInterval w |},
   λ k, s (2 + k)%nat).
Proof.
  intros Hn. unfold Warehouse.initializeBoxes, Warehouse.addBox, Math_random.
  rewrite (cellOf_whole 8 0 8).
  rewrite writeGrid_no_plane by (simpl; lia). done.
Qed.

(** ** Routes over a grid *)

Lemma follows_free (gr : grid) : ∀ q a, PlannerWalks.follows gr a q →
  Forall (λ c, inBounds gr c = true ∧ notObstacle gr c = Normal true) q.
Proof.
  induction q as [|c q IH]; intros a Hf; [done|].
  destruct Hf as [(_ & Hb & Hfree) Hf]. apply Forall_cons. split; [done|].
  by apply (IH c).
Qed.

Lemma findPath_route (gr : grid) start goal : wellFormed gr = true →
  ∃ p, findPath gr start goal = Some (Normal p) ∧ PlannerWalks.follows gr start p.
Proof.
  intros Hwf. destruct (PlannerFacts.findPath_terminates gr start goal) as [r Hr].
  assert (Hr' := Hr). unfold findPath in Hr'.
  destruct (decide (start = goal)) as [_|Hne].
  { injection Hr' as <-. by exists []. }
  destruct r as [p|e]; [|by apply PlannerFacts.search_wellFormed in Hr'].
  exists p. split; [done|].
  destruct (PlannerWalks.search_Forall gr goal (PlannerWalks.traced gr start)
              (PlannerWalks.traced_fresh gr start goal)
              (λ c old Hc _ Hs, PlannerWalks.traced_improved gr start c old Hc Hs)
              _ _ _ p ltac:(apply Forall_singleton, PlannerWalks.traced_start) Hr')
    as [->|(n & Ht & Hp & ->)]; [done|].
  by destruct (PlannerWalks.traced_follows gr start n Ht).
Qed.

Lemma marks_free n gr bs c :
  marks n gr bs → inBounds gr c = true → notObstacle gr c = Normal true →
  c ∉ cells bs.
Proof.
  intros [Hcub Hcells] Hb Hfree Hin.
  assert (Hwf := cubic_wellFormed n gr Hcub).
  destruct (PlannerFacts.wellFormed_notObstacle gr c Hwf Hb) as (v & Hv & Hno).
  rewrite (inside_inBounds n) in Hb by apply Hcub.
  rewrite (Hcells c Hb), decide_True in Hv by done.
  injection Hv as <-. rewrite Hno in Hfree. done.
Qed.

(** ** The application *)

(** The state the application is in after [initializeModels]. *)
Definition parkedState (g : Main.globals) : Prop :=
  Warehouse.boxes (Main.warehouse g) ≠ [] ∧
  Warehouse.gridSize (Main.warehouse g) = Main.GRID_SIZE ∧
  Main.robot g = Robot.new 1 0 1 ∧
  Main.baselineModel g = BaselineModel_new ∧
  Main.qinaModel g = QINAModel_new.

Lemma initializeModels_parked s :
  ∃ g s', Main.initializeModels s = (Normal g, s') ∧ parkedState g.
Proof.
  unfold Main.initializeModels.
  rewrite (initializeBoxes_fits Main.GRID_SIZE)
    by (apply cubic_replicate || (unfold Main.GRID_SIZE; lia)).
  do 2 eexists. split; [done|]. by split_and!.
Qed.

Lemma processVisualData_boxes t1 t2 t3 t4 g s :
  Main.runSimulation g = true → Warehouse.boxes (Main.warehouse g) ≠ [] →
  ∃ s', Main.processVisualData t1 t2 t3 t4 g s = Some (Throw "TypeError", g, s').
Proof.
  intros Hrun Hne. unfold Main.processVisualData. rewrite Hrun. simpl.
  destruct (generate_flat (Main.visualDataGenerator g) (Main.warehouse g) s Hne)
    as [s' ->]. by exists s'.
Qed.

Lemma processVisualData_empty t1 t2 t3 t4 g s :
  Main.runSimulation g = true → Warehouse.boxes (Main.warehouse g) = [] →
  ∃ g' s', Main.processVisualData t1 t2 t3 t4 g s = Some (Normal (), g', s') ∧
           Main.robot g' = Main.robot g ∧ Main.warehouse g' = Main.warehouse g.
Proof.
  intros Hrun Hnil. unfold Main.processVisualData. rewrite Hrun. simpl.
  unfold Generator.generate, Warehouse.getBoxPositions. rewrite Hnil.
  destruct (Generator.noise _ s) as [vd s1]. simpl.
  destruct (Main.activeModel g); simpl; by do 2 eexists.
Qed.

Lemma update_keeps now w s :
  Warehouse.gridSize (Warehouse.update now w s).1 = Warehouse.gridSize w ∧
  length (Warehouse.boxes (Warehouse.update now w s).1) = length (Warehouse.boxes w).
Proof.
  unfold Warehouse.update. destruct (Rlt_dec _ _); [|done].
  rewrite updateBoxes_eq. simpl. by rewrite length_imap.
Qed.

Lemma handle_parked e g s : parkedState g →
  ∃ c g' s', Main.handle e g s = Some (c, g', s') ∧ parkedState g'.
Proof.
  intros (Hne & Hn & Hr & Hb & Hq). destruct e as [now delta time t1 t2 t3 t4| | |]; simpl.
  - unfold Main.animate.
    destruct (update_keeps now (Main.warehouse g) s) as [Hgs Hlen].
    destruct (Warehouse.update now (Main.warehouse g) s) as [w s1]. simpl in Hgs, Hlen.
    assert (Hw : Warehouse.boxes w ≠ []).
    { intros Hnil. rewrite Hnil in Hlen. by destruct (Warehouse.boxes (Main.warehouse g)). }
    assert (Hidle : Robot.update delta (Main.robot g) = Robot.new 1 0 1).
    { rewrite Hr. apply RobotMore.update_idle. by left. }
    rewrite Hidle.
    set (g1 := {| Main.warehouse := w |}).
    assert (Hg1 : parkedState g1)
      by (subst g1; split_and!; simpl; [done|congruence|done|done|done]).
    destruct (Main.detectionDue time); [|by do 3 eexists].
    destruct (Main.runSimulation g) eqn:Hrun.
    + destruct (processVisualData_boxes t1 t2 t3 t4 g1 s1 eq_refl Hw) as [s' ->].
      by do 3 eexists.
    + unfold Main.processVisualData. simpl. by do 3 eexists.
  - do 3 eexists. split; [done|]. by split_and!.
  - unfold Main.resetSimulation, Warehouse.reset.
    rewrite (initializeBoxes_fits Main.GRID_SIZE)
      by (simpl; rewrite ?Hn; apply cubic_replicate || (unfold Main.GRID_SIZE; lia)).
    do 3 eexists. split; [done|]. simpl. rewrite Hr, Hb, Hq. by split_and!.
  - do 3 eexists. split; [done|]. by split_and!.
Qed.

Lemma run_parked es : ∀ g s, parkedState g →
  ∃ g' s', Main.run es g s = Some (g', s') ∧ parkedState g'.
Proof.
  induction es as [|e es IH]; intros g s Hg; [by do 2 eexists|].
  simpl. destruct (handle_parked e g s Hg) as (c & g1 & s1 & -> & Hg1).
  by apply IH.
Qed.

End WarehouseFacts.

(** * Further properties: the warehouse, the synthetic field, the application *)

Section WarehouseExtras.
Import Models Planner WarehouseFacts.
Local Open Scope R_scope.

(** X16.  After [updateBoxes] the grid shows the boxes and nothing else:
    it is a cube of the size of the warehouse in which a cell holds 1 when
    the floored position of some box is that cell, and 0 otherwise.  The
    boxes keep their positions. *)
Theorem X16_updateBoxes_rebuilds_the_grid (w : Warehouse.WarehouseEnvironment) (s : rng) :
  let w' := (Warehouse.updateBoxes w s).1 in
  Warehouse.gridSize w' = Warehouse.gridSize w ∧
  position <$> Warehouse.boxes w' = position <$> Warehouse.boxes w ∧
  length (Warehouse.grid w') = Warehouse.gridSize w ∧
  wellFormed (Warehouse.grid w') = true ∧
  ∀ c, Warehouse.inside (Warehouse.gridSize w) c = true →
       cell (Warehouse.grid w') c =
       Some (if decide (c ∈ cells (Warehouse.boxes w)) then 1 else 0)%Z.
Proof.
  rewrite updateBoxes_eq. simpl.
  destruct (marks_foldl (Warehouse.gridSize w) (Warehouse.boxes w)) as [Hcub Hcells].
  split_and!; [done| |apply Hcub|by eapply cubic_wellFormed|done].
  apply list_eq. intros i. rewrite !list_lookup_fmap, list_lookup_imap.
  by destruct (Warehouse.boxes w !! i).
Qed.

(** X17.  [updateBoxes] keeps the number of boxes and leaves every scale
    between 0.5 and 1.5, whatever it was before. *)
Theorem X17_updateBoxes_keeps_scales_in_range (w : Warehouse.WarehouseEnvironment)
    (s : rng) :
  length (Warehouse.boxes (Warehouse.updateBoxes w s).1) = length (Warehouse.boxes w) ∧
  Forall (λ b, 0.5 <= scale b <= 1.5) (Warehouse.boxes (Warehouse.updateBoxes w s).1).
Proof.
  rewrite updateBoxes_eq. simpl. split; [by rewrite length_imap|].
  apply Forall_lookup. intros i b' Hb'. rewrite list_lookup_imap in Hb'.
  destruct (Warehouse.boxes w !! i) as [b|]; [|done]. injection Hb' as <-.
  simpl. apply clamp_range.
Qed.

(** X18.  Rotations that start in [0, 360) stay in [0, 360) through any
    number of rounds of [updateBoxes]. *)
Theorem X18_rotations_stay_within_a_turn (w : Warehouse.WarehouseEnvironment)
    (s : rng) (k : nat) :
  Forall (λ b, 0 <= rotation b < 360) (Warehouse.boxes w) →
  Forall (λ b, 0 <= rotation b < 360) (Warehouse.boxes (updates k w s).1).
Proof.
  intros Hall. pose proof (updates_rotation k w s) as Heq.
  apply Forall_lookup. intros i b' Hb'.
  apply (f_equal (λ l, l !! i)) in Heq.
  rewrite !list_lookup_fmap, Hb' in Heq. simpl in Heq.
  destruct (Warehouse.boxes w !! i) as [b|] eqn:Hb; [|done].
  simpl in Heq. injection Heq as ->.
  apply turned_spec. exact (proj1 (Forall_lookup _ _) Hall _ _ Hb).
Qed.

Definition shelf : Warehouse.WarehouseEnvironment :=
  {| Warehouse.gridSize := 10; Warehouse.boxes := [Box (Vec3 8 0 8) 350 1];
     Warehouse.grid := createEmptyGrid 10;
     Warehouse.lastBoxUpdateTime := 0; Warehouse.updateInterval := 3000 |}.

Lemma X18_witness :
  Forall (λ b, 0 <= rotation b < 360) (Warehouse.boxes shelf) ∧
  Forall (λ b, 0 <= rotation b < 360)
         (Warehouse.boxes (updates 3 shelf (λ _, 0)).1).
Proof.
  assert (H : Forall (λ b, 0 <= rotation b < 360) (Warehouse.boxes shelf)).
  { simpl. apply Forall_singleton. simpl. lra. }
  split; [exact H|].
  exact (X18_rotations_stay_within_a_turn shelf (λ _, 0) 3 H).
Defined.

(** X19.  [reset] completes only on a grid of more than 8 cells a side.
    Then the warehouse holds two boxes, at (8, 0, 8) and (5, 0, 3), and the
    grid shows exactly these two.  On a smaller grid the first [addBox]
    throws a TypeError: the warehouse is left with that one box and a grid
    without obstacles. *)
Theorem X19_reset_needs_nine_cells (w : Warehouse.WarehouseEnvironment) (s : rng) :
  let '(r, w', _) := Warehouse.reset w s in
  Warehouse.gridSize w' = Warehouse.gridSize w ∧
  if decide (8 < Warehouse.gridSize w)%nat
  then r = Normal () ∧
       position <$> Warehouse.boxes w' = [Vec3 8 0 8; Vec3 5 0 3] ∧
       wellFormed (Warehouse.grid w') = true ∧
       ∀ c, Warehouse.inside (Warehouse.gridSize w) c = true →
            cell (Warehouse.grid w') c =
            Some (if decide (c ∈ [Coord 8 0 8; Coord 5 0 3]) then 1 else 0)%Z
  else r = Throw "TypeError" ∧
       position <$> Warehouse.boxes w' = [Vec3 8 0 8] ∧
       Warehouse.grid w' = createEmptyGrid (Warehouse.gridSize w).
Proof.
  unfold Warehouse.reset. set (n := Warehouse.gridSize w).
  destruct (decide (8 < n)%nat) as [Hn|Hn].
  - rewrite (initializeBoxes_fits n) by (done || apply cubic_replicate).
    simpl. split; [done|]. split_and!; [done|done| |].
    + apply (cubic_wellFormed n). do 2 apply cubic_write3. apply cubic_replicate.
    + intros c Hc. rewrite cell_cellAt.
      assert (H1 : Warehouse.inside n (Coord 8 0 8) = true)
        by (apply inside_spec; simpl; lia).
      assert (H2 : Warehouse.inside n (Coord 5 0 3) = true)
        by (apply inside_spec; simpl; lia).
      rewrite (cellAt_write3 n) by (done || apply cubic_write3, cubic_replicate).
      rewrite (cellAt_write3 n) by (done || apply cubic_replicate).
      unfold createEmptyGrid. rewrite cellAt_replicate by done.
      destruct (decide (c = Coord 5 0 3)) as [->|N1].
      { rewrite decide_True; [done|]. apply list_elem_of_further, list_elem_of_here. }
      destruct (decide (c = Coord 8 0 8)) as [->|N2].
      { rewrite decide_True; [done|]. apply list_elem_of_here. }
      rewrite decide_False; [done|].
      intros [?|[?|?%elem_of_nil]%elem_of_cons]%elem_of_cons; done.
  - rewrite initializeBoxes_small.
    + simpl. done.
    + simpl. unfold createEmptyGrid. rewrite length_replicate. fold n. lia.
Qed.

(** X20.  Given box objects with scales that are not negative, and draws
    in [0, 1), [generate] returns a cube of the size of the generator in
    which every cell that holds a box has an intensity of 0.7 or more and
    every other cell has noise below 0.1. *)
Theorem X20_generate_separates_boxes_from_noise (n : nat) (bs : list box) (s : rng) :
  (∀ k, 0 <= s k < 1) → Forall (λ b, 0 <= scale b) bs →
  ∃ vd, (Generator.generate n (Generator.BoxObject <$> bs) s).1 = Normal vd ∧
        cubic n vd ∧
        ∀ c, Warehouse.inside n c = true →
          ∃ v, cellAt vd c = Some v ∧
               if decide (c ∈ cells bs) then 0.7 <= v else 0 <= v < 0.1.
Proof.
  intros Hs Hbs. unfold Generator.generate.
  destruct (noise_spec n s Hs) as [Hcub Hnoise].
  destruct (Generator.noise n s) as [vd0 s']. simpl in Hcub, Hnoise.
  destruct (paintAll_boxes n bs vd0 Hcub) as (vd & Hp & Hvd & Hcells).
  exists vd. simpl. split_and!; [done|done|]. intros c Hc.
  specialize (Hcells c Hc). destruct (decide (c ∈ cells bs)).
  - destruct Hcells as (b & Hb & Hv). exists (intensity b). split; [done|].
    pose proof (intensity_range b (proj1 (Forall_forall _ _) Hbs b Hb)). lra.
  - destruct (cubic_cellAt n vd0 c Hcub Hc) as [v Hv]. exists v.
    split; [congruence|]. exact (cellAt_Forall _ _ _ _ Hnoise Hv).
Qed.

Lemma X20_witness :
  (∀ k : nat, 0 <= (λ _ : nat, 0) k < 1) ∧
  Forall (λ b, 0 <= scale b) [Box (Vec3 0 0 0) 0 1] ∧
  ∃ vd, (Generator.generate 2 (Generator.BoxObject <$> [Box (Vec3 0 0 0) 0 1])
           (λ _, 0)).1 = Normal vd ∧
        cubic 2 vd ∧
        ∀ c, Warehouse.inside 2 c = true →
          ∃ v, cellAt vd c = Some v ∧
               if decide (c ∈ cells [Box (Vec3 0 0 0) 0 1])
               then 0.7 <= v else 0 <= v < 0.1.
Proof.
  assert (H1 : ∀ k : nat, 0 <= (λ _ : nat, 0) k < 1) by (intros _; simpl; lra).
  assert (H2 : Forall (λ b, 0 <= scale b) [Box (Vec3 0 0 0) 0 1])
    by (apply Forall_singleton; simpl; lra).
  split; [exact H1|]. split; [exact H2|].
  exact (X20_generate_separates_boxes_from_noise 2 [Box (Vec3 0 0 0) 0 1] (λ _, 0) H1 H2).
Defined.

(** X21.  [processVisualData] hands [generate] the flat objects of
    [getBoxPositions], which have no [position].  So while the simulation
    runs and the warehouse holds a box, the call throws a TypeError before
    either model is asked, and changes nothing; and in no case does it
    change the robot or the warehouse. *)
Theorem X21_processVisualData_never_sets_a_target (t1 t2 t3 t4 : R) (g : Main.globals)
    (s : rng) :
  ∃ c g' s', Main.processVisualData t1 t2 t3 t4 g s = Some (c, g', s') ∧
    Main.robot g' = Main.robot g ∧ Main.warehouse g' = Main.warehouse g ∧
    if bool_decide (Main.runSimulation g = true ∧ Warehouse.boxes (Main.warehouse g) ≠ [])
    then c = Throw "TypeError" ∧ g' = g
    else c = Normal ().
Proof.
  destruct (Main.runSimulation g) eqn:Hrun.
  - destruct (Warehouse.boxes (Main.warehouse g)) as [|b bs] eqn:Hbs.
    + destruct (processVisualData_empty t1 t2 t3 t4 g s Hrun Hbs)
        as (g' & s' & -> & Hr & Hw).
      exists (Normal ()), g', s'. rewrite bool_decide_eq_false_2; [done|].
      by intros [_ ?].
    + destruct (processVisualData_boxes t1 t2 t3 t4 g s Hrun) as [s' ->].
      { by rewrite Hbs. }
      exists (Throw "TypeError"), g, s'. by rewrite bool_decide_eq_true_2.
  - unfold Main.processVisualData. rewrite Hrun. simpl.
    by exists (Normal ()), g, s.
Qed.

(** X22.  From [initializeModels] on, whatever frames are drawn and
    whatever is clicked or pressed, every event is served and the robot
    stays as it was built, at (1, 0, 1) with no target and no path, and
    neither model has counted a detection: the warehouse always holds a
    box, so every call of [processVisualData] that is not paused throws. *)
Theorem X22_the_robot_never_leaves (s : rng) (es : list Main.event) :
  ∃ g0 s0 g s',
    Main.initializeModels s = (Normal g0, s0) ∧
    Main.run es g0 s0 = Some (g, s') ∧
    Main.robot g = Robot.new 1 0 1 ∧
    Main.baselineModel g = BaselineModel_new ∧
    Main.qinaModel g = QINAModel_new.
Proof.
  destruct (initializeModels_parked s) as (g0 & s0 & Hinit & Hg0).
  destruct (run_parked es g0 s0 Hg0) as (g & s' & Hrun & (_ & _ & Hr & Hb & Hq)).
  by exists g0, s0, g, s'.
Qed.


(** X24.  Over the grid that [updateBoxes] leaves, [findPath] returns a
    path for every start and goal, and no waypoint of that path is a cell
    that holds a box. *)
Theorem X24_routes_avoid_the_boxes (w : Warehouse.WarehouseEnvironment) (s : rng)
    (start goal : coord) :
  let w' := (Warehouse.updateBoxes w s).1 in
  ∃ p, findPath (Warehouse.grid w') start goal = Some (Normal p) ∧
       Forall (λ c, ∀ b, b ∈ Warehouse.boxes w' → Robot.cellOf (position b) ≠ c) p.
Proof.
  rewrite updateBoxes_eq. simpl.
  pose proof (marks_foldl (Warehouse.gridSize w) (Warehouse.boxes w)) as Hm.
  set (gr := foldl _ _ _) in *.
  destruct (findPath_route gr start goal) as (p & Hp & Hf).
  { apply (cubic_wellFormed (Warehouse.gridSize w)), Hm. }
  exists p. split; [done|]. apply follows_free in Hf.
  eapply Forall_impl; [exact Hf|]. simpl. intros c [Hb Hfree] b Hin Heq.
  apply (marks_free _ _ _ c Hm Hb Hfree).
  rewrite <- (cells_changed s). unfold cells. apply list_elem_of_fmap.
  by exists b.
Qed.

(** X25.  [update] changes the boxes at most once per [updateInterval]:
    when a call has changed them at one reading of the clock, a call at a
    reading no more than the interval later changes nothing and draws
    nothing. *)
Theorem X25_update_waits_for_the_interval (w : Warehouse.WarehouseEnvironment)
    (s : rng) (t t' : R) :
  Warehouse.updateInterval w < t - Warehouse.lastBoxUpdateTime w →
  t' - t <= Warehouse.updateInterval w →
  Warehouse.update t w s = Warehouse.updateBoxes
    {| Warehouse.gridSize := Warehouse.gridSize w; Warehouse.boxes := Warehouse.boxes w;
       Warehouse.grid := Warehouse.grid w; Warehouse.lastBoxUpdateTime := t;
       Warehouse.updateInterval := Warehouse.updateInterval w |} s ∧
  Warehouse.update t' (Warehouse.update t w s).1 (Warehouse.update t w s).2
    = Warehouse.update t w s.
Proof.
  intros Hfire Hsoon.
  assert (H1 : Warehouse.update t w s = Warehouse.updateBoxes
    {| Warehouse.gridSize := Warehouse.gridSize w; Warehouse.boxes := Warehouse.boxes w;
       Warehouse.grid := Warehouse.grid w; Warehouse.lastBoxUpdateTime := t;
       Warehouse.updateInterval := Warehouse.updateInterval w |} s).
  { unfold Warehouse.update. by destruct (Rlt_dec _ _). }
  split; [exact H1|]. rewrite H1, updateBoxes_eq. simpl.
  unfold Warehouse.update. simpl. destruct (Rlt_dec _ _); [lra|done].
Qed.

Lemma X25_witness :
  Warehouse.updateInterval shelf < 4000 - Warehouse.lastBoxUpdateTime shelf ∧
  5000 - 4000 <= Warehouse.updateInterval shelf ∧
  Warehouse.update 4000 shelf (λ _, 0) = Warehouse.updateBoxes
    {| Warehouse.gridSize := Warehouse.gridSize shelf;
       Warehouse.boxes := Warehouse.boxes shelf;
       Warehouse.grid := Warehouse.grid shelf; Warehouse.lastBoxUpdateTime := 4000;
       Warehouse.updateInterval := Warehouse.updateInterval shelf |} (λ _, 0) ∧
  Warehouse.update 5000 (Warehouse.update 4000 shelf (λ _, 0)).1
                        (Warehouse.update 4000 shelf (λ _, 0)).2
    = Warehouse.update 4000 shelf (λ _, 0).
Proof.
  assert (H1 : Warehouse.updateInterval shelf < 4000 - Warehouse.lastBoxUpdateTime shelf)
    by (simpl; lra).
  assert (H2 : 5000 - 4000 <= Warehouse.updateInterval shelf) by (simpl; lra).
  split; [exact H1|]. split; [exact H2|].
  exact (X25_update_waits_for_the_interval shelf (λ _, 0) 4000 5000 H1 H2).
Defined.

End WarehouseExtras.
